(** * CMS-2 language server: semantic parser, query layer and document store

    A shallow embedding of [cms2_semantic_parser.py] and of the parts of
    [cms2_lsp_server.py] that keep per-document state and resolve the word
    under the cursor, followed by the properties of the specification that
    are stated about them.

    Conventions of the embedding.
    - Source text is a list of 8-bit characters.  CMS-2 source is ASCII; the
      functions of module [Text] are the ASCII restrictions of Python's
      [str] methods (a character with code 128 or more has no case and is
      neither white space, a letter nor a digit).
    - Python integers are unbounded: [N] for values read from the text,
      [nat] for line numbers and columns.  Only the conversion from text is
      limited: [int] refuses a string of more than 4300 digits.
    - A Python [dict] is a [gmap]; iteration order is not modelled.
    - Objects that are entered into several indexes and mutated afterwards
      (tables, types, procedures) live in a store inside the model, and the
      indexes hold references into it, so that a mutation is seen through
      every alias, as in Python.
    - Operations that can raise in Python ([d[k]], [int(s)], a method call on
      [None]) return in the [result] monad; loops that are not structural
      take fuel and report [OutOfFuel] when it does not suffice. *)

From Stdlib Require Import Ascii String List NArith Lia.
From stdpp Require Import base option list gmap strings sorting.

Local Open Scope list_scope.

(** ** Text: the [str] methods used by the program *)

Module Text.

Abbreviation str := (list ascii).

(** Literals are written as Rocq strings. *)
Definition txt (s : string) : str := list_ascii_of_string s.

Definition code (c : ascii) : nat := nat_of_ascii c.

Definition in_range (lo hi : nat) (c : ascii) : bool :=
  (lo <=? code c) && (code c <=? hi).

Definition is_upper_c (c : ascii) : bool := in_range 65 90 c.
Definition is_lower_c (c : ascii) : bool := in_range 97 122 c.
Definition is_digit_c (c : ascii) : bool := in_range 48 57 c.
Definition is_alpha_c (c : ascii) : bool := is_upper_c c || is_lower_c c.

(** [str.isspace] on ASCII: TAB, LF, VT, FF, CR, FS, GS, RS, US, SPACE. *)
Definition is_space_c (c : ascii) : bool :=
  in_range 9 13 c || in_range 28 32 c.

(** [\w] on ASCII. *)
Definition is_word_c (c : ascii) : bool :=
  is_alpha_c c || is_digit_c c || (code c =? 95).

Definition eqc (a b : ascii) : bool := Ascii.eqb a b.

Definition upper_c (c : ascii) : ascii :=
  if is_lower_c c then ascii_of_nat (code c - 32) else c.

(** [s.upper()] *)
Definition upper (s : str) : str := map upper_c s.

(** [s.lstrip()], [s.rstrip()], [s.strip()] *)
Fixpoint lstrip (s : str) : str :=
  match s with
  | c :: t => if is_space_c c then lstrip t else s
  | [] => []
  end.

Definition rstrip (s : str) : str := rev (lstrip (rev s)).

Definition strip (s : str) : str := rstrip (lstrip s).

(** [s.startswith(p)] *)
Fixpoint startswith (s p : str) : bool :=
  match p, s with
  | [], _ => true
  | a :: p', b :: s' => eqc a b && startswith s' p'
  | _ :: _, [] => false
  end.

(** [p in s] for strings *)
Fixpoint contains (s p : str) : bool :=
  startswith s p ||
  match s with
  | _ :: t => contains t p
  | [] => false
  end.

(** [s.find(c)] for a one-character needle; [None] is Python's -1. *)
Fixpoint find_c (c : ascii) (s : str) : option nat :=
  match s with
  | [] => None
  | a :: t => if eqc a c then Some 0 else S <$> find_c c t
  end.

(** [s.split(c)] for a one-character separator. *)
Fixpoint split_c (c : ascii) (s : str) : list str :=
  match s with
  | [] => [[]]
  | a :: t =>
      if eqc a c then [] :: split_c c t
      else match split_c c t with
           | h :: r => (a :: h) :: r
           | [] => [[a]]
           end
  end.

(** [s.isdigit()] on ASCII *)
Definition isdigit (s : str) : bool :=
  match s with
  | [] => false
  | _ => forallb is_digit_c s
  end.

(** The value of a string of decimal digits. *)
Definition digit_val (c : ascii) : N := N.of_nat (code c - 48).

Definition digits_val (s : str) : N :=
  fold_left (fun acc c => (10 * acc + digit_val c)%N) s 0%N.

(** Python's truth value of a string. *)
Definition nonempty (s : str) : bool :=
  match s with [] => false | _ => true end.

End Text.

Export Text.

(** ** Python exceptions *)

Inductive pyexn : Type :=
| KeyError
| ValueError
| TypeError
| AttributeError.

Inductive result (A : Type) : Type :=
| Ok (a : A)
| Raise (e : pyexn)
| OutOfFuel.

Arguments Ok {A} a.
Arguments Raise {A} e.
Arguments OutOfFuel {A}.

Definition rbind {A B} (x : result A) (f : A → result B) : result B :=
  match x with
  | Ok a => f a
  | Raise e => Raise e
  | OutOfFuel => OutOfFuel
  end.

Definition rmap {A B} (f : A → B) (x : result A) : result B :=
  match x with
  | Ok a => Ok (f a)
  | Raise e => Raise e
  | OutOfFuel => OutOfFuel
  end.

Notation "x ←! e1 ; e2" := (rbind e1 (fun x => e2))
  (at level 100, e1 at next level, e2 at level 200, right associativity,
   format "x  ←!  e1 ;  '/' e2").

(** [d[k]] *)
Definition getitem `{Countable K} {V} (d : gmap K V) (k : K) : result V :=
  match d !! k with
  | Some v => Ok v
  | None => Raise KeyError
  end.

(** [sys.int_info.default_max_str_digits]: the longest string of decimal
    digits that [int] converts. *)
Definition INT_MAX_STR_DIGITS : nat := 4300.

(** [int(s)].  Python accepts more than digits (signs, blanks,
    underscores); the program only applies it to text matched by [\d+], and
    raising on everything else is the conservative reading.  On a string of
    more than [INT_MAX_STR_DIGITS] digits CPython raises [ValueError]
    (leading zeros count). *)
Definition py_int (s : str) : result N :=
  if isdigit s then
    if INT_MAX_STR_DIGITS <? length s then Raise ValueError
    else Ok (digits_val s)
  else Raise ValueError.

(** A method call on a value that may be [None]. *)
Definition deref {A} (o : option A) : result A :=
  match o with
  | Some a => Ok a
  | None => Raise AttributeError
  end.

(** ** Regular expressions with Python's backtracking semantics *)

Module Re.

(** Character classes.  The case-insensitive ones are the classes of the
    patterns compiled with [re.IGNORECASE]. *)
Inductive cls : Type :=
| CAny                  (* [.] under [re.DOTALL] *)
| CDot                  (* [.] *)
| CSpace                (* [\s] *)
| CDigit                (* [\d] *)
| CLetter               (* [[A-Z]], ignoring case *)
| CIdent                (* [[A-Z0-9_]], ignoring case *)
| CAlnum                (* [[A-Z0-9]], ignoring case *)
| CLit (c : ascii)      (* a literal character *)
| CILit (c : ascii)     (* a literal character, ignoring case *)
| COneOf (s : string)   (* [[...]] *)
| CIOneOf (s : string)  (* [[...]], ignoring case *)
| CNoneOf (s : string). (* [[^...]] *)

Definition test (k : cls) (x : ascii) : bool :=
  match k with
  | CAny => true
  | CDot => negb (eqc x "010"%char)
  | CSpace => is_space_c x
  | CDigit => is_digit_c x
  | CLetter => is_alpha_c x
  | CIdent => is_alpha_c x || is_digit_c x || eqc x "_"%char
  | CAlnum => is_alpha_c x || is_digit_c x
  | CLit c => eqc x c
  | CILit c => eqc (upper_c x) (upper_c c)
  | COneOf s => existsb (eqc x) (txt s)
  | CIOneOf s => existsb (fun c => eqc (upper_c x) (upper_c c)) (txt s)
  | CNoneOf s => negb (existsb (eqc x) (txt s))
  end.

(** The fragment of [re] syntax the program uses.  Repetition is only ever
    applied to a single character class in the source patterns. *)
Inductive re : Type :=
| Eps
| Chr (p : cls)
| Seq (r1 r2 : re)
| Alt (r1 r2 : re)
| Opt (r : re)
| Star (greedy : bool) (p : cls)
| Grp (n : nat) (r : re)
| WordB
| EndS.

(** A position in the subject: the offset, the character before it (for
    [\b]), the text that remains, and the groups captured so far. *)
Record mstate : Type := MState {
  pos : nat;
  prev : option ascii;
  rest : str;
  caps : gmap nat str
}.

Definition advance (c : ascii) (t : str) (st : mstate) : mstate :=
  MState (S (pos st)) (Some c) t (caps st).

Definition set_cap (n : nat) (from to : mstate) : mstate :=
  MState (pos to) (prev to) (rest to)
         (<[n := take (pos to - pos from) (rest from)]> (caps to)).

Definition word_before (st : mstate) : bool :=
  match prev st with Some c => is_word_c c | None => false end.

Definition word_after (st : mstate) : bool :=
  match rest st with c :: _ => is_word_c c | [] => false end.

(** [$]: at the end, or before a final newline. *)
Definition at_end (st : mstate) : bool :=
  match rest st with
  | [] => true
  | [c] => eqc c "010"%char
  | _ => false
  end.

(** Greedy repetition of a class: take a character first, give it back
    when the continuation fails. *)
Fixpoint star_greedy (p : cls) (l : str) (st : mstate)
    (k : mstate → option mstate) : option mstate :=
  match l with
  | c :: t =>
      if test p c then
        match star_greedy p t (advance c t st) k with
        | Some out => Some out
        | None => k st
        end
      else k st
  | [] => k st
  end.

(** Lazy repetition: try the continuation first, take a character only
    when it fails. *)
Fixpoint star_lazy (p : cls) (l : str) (st : mstate)
    (k : mstate → option mstate) : option mstate :=
  match k st with
  | Some out => Some out
  | None =>
      match l with
      | c :: t => if test p c then star_lazy p t (advance c t st) k else None
      | [] => None
      end
  end.

(** The matcher, in continuation-passing style: alternatives are tried in
    the order of the pattern and the first complete match wins. *)
Fixpoint run (r : re) (st : mstate) (k : mstate → option mstate)
    : option mstate :=
  match r with
  | Eps => k st
  | Chr p =>
      match rest st with
      | c :: t => if test p c then k (advance c t st) else None
      | [] => None
      end
  | Seq r1 r2 => run r1 st (fun st1 => run r2 st1 k)
  | Alt r1 r2 =>
      match run r1 st k with
      | Some out => Some out
      | None => run r2 st k
      end
  | Opt r1 =>
      match run r1 st k with
      | Some out => Some out
      | None => k st
      end
  | Star true p => star_greedy p (rest st) st k
  | Star false p => star_lazy p (rest st) st k
  | Grp n r1 => run r1 st (fun st1 => k (set_cap n st st1))
  | WordB => if xorb (word_before st) (word_after st) then k st else None
  | EndS => if at_end st then k st else None
  end.

(** A match object: its span and its groups. *)
Record pymatch : Type := PyMatch {
  m_start : nat;
  m_end : nat;
  m_groups : gmap nat str
}.

(** [m.group(n)] *)
Definition group (m : pymatch) (n : nat) : option str := m_groups m !! n.

Definition match_at (r : re) (st : mstate) : option pymatch :=
  (fun out => PyMatch (pos st) (pos out) (caps out)) <$> run r st Some.

Definition start_state (s : str) : mstate := MState 0 None s ∅.

(** [re.match(r, s)] *)
Definition re_match (r : re) (s : str) : option pymatch :=
  match_at r (start_state s).

(** [re.search(r, s)]: the first position, from the left, with a match. *)
Fixpoint search_from (r : re) (l : str) (i : nat) (pv : option ascii)
    : option pymatch :=
  match match_at r (MState i pv l ∅) with
  | Some m => Some m
  | None =>
      match l with
      | c :: t => search_from r t (S i) (Some c)
      | [] => None
      end
  end.

Definition re_search (r : re) (s : str) : option pymatch :=
  search_from r s 0 None.

(** [re.finditer(r, s)]: successive matches, each search resuming where
    the previous match ended.  [skip] counts the characters still covered
    by the last match.  The patterns iterated over in the program never
    match the empty string. *)
Fixpoint finditer_from (r : re) (l : str) (i : nat) (pv : option ascii)
    (skip : nat) : list pymatch :=
  match skip with
  | S skip' =>
      match l with
      | c :: t => finditer_from r t (S i) (Some c) skip'
      | [] => []
      end
  | 0 =>
      match match_at r (MState i pv l ∅) with
      | Some m =>
          m :: match l with
               | c :: t => finditer_from r t (S i) (Some c) (m_end m - i - 1)
               | [] => []
               end
      | None =>
          match l with
          | c :: t => finditer_from r t (S i) (Some c) 0
          | [] => []
          end
      end
  end.

Definition finditer (r : re) (s : str) : list pymatch :=
  finditer_from r s 0 None 0.

(** [pattern.findall(s)] for a pattern with a single group. *)
Definition findall1 (r : re) (s : str) : list str :=
  omap (fun m => group m 1) (finditer r s).

(** *** Pattern combinators *)

(** A literal character under [re.IGNORECASE], and case-sensitive. *)
Definition ichr (c : ascii) : re := Chr (CILit c).
Definition chr (c : ascii) : re := Chr (CLit c).

Arguments ichr c%_char.
Arguments chr c%_char.

Fixpoint seqs (rs : list re) : re :=
  match rs with
  | [] => Eps
  | [r] => r
  | r :: rs' => Seq r (seqs rs')
  end.

(** A literal word under [re.IGNORECASE], and case-sensitive. *)
Definition ilit (s : string) : re := seqs (map ichr (txt s)).
Definition lit (s : string) : re := seqs (map chr (txt s)).

(** [c+] and [c+?] *)
Definition plus (greedy : bool) (p : cls) : re :=
  Seq (Chr p) (Star greedy p).

(** [\s*], [\s+], [\d+] *)
Definition ws0 : re := Star true CSpace.
Definition ws1 : re := plus true CSpace.
Definition digits1 : re := plus true CDigit.

(** [[A-Z][A-Z0-9_]*] and [[A-Z][A-Z0-9]*] under [re.IGNORECASE] *)
Definition ident : re := Seq (Chr CLetter) (Star true CIdent).
Definition alnum_word : re := Seq (Chr CLetter) (Star true CAlnum).

End Re.

Export Re.

(** ** Data model ([cms2_semantic_parser.py], the dataclasses)

    Rocq projections share one name space, so the fields of each class carry
    a short prefix: [v_] VariableDefinition, [t_] TableDefinition, [f_]
    FieldDefinition, [p_] ProcedureDefinition, [fn_] FunctionDefinition,
    [ty_] TypeDefinition, [dd_] SystemDataBlock, [sp_] SystemProcBlock. *)

Inductive CMS2Type : Type :=
| INTEGER | FIXED | FLOAT | BOOLEAN | CHAR | STATUS | UNIVERSAL | TABLE
| UNKNOWN.

(** A reference to an object of a store. *)
Abbreviation ref := nat.

Record VariableDefinition : Type := mkVariable {
  v_name : str;
  v_var_type : CMS2Type;
  v_bits : option N;
  v_signed : bool;
  v_frac_bits : option N;
  v_char_length : option N;
  v_status_values : list str;
  v_is_preset : bool;
  v_preset_value : option str;
  v_modifier : option str;
  v_line_number : nat;
  v_column_start : nat;
  v_column_end : nat;
  v_parent_block : option str
}.

Record FieldDefinition : Type := mkField {
  f_name : str;
  f_field_type : CMS2Type;
  f_bits : option N;
  f_signed : bool;
  f_frac_bits : option N;
  f_char_length : option N;
  f_start_word : option N;
  f_start_bit : option N;
  f_preset_values : list str;
  f_line_number : nat;
  f_parent_table : option str
}.

Record TableDefinition : Type := mkTable {
  t_name : str;
  t_table_type : str;
  t_packing : str;
  t_item_count : option N;
  t_item_typed : bool;
  t_type_spec : option str;
  t_fields : gmap str FieldDefinition;
  t_is_indirect : bool;
  t_major_index : option str;
  t_modifier : option str;
  t_line_start : nat;
  t_line_end : nat
}.

Record ProcedureDefinition : Type := mkProcedure {
  p_name : str;
  p_is_exec : bool;
  p_input_params : list str;
  p_output_params : list str;
  p_exit_params : list str;
  p_modifier : option str;
  p_local_vars : gmap str VariableDefinition;
  p_line_start : nat;
  p_line_end : nat;
  p_body_start : nat
}.

Record FunctionDefinition : Type := mkFunction {
  fn_name : str;
  fn_input_params : list str;
  fn_return_type : option str;
  fn_modifier : option str;
  fn_local_vars : gmap str VariableDefinition;
  fn_line_start : nat;
  fn_line_end : nat
}.

Record TypeDefinition : Type := mkType {
  ty_name : str;
  ty_base_type : option str;
  ty_packing : str;
  ty_status_values : list str;
  ty_fields : gmap str FieldDefinition;
  ty_line_start : nat;
  ty_line_end : nat
}.

(** The block indexes [tables], [types] and [procedures] hold the very
    objects of the top-level registries: references. *)
Record SystemDataBlock : Type := mkSysDD {
  dd_name : str;
  dd_variables : gmap str VariableDefinition;
  dd_tables : gmap str ref;
  dd_types : gmap str ref;
  dd_line_start : nat;
  dd_line_end : nat
}.

Record SystemProcBlock : Type := mkSysProc {
  sp_name : str;
  sp_is_reentrant : bool;
  sp_procedures : gmap str ref;
  sp_functions : gmap str FunctionDefinition;
  sp_local_data : gmap str VariableDefinition;
  sp_line_start : nat;
  sp_line_end : nat
}.

(** [CMS2SemanticModel].  [table_objs], [type_objs] and [proc_objs] are the
    stores of the table, type and procedure objects; a reference is an index
    into its store. *)
Record CMS2SemanticModel : Type := mkModel {
  variables : gmap str VariableDefinition;
  tables : gmap str ref;
  types : gmap str ref;
  procedures : gmap str ref;
  functions : gmap str FunctionDefinition;
  sys_data_blocks : gmap str SystemDataBlock;
  sys_proc_blocks : gmap str SystemProcBlock;
  current_scope : str;
  scope_stack : list str;
  constant_mode : str;
  table_objs : list TableDefinition;
  type_objs : list TypeDefinition;
  proc_objs : list ProcedureDefinition
}.

(** [CMS2SemanticModel.__init__] *)
Definition new_model : CMS2SemanticModel :=
  mkModel ∅ ∅ ∅ ∅ ∅ ∅ ∅ (txt "GLOBAL") [] (txt "D") [] [] [].

(** *** Field assignments *)

Definition t_set_line_end (n : nat) (t : TableDefinition) : TableDefinition :=
  mkTable (t_name t) (t_table_type t) (t_packing t) (t_item_count t)
    (t_item_typed t) (t_type_spec t) (t_fields t) (t_is_indirect t)
    (t_major_index t) (t_modifier t) (t_line_start t) n.

Definition t_set_field (k : str) (f : FieldDefinition) (t : TableDefinition)
    : TableDefinition :=
  mkTable (t_name t) (t_table_type t) (t_packing t) (t_item_count t)
    (t_item_typed t) (t_type_spec t) (<[k := f]> (t_fields t))
    (t_is_indirect t) (t_major_index t) (t_modifier t) (t_line_start t)
    (t_line_end t).

Definition ty_set_line_end (n : nat) (t : TypeDefinition) : TypeDefinition :=
  mkType (ty_name t) (ty_base_type t) (ty_packing t) (ty_status_values t)
    (ty_fields t) (ty_line_start t) n.

Definition p_set_line_end (n : nat) (p : ProcedureDefinition)
    : ProcedureDefinition :=
  mkProcedure (p_name p) (p_is_exec p) (p_input_params p) (p_output_params p)
    (p_exit_params p) (p_modifier p) (p_local_vars p) (p_line_start p) n
    (p_body_start p).

Definition p_set_local_var (k : str) (v : VariableDefinition)
    (p : ProcedureDefinition) : ProcedureDefinition :=
  mkProcedure (p_name p) (p_is_exec p) (p_input_params p) (p_output_params p)
    (p_exit_params p) (p_modifier p) (<[k := v]> (p_local_vars p))
    (p_line_start p) (p_line_end p) (p_body_start p).

Definition fn_set_line_end (n : nat) (f : FunctionDefinition)
    : FunctionDefinition :=
  mkFunction (fn_name f) (fn_input_params f) (fn_return_type f)
    (fn_modifier f) (fn_local_vars f) (fn_line_start f) n.

Definition dd_set_line_end (n : nat) (b : SystemDataBlock) : SystemDataBlock :=
  mkSysDD (dd_name b) (dd_variables b) (dd_tables b) (dd_types b)
    (dd_line_start b) n.

Definition dd_set_variable (k : str) (v : VariableDefinition)
    (b : SystemDataBlock) : SystemDataBlock :=
  mkSysDD (dd_name b) (<[k := v]> (dd_variables b)) (dd_tables b) (dd_types b)
    (dd_line_start b) (dd_line_end b).

Definition dd_set_table (k : str) (r : ref) (b : SystemDataBlock)
    : SystemDataBlock :=
  mkSysDD (dd_name b) (dd_variables b) (<[k := r]> (dd_tables b)) (dd_types b)
    (dd_line_start b) (dd_line_end b).

Definition dd_set_type (k : str) (r : ref) (b : SystemDataBlock)
    : SystemDataBlock :=
  mkSysDD (dd_name b) (dd_variables b) (dd_tables b) (<[k := r]> (dd_types b))
    (dd_line_start b) (dd_line_end b).

Definition sp_set_line_end (n : nat) (b : SystemProcBlock) : SystemProcBlock :=
  mkSysProc (sp_name b) (sp_is_reentrant b) (sp_procedures b) (sp_functions b)
    (sp_local_data b) (sp_line_start b) n.

Definition sp_set_procedure (k : str) (r : ref) (b : SystemProcBlock)
    : SystemProcBlock :=
  mkSysProc (sp_name b) (sp_is_reentrant b) (<[k := r]> (sp_procedures b))
    (sp_functions b) (sp_local_data b) (sp_line_start b) (sp_line_end b).

Definition set_variables (x : gmap str VariableDefinition)
    (m : CMS2SemanticModel) : CMS2SemanticModel :=
  mkModel x (tables m) (types m) (procedures m) (functions m)
    (sys_data_blocks m) (sys_proc_blocks m) (current_scope m) (scope_stack m)
    (constant_mode m) (table_objs m) (type_objs m) (proc_objs m).

Definition set_tables (x : gmap str ref) (o : list TableDefinition)
    (m : CMS2SemanticModel) : CMS2SemanticModel :=
  mkModel (variables m) x (types m) (procedures m) (functions m)
    (sys_data_blocks m) (sys_proc_blocks m) (current_scope m) (scope_stack m)
    (constant_mode m) o (type_objs m) (proc_objs m).

Definition set_types (x : gmap str ref) (o : list TypeDefinition)
    (m : CMS2SemanticModel) : CMS2SemanticModel :=
  mkModel (variables m) (tables m) x (procedures m) (functions m)
    (sys_data_blocks m) (sys_proc_blocks m) (current_scope m) (scope_stack m)
    (constant_mode m) (table_objs m) o (proc_objs m).

Definition set_procedures (x : gmap str ref) (o : list ProcedureDefinition)
    (m : CMS2SemanticModel) : CMS2SemanticModel :=
  mkModel (variables m) (tables m) (types m) x (functions m)
    (sys_data_blocks m) (sys_proc_blocks m) (current_scope m) (scope_stack m)
    (constant_mode m) (table_objs m) (type_objs m) o.

Definition set_functions (x : gmap str FunctionDefinition)
    (m : CMS2SemanticModel) : CMS2SemanticModel :=
  mkModel (variables m) (tables m) (types m) (procedures m) x
    (sys_data_blocks m) (sys_proc_blocks m) (current_scope m) (scope_stack m)
    (constant_mode m) (table_objs m) (type_objs m) (proc_objs m).

Definition set_sys_data_blocks (x : gmap str SystemDataBlock)
    (m : CMS2SemanticModel) : CMS2SemanticModel :=
  mkModel (variables m) (tables m) (types m) (procedures m) (functions m)
    x (sys_proc_blocks m) (current_scope m) (scope_stack m)
    (constant_mode m) (table_objs m) (type_objs m) (proc_objs m).

Definition set_sys_proc_blocks (x : gmap str SystemProcBlock)
    (m : CMS2SemanticModel) : CMS2SemanticModel :=
  mkModel (variables m) (tables m) (types m) (procedures m) (functions m)
    (sys_data_blocks m) x (current_scope m) (scope_stack m)
    (constant_mode m) (table_objs m) (type_objs m) (proc_objs m).

Definition set_current_scope (x : str) (m : CMS2SemanticModel)
    : CMS2SemanticModel :=
  mkModel (variables m) (tables m) (types m) (procedures m) (functions m)
    (sys_data_blocks m) (sys_proc_blocks m) x (scope_stack m)
    (constant_mode m) (table_objs m) (type_objs m) (proc_objs m).

Definition set_constant_mode (x : str) (m : CMS2SemanticModel)
    : CMS2SemanticModel :=
  mkModel (variables m) (tables m) (types m) (procedures m) (functions m)
    (sys_data_blocks m) (sys_proc_blocks m) (current_scope m) (scope_stack m)
    x (table_objs m) (type_objs m) (proc_objs m).

(** *** Methods of the model *)

(** [add_variable] *)
Definition add_variable (m : CMS2SemanticModel) (var : VariableDefinition)
    : CMS2SemanticModel :=
  let key :=
    if bool_decide (current_scope m ≠ txt "GLOBAL")
    then current_scope m ++ txt "." ++ v_name var
    else v_name var in
  set_variables (<[key := var]> (<[v_name var := var]> (variables m))) m.

(** [get_variable] *)
Definition get_variable (m : CMS2SemanticModel) (name : str)
    : option VariableDefinition :=
  let scoped_name := current_scope m ++ txt "." ++ name in
  match variables m !! scoped_name with
  | Some v => Some v
  | None => variables m !! name
  end.

(** [add_table], [add_type], [add_procedure]: a new object enters the store
    and the registry entry points to it. *)
Definition add_table (m : CMS2SemanticModel) (table : TableDefinition)
    : CMS2SemanticModel :=
  set_tables (<[t_name table := length (table_objs m)]> (tables m))
             (table_objs m ++ [table]) m.

Definition add_type (m : CMS2SemanticModel) (typedef : TypeDefinition)
    : CMS2SemanticModel :=
  set_types (<[ty_name typedef := length (type_objs m)]> (types m))
            (type_objs m ++ [typedef]) m.

Definition add_procedure (m : CMS2SemanticModel) (proc : ProcedureDefinition)
    : CMS2SemanticModel :=
  set_procedures (<[p_name proc := length (proc_objs m)]> (procedures m))
                 (proc_objs m ++ [proc]) m.

(** [add_function] *)
Definition add_function (m : CMS2SemanticModel) (func : FunctionDefinition)
    : CMS2SemanticModel :=
  set_functions (<[fn_name func := func]> (functions m)) m.

(** [get_table], [get_procedure], [get_function], [get_type] *)
Definition get_table (m : CMS2SemanticModel) (name : str)
    : option TableDefinition :=
  r ← tables m !! name; table_objs m !! r.

Definition get_procedure (m : CMS2SemanticModel) (name : str)
    : option ProcedureDefinition :=
  r ← procedures m !! name; proc_objs m !! r.

Definition get_function (m : CMS2SemanticModel) (name : str)
    : option FunctionDefinition :=
  functions m !! name.

Definition get_type (m : CMS2SemanticModel) (name : str)
    : option TypeDefinition :=
  r ← types m !! name; type_objs m !! r.

(** ** The semantic parser ([CMS2SemanticParser]) *)

Record CMS2SemanticParser : Type := mkParser {
  model : CMS2SemanticModel;
  lines : list str;
  current_line_num : nat;
  in_sys_dd : bool;
  current_sys_dd : option str;
  in_sys_proc : bool;
  current_sys_proc : option str;
  in_table_block : bool;
  current_table : option str;
  in_type_block : bool;
  current_type : option str;
  in_procedure : bool;
  current_procedure : option str;
  in_function : bool;
  current_function : option str;
  in_loc_dd : bool
}.

(** [CMS2SemanticParser.__init__] *)
Definition new_parser : CMS2SemanticParser :=
  mkParser new_model [] 0 false None false None false None false None
           false None false None false.

Definition set_model (m : CMS2SemanticModel) (s : CMS2SemanticParser)
    : CMS2SemanticParser :=
  mkParser m (lines s) (current_line_num s) (in_sys_dd s) (current_sys_dd s)
    (in_sys_proc s) (current_sys_proc s) (in_table_block s) (current_table s)
    (in_type_block s) (current_type s) (in_procedure s) (current_procedure s)
    (in_function s) (current_function s) (in_loc_dd s).

Definition set_lines (ls : list str) (s : CMS2SemanticParser)
    : CMS2SemanticParser :=
  mkParser (model s) ls (current_line_num s) (in_sys_dd s) (current_sys_dd s)
    (in_sys_proc s) (current_sys_proc s) (in_table_block s) (current_table s)
    (in_type_block s) (current_type s) (in_procedure s) (current_procedure s)
    (in_function s) (current_function s) (in_loc_dd s).

Definition set_current_line_num (n : nat) (s : CMS2SemanticParser)
    : CMS2SemanticParser :=
  mkParser (model s) (lines s) n (in_sys_dd s) (current_sys_dd s)
    (in_sys_proc s) (current_sys_proc s) (in_table_block s) (current_table s)
    (in_type_block s) (current_type s) (in_procedure s) (current_procedure s)
    (in_function s) (current_function s) (in_loc_dd s).

Definition set_sys_dd (b : bool) (c : option str) (s : CMS2SemanticParser)
    : CMS2SemanticParser :=
  mkParser (model s) (lines s) (current_line_num s) b c
    (in_sys_proc s) (current_sys_proc s) (in_table_block s) (current_table s)
    (in_type_block s) (current_type s) (in_procedure s) (current_procedure s)
    (in_function s) (current_function s) (in_loc_dd s).

Definition set_sys_proc (b : bool) (c : option str) (s : CMS2SemanticParser)
    : CMS2SemanticParser :=
  mkParser (model s) (lines s) (current_line_num s) (in_sys_dd s)
    (current_sys_dd s) b c (in_table_block s) (current_table s)
    (in_type_block s) (current_type s) (in_procedure s) (current_procedure s)
    (in_function s) (current_function s) (in_loc_dd s).

Definition set_table (b : bool) (c : option str) (s : CMS2SemanticParser)
    : CMS2SemanticParser :=
  mkParser (model s) (lines s) (current_line_num s) (in_sys_dd s)
    (current_sys_dd s) (in_sys_proc s) (current_sys_proc s) b c
    (in_type_block s) (current_type s) (in_procedure s) (current_procedure s)
    (in_function s) (current_function s) (in_loc_dd s).

Definition set_type (b : bool) (c : option str) (s : CMS2SemanticParser)
    : CMS2SemanticParser :=
  mkParser (model s) (lines s) (current_line_num s) (in_sys_dd s)
    (current_sys_dd s) (in_sys_proc s) (current_sys_proc s)
    (in_table_block s) (current_table s) b c
    (in_procedure s) (current_procedure s)
    (in_function s) (current_function s) (in_loc_dd s).

Definition set_procedure (b : bool) (c : option str) (s : CMS2SemanticParser)
    : CMS2SemanticParser :=
  mkParser (model s) (lines s) (current_line_num s) (in_sys_dd s)
    (current_sys_dd s) (in_sys_proc s) (current_sys_proc s)
    (in_table_block s) (current_table s) (in_type_block s) (current_type s)
    b c (in_function s) (current_function s) (in_loc_dd s).

Definition set_function (b : bool) (c : option str) (s : CMS2SemanticParser)
    : CMS2SemanticParser :=
  mkParser (model s) (lines s) (current_line_num s) (in_sys_dd s)
    (current_sys_dd s) (in_sys_proc s) (current_sys_proc s)
    (in_table_block s) (current_table s) (in_type_block s) (current_type s)
    (in_procedure s) (current_procedure s) b c (in_loc_dd s).

Definition set_loc_dd (b : bool) (s : CMS2SemanticParser)
    : CMS2SemanticParser :=
  mkParser (model s) (lines s) (current_line_num s) (in_sys_dd s)
    (current_sys_dd s) (in_sys_proc s) (current_sys_proc s)
    (in_table_block s) (current_table s) (in_type_block s) (current_type s)
    (in_procedure s) (current_procedure s)
    (in_function s) (current_function s) b.

(** *** Python idioms *)

(** The truth value of an [Optional[str]]. *)
Definition truthy (o : option str) : bool :=
  match o with
  | Some s => nonempty s
  | None => false
  end.

(** [x if x else None] *)
Definition if_truthy (o : option str) : option str :=
  if truthy o then o else None.

(** [a or b] *)
Definition py_or (a b : option str) : option str :=
  if truthy a then a else b.

(** [o in d], for a key that may be [None]: the key when it is one of [d]. *)
Definition key_in {V} (o : option str) (d : gmap str V) : option str :=
  match o with
  | Some k => if bool_decide (is_Some (d !! k)) then Some k else None
  | None => None
  end.

(** [o and o in d] *)
Definition open_in {V} (o : option str) (d : gmap str V) : option str :=
  if truthy o then key_in o d else None.

(** [if <guard>: d[k].<field> = <value>], for an object held in the
    dictionary itself; [guard] is the outcome of the test, [f] the
    assignment. *)
Definition update_at {V : Type} (guard : option str) (d : gmap str V) (f : V → V)
    : result (gmap str V) :=
  match guard with
  | Some k => b ←! getitem d k; Ok (<[k := f b]> d)
  | None => Ok d
  end.

(** The same for an object of a store, reached through its registry. *)
Definition update_obj_at {A : Type} (guard : option str) (reg : gmap str ref)
    (objs : list A) (f : A → A) : result (list A) :=
  match guard with
  | Some k => r ←! getitem reg k; Ok (alter f r objs)
  | None => Ok objs
  end.

(** [x is not None] for a match object *)
Definition is_Some_b {A} (o : option A) : bool :=
  match o with Some _ => true | None => false end.

(** [s[1:-1]] *)
Definition inner (s : str) : str := removelast (tail s).

(** The loop that recognises a leading modifier:
    [for mod in mods: if stmt.upper().startswith(mod): ...; break]. *)
Fixpoint strip_modifier (mods : list string) (stmt : str)
    : option str * str :=
  match mods with
  | [] => (None, stmt)
  | md :: rest_mods =>
      if startswith (upper stmt) (txt md)
      then (Some (inner (txt md)), strip (drop (length (txt md)) stmt))
      else strip_modifier rest_mods stmt
  end.

Definition all_modifiers : list string :=
  ["(EXTDEF)"; "(EXTREF)"; "(LOCREF)"; "(TRANSREF)"]%string.

(** [[p.strip().upper() for p in s.split(',') if p.strip()]] *)
Definition param_list (s : str) : list str :=
  map (fun p => upper (strip p))
      (filter (fun p => nonempty (strip p) = true) (split_c ","%char s)).

(** [int(x)] for a group that may be [None]. *)
Definition int_group (o : option str) : result N :=
  match o with
  | Some s => py_int s
  | None => Raise TypeError
  end.

(** [int(x) if x else None] *)
Definition int_if (o : option str) : result (option N) :=
  if truthy o then n ←! int_group o; Ok (Some n) else Ok None.

(** *** The patterns

    Each pattern of the source is quoted above its translation, laid out
    with blanks between its parts as under [re.VERBOSE]. *)

(** [ ( [A-Z] [A-Z0-9_]* ) \s+ SYS-DD ], [re.IGNORECASE] *)
Definition re_sys_dd : re := seqs [Grp 1 ident; ws1; ilit "SYS-DD"].

(** [ ( [A-Z] [A-Z0-9_]* ) \s+ SYS-PROC ], [re.IGNORECASE] *)
Definition re_sys_proc : re := seqs [Grp 1 ident; ws1; ilit "SYS-PROC"].

(** [ VRBL \s* \( ( [^)]+ ) \) \s+ ( .+ ) ], [re.IGNORECASE] *)
Definition re_vrbl_multi : re :=
  seqs [ilit "VRBL"; ws0; chr "("; Grp 1 (plus true (CNoneOf ")"));
        chr ")"; ws1; Grp 2 (plus true CDot)].

(** [ VRBL \s+ ( [A-Z] [A-Z0-9_]* ) \s+ ( .+ ) ], [re.IGNORECASE] *)
Definition re_vrbl_single : re :=
  seqs [ilit "VRBL"; ws1; Grp 1 ident; ws1; Grp 2 (plus true CDot)].

(** [ I \s+ ( \d+ ) \s+ ( S | U ) ] *)
Definition re_int : re :=
  seqs [lit "I"; ws1; Grp 1 digits1; ws1; Grp 2 (Alt (lit "S") (lit "U"))].

(** [ A \s+ ( \d+ ) \s+ ( S | U ) \s+ ( \d+ ) ] *)
Definition re_fixed : re :=
  seqs [lit "A"; ws1; Grp 1 digits1; ws1; Grp 2 (Alt (lit "S") (lit "U"));
        ws1; Grp 3 digits1].

(** [ F ( \s* \( [TRSD] \) )? ] *)
Definition re_float : re :=
  seqs [lit "F";
        Opt (Grp 1 (seqs [ws0; chr "("; Chr (COneOf "TRSD"); chr ")"]))].

(** [ [HC] \s* ( \d+ ) ] *)
Definition re_char : re := seqs [Chr (COneOf "HC"); ws0; Grp 1 digits1].

(** [STATUS_VALUE_PATTERN]: [ ' ( [A-Z] [A-Z0-9]* ) ' ], [re.IGNORECASE] *)
Definition STATUS_VALUE_PATTERN : re :=
  seqs [chr "'"; Grp 1 alnum_word; chr "'"].

(** [ \b P \s+ ( .+? ) (?: \s | $ ) ], [re.IGNORECASE] *)
Definition re_preset : re :=
  seqs [WordB; ilit "P"; ws1; Grp 1 (plus false CDot);
        Alt (Chr CSpace) EndS].

(** [ TABLE \s+ ( [A-Z] [A-Z0-9_]* ) \s+ ( [VH] ) \s*
      ( NONE | MEDIUM | DENSE )? \s* (?: \( ( [^)]+ ) \) )? \s*
      (?: INDIRECT \s+ )? ( \d+ | [A-Z] [A-Z0-9_]* )? ], [re.IGNORECASE] *)
Definition re_table : re :=
  seqs [ilit "TABLE"; ws1; Grp 1 ident; ws1; Grp 2 (Chr (CIOneOf "VH")); ws0;
        Opt (Grp 3 (Alt (ilit "NONE") (Alt (ilit "MEDIUM") (ilit "DENSE"))));
        ws0;
        Opt (seqs [chr "("; Grp 4 (plus true (CNoneOf ")")); chr ")"]);
        ws0;
        Opt (seqs [ilit "INDIRECT"; ws1]);
        Opt (Grp 5 (Alt digits1 ident))].

(** [ \b MJ \s+ ( [A-Z] [A-Z0-9]* ) ], [re.IGNORECASE] *)
Definition re_mj : re :=
  seqs [WordB; ilit "MJ"; ws1; Grp 1 alnum_word].

(** [ FIELD \s+ ( [A-Z] [A-Z0-9_]* ) \s+ ( [IAFBHC] ) \s* ( \d+ )? \s*
      ( S | U )? \s* ( \d+ )? \s* (?: ( \d+ ) \s+ ( \d+ ) )? \s*
      (?: P \s+ ( .+ ) )? ], [re.IGNORECASE] *)
Definition re_field : re :=
  seqs [ilit "FIELD"; ws1; Grp 1 ident; ws1; Grp 2 (Chr (CIOneOf "IAFBHC"));
        ws0; Opt (Grp 3 digits1);
        ws0; Opt (Grp 4 (Alt (ilit "S") (ilit "U")));
        ws0; Opt (Grp 5 digits1);
        ws0; Opt (seqs [Grp 6 digits1; ws1; Grp 7 digits1]);
        ws0; Opt (seqs [ilit "P"; ws1; Grp 8 (plus true CDot)])].

(** [ TYPE \s+ ( [A-Z] [A-Z0-9_]* ) \s+ ( .+ ) ], [re.IGNORECASE] *)
Definition re_type_status : re :=
  seqs [ilit "TYPE"; ws1; Grp 1 ident; ws1; Grp 2 (plus true CDot)].

(** [ TYPE \s+ ( [A-Z] [A-Z0-9_]* ) \s* ( NONE | MEDIUM | DENSE )? ],
    [re.IGNORECASE] *)
Definition re_type_struct : re :=
  seqs [ilit "TYPE"; ws1; Grp 1 ident; ws0;
        Opt (Grp 2 (Alt (ilit "NONE") (Alt (ilit "MEDIUM") (ilit "DENSE"))))].

(** [ PROCEDURE \s+ ( [A-Z] [A-Z0-9_]* ) \s* (?: INPUT \s+ ( .*? ) )?
      (?: \s+ OUTPUT \s+ ( .*? ) )? (?: \s+ EXIT \s+ ( .* ) )? ],
    [re.IGNORECASE | re.DOTALL] *)
Definition re_proc_input : re :=
  seqs [ilit "INPUT"; ws1; Grp 2 (Star false CAny)].

Definition re_proc_output : re :=
  seqs [ws1; ilit "OUTPUT"; ws1; Grp 3 (Star false CAny)].

Definition re_proc_exit : re :=
  seqs [ws1; ilit "EXIT"; ws1; Grp 4 (Star true CAny)].

Definition re_procedure : re :=
  seqs [ilit "PROCEDURE"; ws1; Grp 1 ident; ws0;
        Opt re_proc_input; Opt re_proc_output; Opt re_proc_exit].

(** [ EXEC-PROC \s+ ( [A-Z] [A-Z0-9_]* ) \s* (?: INPUT \s+ ( [^$]* ) )? ],
    [re.IGNORECASE] *)
Definition re_exec_proc : re :=
  seqs [ilit "EXEC-PROC"; ws1; Grp 1 ident; ws0;
        Opt (seqs [ilit "INPUT"; ws1; Grp 2 (Star true (CNoneOf "$"))])].

(** [ FUNCTION \s+ ( [A-Z] [A-Z0-9_]* ) \s* \( ( [^)]* ) \) \s* ( .+ )? ],
    [re.IGNORECASE] *)
Definition re_function : re :=
  seqs [ilit "FUNCTION"; ws1; Grp 1 ident; ws0; chr "(";
        Grp 2 (Star true (CNoneOf ")")); chr ")"; ws0;
        Opt (Grp 3 (plus true CDot))].

(** *** Lexical pre-processing *)

(** [_remove_comments]: the loop over [i], with the flag [in_comment]. *)
Fixpoint remove_comments_from (in_comment : bool) (line : str) : str :=
  match line with
  | [] => []
  | c :: t =>
      match t with
      | c2 :: t2 =>
          if eqc c "'"%char && eqc c2 "'"%char
          then remove_comments_from (negb in_comment) t2
          else if in_comment then remove_comments_from in_comment t
               else c :: remove_comments_from in_comment t
      | [] => if in_comment then [] else [c]
      end
  end.

Definition _remove_comments (line : str) : str :=
  remove_comments_from false line.

(** *** Block openers and closers *)

(** [_parse_sys_dd_start] *)
Definition _parse_sys_dd_start (self : CMS2SemanticParser) (statement : str)
    (line_num : nat) : result CMS2SemanticParser :=
  match re_match re_sys_dd statement with
  | Some mt =>
      g1 ←! deref (group mt 1);
      let name := upper g1 in
      let block := mkSysDD name ∅ ∅ ∅ line_num 0 in
      let m := model self in
      let m := set_sys_data_blocks (<[name := block]> (sys_data_blocks m)) m in
      Ok (set_sys_dd true (Some name)
            (set_model (set_current_scope name m) self))
  | None => Ok self
  end.

(** [_handle_end_sys_dd] *)
Definition _handle_end_sys_dd (self : CMS2SemanticParser) (statement : str)
    (line_num : nat) : result CMS2SemanticParser :=
  let m := model self in
  blocks ←! update_at (open_in (current_sys_dd self) (sys_data_blocks m))
              (sys_data_blocks m) (dd_set_line_end line_num);
  let m := set_sys_data_blocks blocks m in
  Ok (set_sys_dd false None
        (set_model (set_current_scope (txt "GLOBAL") m) self)).

(** [_parse_sys_proc_start] *)
Definition _parse_sys_proc_start (self : CMS2SemanticParser) (statement : str)
    (line_num : nat) : result CMS2SemanticParser :=
  let is_reentrant := contains (upper statement) (txt "SYS-PROC-REN") in
  match re_match re_sys_proc statement with
  | Some mt =>
      g1 ←! deref (group mt 1);
      let name := upper g1 in
      let block := mkSysProc name is_reentrant ∅ ∅ ∅ line_num 0 in
      let m := model self in
      let m := set_sys_proc_blocks (<[name := block]> (sys_proc_blocks m)) m in
      Ok (set_sys_proc true (Some name)
            (set_model (set_current_scope name m) self))
  | None => Ok self
  end.

(** [_handle_end_sys_proc] *)
Definition _handle_end_sys_proc (self : CMS2SemanticParser) (statement : str)
    (line_num : nat) : result CMS2SemanticParser :=
  let m := model self in
  blocks ←! update_at (open_in (current_sys_proc self) (sys_proc_blocks m))
              (sys_proc_blocks m) (sp_set_line_end line_num);
  let m := set_sys_proc_blocks blocks m in
  Ok (set_sys_proc false None
        (set_model (set_current_scope (txt "GLOBAL") m) self)).

(** *** VRBL *)

(** The type specification part of [_create_variable]: mode, bits,
    signedness, fractional bits, character length, enumerators, preset. *)
Record type_info : Type := mkTypeInfo {
  ti_var_type : CMS2Type;
  ti_bits : option N;
  ti_signed : bool;
  ti_frac_bits : option N;
  ti_char_length : option N;
  ti_status_values : list str;
  ti_preset_value : option str
}.

Definition parse_type_spec (type_spec : str) : result type_info :=
  let type_upper := strip (upper type_spec) in
  (* Integer: I bits S|U *)
  let int_match := re_match re_int type_upper in
  i ←! match int_match with
       | Some mt =>
           bits ←! int_group (group mt 1);
           Ok (INTEGER, Some bits, bool_decide (group mt 2 = Some (txt "S")))
       | None => Ok (UNKNOWN, None, true)
       end;
  (* Fixed-point: A bits S|U frac *)
  let fixed_match := re_match re_fixed type_upper in
  f ←! match fixed_match with
       | Some mt =>
           bits ←! int_group (group mt 1);
           frac ←! int_group (group mt 3);
           Ok (FIXED, Some bits, bool_decide (group mt 2 = Some (txt "S")),
               Some frac)
       | None => Ok (i, None)
       end;
  let '(var_type, bits, signed, frac_bits) := f in
  (* Floating-point: F or F(T|R|S|D) *)
  let float_match := re_match re_float type_upper in
  let var_type :=
    if is_Some_b float_match && negb (is_Some_b int_match)
       && negb (is_Some_b fixed_match)
    then FLOAT else var_type in
  (* Boolean: B *)
  let var_type :=
    if startswith type_upper (txt "B") && negb (startswith type_upper (txt "BY"))
    then BOOLEAN else var_type in
  (* Character: H length or C length *)
  c ←! match re_match re_char type_upper with
       | Some mt =>
           len ←! int_group (group mt 1);
           Ok (CHAR, Some len)
       | None => Ok (var_type, None)
       end;
  let '(var_type, char_length) := c in
  (* Status values *)
  let status_values :=
    if contains type_spec (txt "'")
    then findall1 STATUS_VALUE_PATTERN type_spec else [] in
  let var_type :=
    match status_values with [] => var_type | _ => STATUS end in
  (* Preset value *)
  let preset_value :=
    match re_search re_preset type_spec with
    | Some mt => group mt 1
    | None => None
    end in
  Ok (mkTypeInfo var_type bits signed frac_bits char_length status_values
                 preset_value).

(** [_create_variable] *)
Definition _create_variable (self : CMS2SemanticParser) (name type_spec : str)
    (modifier : option str) (line_num : nat) : result CMS2SemanticParser :=
  ti ←! parse_type_spec type_spec;
  let var :=
    mkVariable name (ti_var_type ti) (ti_bits ti) (ti_signed ti)
      (ti_frac_bits ti) (ti_char_length ti) (ti_status_values ti)
      (bool_decide (ti_preset_value ti ≠ None)) (ti_preset_value ti)
      modifier line_num 0 0
      (py_or (current_sys_dd self) (current_sys_proc self)) in
  let m := add_variable (model self) var in
  (* Add to current block if applicable *)
  blocks ←! update_at (open_in (current_sys_dd self) (sys_data_blocks m))
              (sys_data_blocks m) (dd_set_variable name var);
  let m := set_sys_data_blocks blocks m in
  procs ←! update_obj_at (open_in (current_procedure self) (procedures m))
             (procedures m) (proc_objs m) (p_set_local_var name var);
  let m := set_procedures (procedures m) procs m in
  Ok (set_model m self).

(** [for name in names: self._create_variable(name, ...)] *)
Fixpoint create_variables (self : CMS2SemanticParser) (names : list str)
    (type_spec : str) (modifier : option str) (line_num : nat)
    : result CMS2SemanticParser :=
  match names with
  | [] => Ok self
  | name :: names' =>
      self ←! _create_variable self name type_spec modifier line_num;
      create_variables self names' type_spec modifier line_num
  end.

(** [_parse_vrbl_declaration] *)
Definition _parse_vrbl_declaration (self : CMS2SemanticParser)
    (statement : str) (line_num : nat) : result CMS2SemanticParser :=
  let stmt := strip statement in
  let '(modifier, stmt) := strip_modifier all_modifiers stmt in
  match re_match re_vrbl_multi stmt with
  | Some mt =>
      g1 ←! deref (group mt 1);
      let names := map strip (split_c ","%char g1) in
      g2 ←! deref (group mt 2);
      let type_spec := strip g2 in
      create_variables self names type_spec modifier line_num
  | None =>
      match re_match re_vrbl_single stmt with
      | Some mt =>
          g1 ←! deref (group mt 1);
          let name := upper g1 in
          g2 ←! deref (group mt 2);
          let type_spec := strip g2 in
          _create_variable self name type_spec modifier line_num
      | None => Ok self
      end
  end.

(** *** TABLE and FIELD *)

(** [g.upper() if g else d] *)
Definition upper_or (o : option str) (d : string) : str :=
  match if_truthy o with
  | Some s => upper s
  | None => txt d
  end.

(** [_parse_table_declaration] *)
Definition _parse_table_declaration (self : CMS2SemanticParser)
    (statement : str) (line_num : nat) : result CMS2SemanticParser :=
  let stmt := strip statement in
  match re_match re_table stmt with
  | Some mt =>
      g1 ←! deref (group mt 1);
      let name := upper g1 in
      let table_type := upper_or (group mt 2) "V" in
      let packing := upper_or (group mt 3) "NONE" in
      let type_spec := if_truthy (group mt 4) in
      let count_str := if_truthy (group mt 5) in
      item_count ←!
        match count_str with
        | Some s => if isdigit s then n ←! py_int s; Ok (Some n) else Ok None
        | None => Ok None
        end;
      let is_indirect := contains (upper stmt) (txt "INDIRECT") in
      (* Check for major index (MJ name) *)
      major_index ←!
        match re_search re_mj stmt with
        | Some mj => g ←! deref (group mj 1); Ok (Some (upper g))
        | None => Ok None
        end;
      let table :=
        mkTable name table_type packing item_count (is_Some_b type_spec)
                type_spec ∅ is_indirect major_index None line_num 0 in
      let r := length (table_objs (model self)) in
      let m := add_table (model self) table in
      blocks ←! update_at (open_in (current_sys_dd self) (sys_data_blocks m))
                  (sys_data_blocks m) (dd_set_table name r);
      let m := set_sys_data_blocks blocks m in
      Ok (set_table true (Some name) (set_model m self))
  | None => Ok self
  end.

(** [_handle_end_table] *)
Definition _handle_end_table (self : CMS2SemanticParser) (statement : str)
    (line_num : nat) : result CMS2SemanticParser :=
  let m := model self in
  objs ←! update_obj_at (open_in (current_table self) (tables m))
            (tables m) (table_objs m) (t_set_line_end line_num);
  let m := set_tables (tables m) objs m in
  Ok (set_table false None (set_model m self)).

(** [type_map.get(type_char, CMS2Type.UNKNOWN)] *)
Definition type_map (type_char : str) : CMS2Type :=
  if bool_decide (type_char = txt "I") then INTEGER
  else if bool_decide (type_char = txt "A") then FIXED
  else if bool_decide (type_char = txt "F") then FLOAT
  else if bool_decide (type_char = txt "B") then BOOLEAN
  else if bool_decide (type_char = txt "H") then CHAR
  else if bool_decide (type_char = txt "C") then CHAR
  else UNKNOWN.

(** [_parse_field_declaration] *)
Definition _parse_field_declaration (self : CMS2SemanticParser)
    (statement : str) (line_num : nat) : result CMS2SemanticParser :=
  let stmt := strip statement in
  match re_match re_field stmt with
  | Some mt =>
      if truthy (current_table self) then
        g1 ←! deref (group mt 1);
        let name := upper g1 in
        g2 ←! deref (group mt 2);
        let type_char := upper g2 in
        bits ←! int_if (group mt 3);
        let signed :=
          if truthy (group mt 4)
          then bool_decide (group mt 4 ≠ Some (txt "U")) else true in
        frac_bits ←! int_if (group mt 5);
        start_word ←! int_if (group mt 6);
        start_bit ←! int_if (group mt 7);
        let preset := group mt 8 in
        let field_type := type_map type_char in
        let field :=
          mkField name field_type bits signed frac_bits
            (if bool_decide (type_char = txt "H")
                || bool_decide (type_char = txt "C") then bits else None)
            start_word start_bit
            (match if_truthy preset with Some p => [p] | None => [] end)
            line_num (current_table self) in
        let m := model self in
        objs ←! update_obj_at (key_in (current_table self) (tables m))
                  (tables m) (table_objs m) (t_set_field name field);
        let m := set_tables (tables m) objs m in
        Ok (set_model m self)
      else Ok self
  | None => Ok self
  end.

(** *** TYPE *)

(** [_parse_type_declaration] *)
Definition _parse_type_declaration (self : CMS2SemanticParser)
    (statement : str) (line_num : nat) : result CMS2SemanticParser :=
  let stmt := strip statement in
  if contains stmt (txt "'") then
    (* Status type *)
    match re_match re_type_status stmt with
    | Some mt =>
        g1 ←! deref (group mt 1);
        let name := upper g1 in
        rest_ ←! deref (group mt 2);
        let status_values := findall1 STATUS_VALUE_PATTERN rest_ in
        let typedef :=
          mkType name None (txt "NONE") status_values ∅ line_num 0 in
        let r := length (type_objs (model self)) in
        let m := add_type (model self) typedef in
        blocks ←! update_at
                    (open_in (current_sys_dd self) (sys_data_blocks m))
                    (sys_data_blocks m) (dd_set_type name r);
        let m := set_sys_data_blocks blocks m in
        Ok (set_model m self)
    | None => Ok self
    end
  else
    (* Structured type *)
    match re_match re_type_struct stmt with
    | Some mt =>
        g1 ←! deref (group mt 1);
        let name := upper g1 in
        let packing := upper_or (group mt 2) "NONE" in
        let typedef := mkType name None packing [] ∅ line_num 0 in
        let m := add_type (model self) typedef in
        Ok (set_type true (Some name) (set_model m self))
    | None => Ok self
    end.

(** [_handle_end_type] *)
Definition _handle_end_type (self : CMS2SemanticParser) (statement : str)
    (line_num : nat) : result CMS2SemanticParser :=
  let m := model self in
  objs ←! update_obj_at (open_in (current_type self) (types m))
            (types m) (type_objs m) (ty_set_line_end line_num);
  let m := set_types (types m) objs m in
  Ok (set_type false None (set_model m self)).

(** *** PROCEDURE, EXEC-PROC and FUNCTION *)

(** [g or ""] *)
Definition or_empty (o : option str) : str :=
  match if_truthy o with Some s => s | None => [] end.

(** [_parse_procedure_declaration] *)
Definition _parse_procedure_declaration (self : CMS2SemanticParser)
    (statement : str) (line_num : nat) : result CMS2SemanticParser :=
  let stmt := strip statement in
  let '(modifier, stmt) := strip_modifier all_modifiers stmt in
  match re_match re_procedure stmt with
  | Some mt =>
      g1 ←! deref (group mt 1);
      let name := upper g1 in
      let input_str := or_empty (group mt 2) in
      let output_str := or_empty (group mt 3) in
      let exit_str := or_empty (group mt 4) in
      let input_params := param_list input_str in
      let output_params := param_list output_str in
      let exit_params := param_list exit_str in
      let proc :=
        mkProcedure name false input_params output_params exit_params
                    modifier ∅ line_num 0 0 in
      let r := length (proc_objs (model self)) in
      let m := add_procedure (model self) proc in
      blocks ←! update_at
                  (open_in (current_sys_proc self) (sys_proc_blocks m))
                  (sys_proc_blocks m) (sp_set_procedure name r);
      let m := set_sys_proc_blocks blocks m in
      Ok (set_procedure true (Some name) (set_model m self))
  | None => Ok self
  end.

(** [_parse_exec_proc_declaration] *)
Definition _parse_exec_proc_declaration (self : CMS2SemanticParser)
    (statement : str) (line_num : nat) : result CMS2SemanticParser :=
  let stmt := strip statement in
  let '(modifier, stmt) :=
    strip_modifier ["(EXTDEF)"; "(EXTREF)"]%string stmt in
  match re_match re_exec_proc stmt with
  | Some mt =>
      g1 ←! deref (group mt 1);
      let name := upper g1 in
      let input_str := or_empty (group mt 2) in
      let input_params := param_list input_str in
      let proc :=
        mkProcedure name true input_params [] [] modifier ∅ line_num 0 0 in
      let m := add_procedure (model self) proc in
      Ok (set_procedure true (Some name) (set_model m self))
  | None => Ok self
  end.

(** [_handle_end_proc] *)
Definition _handle_end_proc (self : CMS2SemanticParser) (statement : str)
    (line_num : nat) : result CMS2SemanticParser :=
  let m := model self in
  objs ←! update_obj_at (open_in (current_procedure self) (procedures m))
            (procedures m) (proc_objs m) (p_set_line_end line_num);
  let m := set_procedures (procedures m) objs m in
  Ok (set_procedure false None (set_model m self)).

(** [_parse_function_declaration] *)
Definition _parse_function_declaration (self : CMS2SemanticParser)
    (statement : str) (line_num : nat) : result CMS2SemanticParser :=
  let stmt := strip statement in
  let '(modifier, stmt) := strip_modifier all_modifiers stmt in
  match re_match re_function stmt with
  | Some mt =>
      g1 ←! deref (group mt 1);
      let name := upper g1 in
      let params_str := or_empty (group mt 2) in
      let return_type := strip <$> if_truthy (group mt 3) in
      let input_params := param_list params_str in
      let func :=
        mkFunction name input_params return_type modifier ∅ line_num 0 in
      let m := add_function (model self) func in
      Ok (set_function true (Some name) (set_model m self))
  | None => Ok self
  end.

(** [_handle_end_function] *)
Definition _handle_end_function (self : CMS2SemanticParser) (statement : str)
    (line_num : nat) : result CMS2SemanticParser :=
  let m := model self in
  funcs ←! update_at (open_in (current_function self) (functions m))
             (functions m) (fn_set_line_end line_num);
  let m := set_functions funcs m in
  Ok (set_function false None (set_model m self)).

(** [_parse_cmode] *)
Definition _parse_cmode (self : CMS2SemanticParser) (statement : str)
    (line_num : nat) : result CMS2SemanticParser :=
  let m := model self in
  if contains (upper statement) (txt "O")
  then Ok (set_model (set_constant_mode (txt "O") m) self)
  else Ok (set_model (set_constant_mode (txt "D") m) self).

(** *** Statement classification *)

(** [_parse_statement]: the first matching test decides. *)
Definition _parse_statement (self : CMS2SemanticParser) (statement : str)
    (line_num : nat) : result CMS2SemanticParser :=
  let up := strip (upper statement) in
  let has (kw : string) := contains up (txt kw) in
  let starts (kw : string) := startswith up (txt kw) in
  (* System structure *)
  if has "SYS-DD" && negb (has "END-SYS-DD") then
    _parse_sys_dd_start self statement line_num
  else if has "END-SYS-DD" then
    _handle_end_sys_dd self statement line_num
  else if has "SYS-PROC" && negb (has "END-SYS-PROC") then
    _parse_sys_proc_start self statement line_num
  else if has "END-SYS-PROC" then
    _handle_end_sys_proc self statement line_num
  else if starts "LOC-DD" || has " LOC-DD" then
    Ok (set_loc_dd true self)
  else if has "END-LOC-DD" then
    Ok (set_loc_dd false self)
  (* Declarations *)
  else if starts "VRBL" || has " VRBL " || starts "(EXTDEF) VRBL"
          || starts "(EXTREF) VRBL" || starts "(LOCREF) VRBL"
          || starts "(TRANSREF) VRBL" then
    _parse_vrbl_declaration self statement line_num
  else if starts "TABLE" || has " TABLE " then
    _parse_table_declaration self statement line_num
  else if has "END-TABLE" then
    _handle_end_table self statement line_num
  else if starts "FIELD" then
    _parse_field_declaration self statement line_num
  else if starts "TYPE" && negb (has "END-TYPE") then
    _parse_type_declaration self statement line_num
  else if has "END-TYPE" then
    _handle_end_type self statement line_num
  else if starts "PROCEDURE" || has " PROCEDURE "
          || starts "(EXTDEF) PROCEDURE" || starts "(EXTREF) PROCEDURE" then
    _parse_procedure_declaration self statement line_num
  else if starts "EXEC-PROC" || has " EXEC-PROC " then
    _parse_exec_proc_declaration self statement line_num
  else if has "END-PROC" then
    _handle_end_proc self statement line_num
  else if starts "FUNCTION" || has " FUNCTION " then
    _parse_function_declaration self statement line_num
  else if has "END-FUNCTION" then
    _handle_end_function self statement line_num
  else if starts "CMODE" then
    _parse_cmode self statement line_num
  else Ok self.

(** *** The main loop *)

(** The inner loop of [parse]: [while '$' in statement_buffer: ...].  Every
    round removes a '$' from the buffer; [fuel] bounds the rounds. *)
Fixpoint statement_loop (fuel : nat) (self : CMS2SemanticParser)
    (statement_buffer : str) (i : nat)
    : result (CMS2SemanticParser * str) :=
  match find_c "$"%char statement_buffer with
  | None => Ok (self, statement_buffer)
  | Some dollar_pos =>
      match fuel with
      | 0 => OutOfFuel
      | S fuel' =>
          let statement := strip (take dollar_pos statement_buffer) in
          let statement_buffer :=
            strip (drop (dollar_pos + 1) statement_buffer) in
          self ←! (if nonempty statement
                   then _parse_statement self statement i
                   else Ok self);
          statement_loop fuel' self statement_buffer i
      end
  end.

(** The body of [for i, line in enumerate(self.lines)]. *)
Definition parse_line (self : CMS2SemanticParser) (statement_buffer : str)
    (i : nat) (line : str) : result (CMS2SemanticParser * str) :=
  let self := set_current_line_num i self in
  let line := _remove_comments line in
  let stripped := strip line in
  if nonempty stripped then
    let statement_buffer := statement_buffer ++ txt " " ++ stripped in
    statement_loop (length statement_buffer) self statement_buffer i
  else Ok (self, statement_buffer).

Fixpoint parse_lines (self : CMS2SemanticParser) (statement_buffer : str)
    (i : nat) (ls : list str) : result (CMS2SemanticParser * str) :=
  match ls with
  | [] => Ok (self, statement_buffer)
  | line :: ls' =>
      x ←! parse_line self statement_buffer i line;
      parse_lines (fst x) (snd x) (S i) ls'
  end.

(** [parse]: the parser after the call; its [model] is the value returned.
    Model, line buffer and state are reset first, so the outcome does not
    depend on the parser's previous state. *)
Definition parse_self (self : CMS2SemanticParser) (cms2_code : str)
    : result CMS2SemanticParser :=
  let ls := split_c "010"%char cms2_code in
  let self := mkParser new_model ls 0 false None false None false None
                       false None false None false None false in
  x ←! parse_lines self [] 0 ls;
  Ok (fst x).

(** [CMS2SemanticParser().parse(cms2_code)] *)
Definition parse (cms2_code : str) : result CMS2SemanticModel :=
  self ←! parse_self new_parser cms2_code;
  Ok (model self).

(** ** The query layer *)

Local Open Scope Z_scope.

(** [RESERVED_WORDS] and [PREDEFINED_FUNCTIONS] *)
Definition RESERVED_WORDS : list string :=
  ["ABS"; "ALG"; "AND"; "BASE"; "BEGIN"; "BIT"; "BY"; "CAT"; "CHAR";
   "CHECKID"; "CIRC"; "CLOSE"; "CMODE"; "COMMENT"; "COMP"; "CORAD";
   "CORRECT"; "CSWITCH"; "DATA"; "DATAPOOL"; "DEBUG"; "DECODE";
   "DEFID"; "DENSE"; "DEP"; "DIRECT"; "DISPLAY"; "ELSE"; "ELSIF";
   "ENCODE"; "END"; "ENDFILE"; "EQ"; "EQUALS"; "EVENP"; "EXCHANGE";
   "EXEC"; "EXIT"; "FIELD"; "FILE"; "FIND"; "FOR"; "FORMAT"; "FROM";
   "FUNCTION"; "GOTO"; "GT"; "GTEQ"; "HEAD"; "IF"; "INDIRECT";
   "INPUT"; "INTO"; "INVALID"; "LIBS"; "LOG"; "LT"; "LTEQ"; "MEANS";
   "MEDIUM"; "MODE"; "NITEMS"; "NONE"; "NOT"; "OCM"; "OODP"; "OPEN";
   "OPTIONS"; "OR"; "OUTPUT"; "OVERFLOW"; "OVERLAY"; "PRINT"; "PTRACE";
   "PUNCH"; "RANGE"; "READ"; "REGS"; "RESUME"; "RETURN"; "SAVING";
   "SET"; "SHIFT"; "SNAP"; "SPILL"; "STOP"; "SWAP"; "SWITCH"; "SYSTEM";
   "TABLE"; "THEN"; "THRU"; "TO"; "TRACE"; "TYPE"; "UNTIL"; "USING";
   "VALID"; "VARY"; "VARYING"; "VRBL"; "WHILE"; "WITH"; "WITHIN"; "XOR";
   "SYS-DD"; "SYS-PROC"; "SYS-PROC-REN"; "END-SYS-DD"; "END-SYS-PROC";
   "LOC-DD"; "END-LOC-DD"; "AUTO-DD"; "END-AUTO-DD";
   "PROCEDURE"; "END-PROC"; "EXEC-PROC"; "END-FUNCTION";
   "END-TABLE"; "END-TYPE"; "END-SWITCH";
   "EXTDEF"; "EXTREF"; "LOCREF"; "TRANSREF";
   "CONVERTIN"; "CONVERTOUT"; "STRINGFORM"; "INPUTLIST"; "OUTPUTLIST";
   "P-SWITCH"; "END-P-SW"; "L-SWITCH"; "SYS-INDEX"; "LOC-INDEX";
   "LOAD-VRBL"; "NOTFOUND"; "FOUND"; "CASE"; "LOOP"; "KEY1"; "KEY2";
   "KEY3"]%string.

Definition PREDEFINED_FUNCTIONS : list string :=
  ["ACDS2"; "BAMS"; "FIRST"; "DRF"; "SCALF"; "ACDS"; "CNT"; "ICDS";
   "POS"; "SIN"; "ALDG"; "COMPF"; "IEXP"; "PRED"; "SUCC"; "ANDF";
   "CONF"; "ISIN"; "RAD"; "TDEF"; "ASIN2"; "COS"; "LAST"; "ROTATEHP";
   "VECTORHP"; "ASIN"; "EXP"; "LENGTH"; "REM"; "VECTORP"; "ATAN2";
   "FIL"; "LN"; "ROTATEP"; "XORF"; "ATAN"; "ICOS"; "ALOG"; "ACOS";
   "ACOS2"]%string.

(** [word in words] *)
Definition word_in (word : str) (words : list string) : bool :=
  existsb (fun w => bool_decide (txt w = word)) words.

(** [ \b ( [A-Z] [A-Z0-9_]* ) \b ], [re.IGNORECASE]: the pattern of
    [_get_word_at_position] *)
Definition re_word : re := seqs [WordB; Grp 1 ident; WordB].

(** [ \b ( [A-Z] [A-Z0-9]* ) \b ], [re.IGNORECASE]: the pattern of
    [get_hover_info] *)
Definition re_hover_word : re :=
  seqs [WordB; Grp 1 alnum_word; WordB].

(** [match.start() <= character <= match.end()] *)
Definition spans (character : Z) (mt : pymatch) : bool :=
  (Z.of_nat (m_start mt) <=? character) && (character <=? Z.of_nat (m_end mt)).

(** [for match in re.finditer(r, line): if <spans>: ...; break] *)
Definition match_at_column (r : re) (line : str) (character : Z)
    : option pymatch :=
  List.find (spans character) (finditer r line).

(** [CMS2LanguageServer._get_word_at_position] *)
Definition _get_word_at_position (line : str) (character : Z)
    : result (option str) :=
  match match_at_column re_word line character with
  | Some mt => g ←! deref (group mt 1); Ok (Some (upper g))
  | None => Ok None
  end.

(** [0 <= line < len(lines)] and [lines[line]] *)
Definition line_at (ls : list str) (line : Z) : option str :=
  if (0 <=? line) && (line <? Z.of_nat (length ls))
  then ls !! Z.to_nat line else None.

(** The first part of [get_hover_info]: the word under the cursor. *)
Definition hover_word (self : CMS2SemanticParser) (line column : Z)
    : result (option str) :=
  match line_at (lines self) line with
  | None => Ok None
  | Some current_line =>
      match match_at_column re_hover_word current_line column with
      | Some mt => g ←! deref (group mt 1); Ok (Some (upper g))
      | None => Ok None
      end
  end.

(** The payload of [get_hover_info]: the kind of entity that answered and
    the entity, from which the dictionary of the source is filled. *)
Inductive hover_info : Type :=
| HoverVariable (var : VariableDefinition)
| HoverTable (table : TableDefinition)
| HoverProcedure (proc : ProcedureDefinition)
| HoverFunction (func : FunctionDefinition)
| HoverType (typedef : TypeDefinition)
| HoverKeyword (word : str)
| HoverPredefined (word : str).

(** [get_hover_info] *)
Definition get_hover_info (self : CMS2SemanticParser) (line column : Z)
    : result (option hover_info) :=
  w ←! hover_word self line column;
  match w with
  | None => Ok None
  | Some word =>
      let m := model self in
      match get_variable m word with
      | Some var => Ok (Some (HoverVariable var))
      | None =>
      match get_table m word with
      | Some table => Ok (Some (HoverTable table))
      | None =>
      match get_procedure m word with
      | Some proc => Ok (Some (HoverProcedure proc))
      | None =>
      match get_function m word with
      | Some func => Ok (Some (HoverFunction func))
      | None =>
      match get_type m word with
      | Some typedef => Ok (Some (HoverType typedef))
      | None =>
          if word_in word RESERVED_WORDS then Ok (Some (HoverKeyword word))
          else if word_in word PREDEFINED_FUNCTIONS
          then Ok (Some (HoverPredefined word))
          else Ok None
      end end end end end
  end.

(** [CMS2LanguageServer._find_definition] *)
Definition _find_definition (m : CMS2SemanticModel) (name : str)
    : option nat :=
  let name := upper name in
  match get_variable m name with
  | Some var => Some (v_line_number var)
  | None =>
  match get_table m name with
  | Some table => Some (t_line_start table)
  | None =>
  match get_procedure m name with
  | Some proc => Some (p_line_start proc)
  | None =>
  match get_function m name with
  | Some func => Some (fn_line_start func)
  | None =>
  match get_type m name with
  | Some typedef => Some (ty_line_start typedef)
  | None => None
  end end end end end.

(** [block.line_end or block.line_start], the end of a symbol's range in
    [_handle_document_symbols] *)
Definition range_end (line_start line_end : nat) : nat :=
  if (line_end =? 0)%nat then line_start else line_end.

Local Close Scope Z_scope.

(** ** The document store of the server ([CMS2LanguageServer]) *)

Record CMS2LanguageServer : Type := mkServer {
  documents : gmap str str;
  models : gmap str CMS2SemanticModel;
  parsers : gmap str CMS2SemanticParser;
  running : bool
}.

(** The parameters of a [textDocument/didClose] notification, as decoded:
    a key that is absent is [None]. *)
Record TextDocumentIdentifier : Type := mkTextDocument {
  uri : option str
}.

Record DidCloseParams : Type := mkDidClose {
  textDocument : option TextDocumentIdentifier
}.

(** [del d[k]] *)
Definition delitem `{Countable K} {V} (d : gmap K V) (k : K)
    : result (gmap K V) :=
  match d !! k with
  | Some _ => Ok (delete k d)
  | None => Raise KeyError
  end.

(** [if k in d: del d[k]] *)
Definition del_if_in `{Countable K} {V} (d : gmap K V) (k : K)
    : result (gmap K V) :=
  if bool_decide (is_Some (d !! k)) then delitem d k else Ok d.

(** [params.get('textDocument', {}).get('uri', '')] *)
Definition closed_uri (params : DidCloseParams) : str :=
  let doc := default (mkTextDocument None) (textDocument params) in
  default [] (uri doc).

(** [_handle_did_close] *)
Definition _handle_did_close (self : CMS2LanguageServer)
    (params : DidCloseParams) : result CMS2LanguageServer :=
  let u := closed_uri params in
  docs ←! del_if_in (documents self) u;
  mods ←! del_if_in (models self) u;
  pars ←! del_if_in (parsers self) u;
  Ok (mkServer docs mods pars (running self)).

(** ** Vocabulary of the properties *)

(** The parameters of a notification about the document [u]:
    [{'textDocument': {'uri': u}}]. *)
Definition did_close_params (u : str) : DidCloseParams :=
  mkDidClose (Some (mkTextDocument (Some u))).

(** *** What a pattern can match

    [matches r st st'] reads: starting in [st], the pattern [r] can consume
    text and record groups so as to arrive in [st'].  It forgets the order
    in which the matcher tries the alternatives. *)
Inductive matches : re → mstate → mstate → Prop :=
| M_Eps st :
    matches Eps st st
| M_Chr p c t st :
    rest st = c :: t → test p c = true →
    matches (Chr p) st (advance c t st)
| M_Seq r1 r2 st1 st2 st3 :
    matches r1 st1 st2 → matches r2 st2 st3 →
    matches (Seq r1 r2) st1 st3
| M_AltL r1 r2 st st' :
    matches r1 st st' → matches (Alt r1 r2) st st'
| M_AltR r1 r2 st st' :
    matches r2 st st' → matches (Alt r1 r2) st st'
| M_OptSome r st st' :
    matches r st st' → matches (Opt r) st st'
| M_OptNone r st :
    matches (Opt r) st st
| M_StarNil g p st :
    matches (Star g p) st st
| M_StarCons g p c t st st' :
    rest st = c :: t → test p c = true →
    matches (Star g p) (advance c t st) st' →
    matches (Star g p) st st'
| M_Grp n r st st' :
    matches r st st' → matches (Grp n r) st (set_cap n st st')
| M_WordB st :
    xorb (word_before st) (word_after st) = true → matches WordB st st
| M_EndS st :
    at_end st = true → matches EndS st st.

(** The groups that are set whenever the pattern matches. *)
Fixpoint sure (r : re) : list nat :=
  match r with
  | Seq r1 r2 => sure r1 ++ sure r2
  | Alt r1 r2 => List.filter (fun n => bool_decide (n ∈ sure r2)) (sure r1)
  | Grp n r1 => n :: sure r1
  | _ => []
  end.

(** The groups that the pattern can set. *)
Fixpoint wgroups (r : re) : list nat :=
  match r with
  | Seq r1 r2 | Alt r1 r2 => wgroups r1 ++ wgroups r2
  | Opt r1 => wgroups r1
  | Grp n r1 => n :: wgroups r1
  | _ => []
  end.

(** The text that remains does not begin with a character of the class. *)
Definition nohead (p : cls) (st : mstate) : Prop :=
  match rest st with
  | c :: _ => test p c = false
  | [] => True
  end.

(** [\d+] *)
Definition is_digits1 (r : re) : bool :=
  match r with
  | Seq (Chr CDigit) (Star true CDigit) => true
  | _ => false
  end.

(** The groups whose text is not known to be a string of digits. *)
Fixpoint loose (r : re) : list nat :=
  match r with
  | Seq r1 r2 | Alt r1 r2 => loose r1 ++ loose r2
  | Opt r1 => loose r1
  | Grp n r1 => if is_digits1 r1 then [] else n :: loose r1
  | _ => []
  end.

(** *** The statements of a document

    What the assembler of [parse] hands to [_parse_statement], with the
    line number that goes with it. *)
Fixpoint loop_statements (fuel : nat) (statement_buffer : str)
    : list str * str :=
  match find_c "$"%char statement_buffer with
  | None => ([], statement_buffer)
  | Some dollar_pos =>
      match fuel with
      | 0 => ([], statement_buffer)
      | S fuel' =>
          let statement := strip (take dollar_pos statement_buffer) in
          let statement_buffer :=
            strip (drop (dollar_pos + 1) statement_buffer) in
          let x := loop_statements fuel' statement_buffer in
          (if nonempty statement then statement :: fst x else fst x, snd x)
      end
  end.

Fixpoint statements_from (statement_buffer : str) (i : nat) (ls : list str)
    : list (str * nat) :=
  match ls with
  | [] => []
  | line :: ls' =>
      let stripped := strip (_remove_comments line) in
      if nonempty stripped then
        let b := statement_buffer ++ txt " " ++ stripped in
        let x := loop_statements (length b) b in
        map (fun s => (s, i)) (fst x) ++ statements_from (snd x) (S i) ls'
      else statements_from statement_buffer (S i) ls'
  end.

Definition statements (cms2_code : str) : list (str * nat) :=
  statements_from [] 0 (split_c "010"%char cms2_code).

(** The close keywords, and the statements in which the classifier can see
    one. *)
Definition close_keywords : list string :=
  ["END-SYS-DD"; "END-SYS-PROC"; "END-TABLE"; "END-TYPE"; "END-PROC";
   "END-FUNCTION"]%string.

Definition mentions_close (statement : str) : bool :=
  existsb (fun kw => contains (strip (upper statement)) (txt kw))
          close_keywords.

(** *** The branch that a statement takes

    [classify] is the chain of tests of [_parse_statement], and [dispatch]
    the call that each branch makes. *)
Inductive statement_kind : Type :=
| K_sys_dd | K_end_sys_dd | K_sys_proc | K_end_sys_proc
| K_loc_dd | K_end_loc_dd
| K_vrbl | K_table | K_end_table | K_field | K_type | K_end_type
| K_procedure | K_exec_proc | K_end_proc | K_function | K_end_function
| K_cmode | K_other.

Definition classify (statement : str) : statement_kind :=
  let up := strip (upper statement) in
  let has (kw : string) := contains up (txt kw) in
  let starts (kw : string) := startswith up (txt kw) in
  if has "SYS-DD" && negb (has "END-SYS-DD") then K_sys_dd
  else if has "END-SYS-DD" then K_end_sys_dd
  else if has "SYS-PROC" && negb (has "END-SYS-PROC") then K_sys_proc
  else if has "END-SYS-PROC" then K_end_sys_proc
  else if starts "LOC-DD" || has " LOC-DD" then K_loc_dd
  else if has "END-LOC-DD" then K_end_loc_dd
  else if starts "VRBL" || has " VRBL " || starts "(EXTDEF) VRBL"
          || starts "(EXTREF) VRBL" || starts "(LOCREF) VRBL"
          || starts "(TRANSREF) VRBL" then K_vrbl
  else if starts "TABLE" || has " TABLE " then K_table
  else if has "END-TABLE" then K_end_table
  else if starts "FIELD" then K_field
  else if starts "TYPE" && negb (has "END-TYPE") then K_type
  else if has "END-TYPE" then K_end_type
  else if starts "PROCEDURE" || has " PROCEDURE "
          || starts "(EXTDEF) PROCEDURE" || starts "(EXTREF) PROCEDURE"
       then K_procedure
  else if starts "EXEC-PROC" || has " EXEC-PROC " then K_exec_proc
  else if has "END-PROC" then K_end_proc
  else if starts "FUNCTION" || has " FUNCTION " then K_function
  else if has "END-FUNCTION" then K_end_function
  else if starts "CMODE" then K_cmode
  else K_other.

Definition dispatch (k : statement_kind) (self : CMS2SemanticParser)
    (statement : str) (line_num : nat) : result CMS2SemanticParser :=
  match k with
  | K_sys_dd => _parse_sys_dd_start self statement line_num
  | K_end_sys_dd => _handle_end_sys_dd self statement line_num
  | K_sys_proc => _parse_sys_proc_start self statement line_num
  | K_end_sys_proc => _handle_end_sys_proc self statement line_num
  | K_loc_dd => Ok (set_loc_dd true self)
  | K_end_loc_dd => Ok (set_loc_dd false self)
  | K_vrbl => _parse_vrbl_declaration self statement line_num
  | K_table => _parse_table_declaration self statement line_num
  | K_end_table => _handle_end_table self statement line_num
  | K_field => _parse_field_declaration self statement line_num
  | K_type => _parse_type_declaration self statement line_num
  | K_end_type => _handle_end_type self statement line_num
  | K_procedure => _parse_procedure_declaration self statement line_num
  | K_exec_proc => _parse_exec_proc_declaration self statement line_num
  | K_end_proc => _handle_end_proc self statement line_num
  | K_function => _parse_function_declaration self statement line_num
  | K_end_function => _handle_end_function self statement line_num
  | K_cmode => _parse_cmode self statement line_num
  | K_other => Ok self
  end.

(** The close keyword of a branch. *)
Definition close_keyword (k : statement_kind) : option string :=
  match k with
  | K_end_sys_dd => Some "END-SYS-DD"
  | K_end_sys_proc => Some "END-SYS-PROC"
  | K_end_table => Some "END-TABLE"
  | K_end_type => Some "END-TYPE"
  | K_end_proc => Some "END-PROC"
  | K_end_function => Some "END-FUNCTION"
  | _ => None
  end%string.

(** The value [n] of a [line_end]: the default 0, or the line of a
    statement of [l] that takes the branch [k]. *)
Definition assigned_by (k : statement_kind) (l : list (str * nat)) (n : nat)
    : Prop :=
  n = 0 ∨ ∃ s, (s, n) ∈ l ∧ classify s = k.

(** Every [line_end] of the model is 0 or the line of a close statement of
    its own kind among [l]. *)
Definition line_ends_from (l : list (str * nat)) (m : CMS2SemanticModel)
    : Prop :=
  (∀ k b, sys_data_blocks m !! k = Some b →
          assigned_by K_end_sys_dd l (dd_line_end b)) ∧
  (∀ k b, sys_proc_blocks m !! k = Some b →
          assigned_by K_end_sys_proc l (sp_line_end b)) ∧
  (∀ k f, functions m !! k = Some f →
          assigned_by K_end_function l (fn_line_end f)) ∧
  Forall (fun t => assigned_by K_end_table l (t_line_end t)) (table_objs m) ∧
  Forall (fun t => assigned_by K_end_type l (ty_line_end t)) (type_objs m) ∧
  Forall (fun p => assigned_by K_end_proc l (p_line_end p)) (proc_objs m).

(** *** Words of a line *)

(** The pattern [ \b ( [A-Z] q* ) \b ] of the query layer, for a class
    [q]. *)
Definition word_re (q : cls) : re :=
  seqs [WordB; Grp 1 (Seq (Chr CLetter) (Star true q)); WordB].

(** A word of the class [q]: a letter, then characters of [q]. *)
Definition is_word_of (q : cls) (w : str) : bool :=
  match w with
  | c :: t => test CLetter c && forallb (test q) t
  | [] => false
  end.

(** A word can begin after [pre]: [pre] is empty, or its last character is
    not a word character. *)
Definition boundary_after (pre : str) : bool :=
  match last pre with
  | Some c => negb (is_word_c c)
  | None => true
  end.

(** The line ends with the word [w] of the class [q]. *)
Definition ends_with_word (q : cls) (line w : str) : Prop :=
  ∃ pre, line = pre ++ w ∧ boundary_after pre = true ∧ is_word_of q w = true.

(** The state of the matcher after the characters of [l]. *)
Fixpoint eat (l : str) (st : mstate) : mstate :=
  match l with
  | [] => st
  | c :: t => eat t (advance c t st)
  end.

(** The character before offset [k] of [l], [pv] being the one before
    [l]. *)
Definition prev_at (pv : option ascii) (l : str) (k : nat) : option ascii :=
  match last (take k l) with
  | Some c => Some c
  | None => pv
  end.

(** The boundary condition, for the text [pre] before the word when the
    character before [pre] is [pv]. *)
Definition clear_before (pv : option ascii) (pre : str) : Prop :=
  match last pre with
  | Some a => is_word_c a = false
  | None => match pv with Some a => is_word_c a = false | None => True end
  end.

(** *** Invariants of the model *)

(** Every key of a block's own index is a key of the top-level registry. *)
Definition dd_indexed (m : CMS2SemanticModel) (b : SystemDataBlock) : Prop :=
  dom (dd_variables b) ⊆ dom (variables m) ∧
  dom (dd_tables b) ⊆ dom (tables m) ∧
  dom (dd_types b) ⊆ dom (types m).

Definition sp_indexed (m : CMS2SemanticModel) (b : SystemProcBlock) : Prop :=
  dom (sp_procedures b) ⊆ dom (procedures m).

Definition blocks_indexed (m : CMS2SemanticModel) : Prop :=
  (∀ k b, sys_data_blocks m !! k = Some b → dd_indexed m b) ∧
  (∀ k b, sys_proc_blocks m !! k = Some b → sp_indexed m b).

(** The keys of a dictionary are uppercase. *)
Definition upper_keys {V : Type} (d : gmap str V) : Prop :=
  ∀ k, is_Some (d !! k) → upper k = k.

(** The keys of every registry but that of the variables are uppercase. *)
Definition registries_upper (m : CMS2SemanticModel) : Prop :=
  upper_keys (tables m) ∧ upper_keys (types m) ∧
  upper_keys (procedures m) ∧ upper_keys (functions m) ∧
  upper_keys (sys_data_blocks m) ∧ upper_keys (sys_proc_blocks m).

(** A procedure that is not an EXEC-PROC has no parameter recorded. *)
Definition no_parameters (p : ProcedureDefinition) : Prop :=
  p_is_exec p = false →
  p_input_params p = [] ∧ p_output_params p = [] ∧ p_exit_params p = [].

(** No block-like entity of the model has had its [line_end] assigned: all
    are at the default of the dataclasses. *)
Definition all_unclosed (m : CMS2SemanticModel) : Prop :=
  (∀ k b, sys_data_blocks m !! k = Some b → dd_line_end b = 0) ∧
  (∀ k b, sys_proc_blocks m !! k = Some b → sp_line_end b = 0) ∧
  (∀ k f, functions m !! k = Some f → fn_line_end f = 0) ∧
  Forall (fun t => t_line_end t = 0) (table_objs m) ∧
  Forall (fun t => ty_line_end t = 0) (type_objs m) ∧
  Forall (fun p => p_line_end p = 0) (proc_objs m).

(** *** Comments *)

(** Having read [pre], the comment scanner is outside any comment and at a
    character boundary, whatever text follows. *)
Definition outside_after (pre : str) : Prop :=
  ∀ post, _remove_comments (pre ++ post)
          = _remove_comments pre ++ _remove_comments post.

Definition no_apostrophe (s : str) : Prop :=
  Forall (fun c => c ≠ "'"%char) s.

(** The body of a comment: every apostrophe in it is followed by a
    character that is not one, so that no pair of apostrophes begins inside
    the body. *)
Fixpoint comment_body (s : str) : bool :=
  match s with
  | [] => true
  | c :: t =>
      (if eqc c "'"%char
       then match t with
            | c2 :: _ => negb (eqc c2 "'"%char)
            | [] => false
            end
       else true) && comment_body t
  end.

(** A comment: the delimiters around the body. *)
Definition comment (body : str) : str := txt "''" ++ body ++ txt "''".

(** *** The line buffer

    [parse] keeps the lines of the document in the parser; the statement
    handlers never read them.  [on_fst_lines] changes the buffer in the
    outcome of the main loop. *)
Definition on_fst_lines (ls : list str) (x : CMS2SemanticParser * str)
    : CMS2SemanticParser * str := (set_lines ls (fst x), snd x).

(** *** Scenarios of the specification *)

Definition scenario_5 : str :=
  txt "PROCEDURE UPDATE INPUT A, B OUTPUT C $" ++ ["010"%char]
  ++ txt "END-PROC UPDATE $".

Definition scenario_6 : str := txt "VRBL X I 16 S '' cost $ now '' $".

Definition scenario_3 : str :=
  txt "TABLE WP V MEDIUM 100 $" ++ ["010"%char]
  ++ txt "FIELD X I 16 S $" ++ ["010"%char]
  ++ txt "FIELD Y H 8 $" ++ ["010"%char]
  ++ txt "END-TABLE WP $".

(** A table opened on the second line and never closed. *)
Definition unclosed_table : str := ["010"%char] ++ txt "TABLE T V $".

(** A variable declared in a SYS-DD block and again after the block. *)
Definition redeclared_variable : str :=
  txt "A SYS-DD $ VRBL X B $ END-SYS-DD A $" ++ ["010"%char]
  ++ txt "VRBL X F $".

(** The model of a document that parses. *)
Definition model_of (cms2_code : str) : CMS2SemanticModel :=
  match parse cms2_code with
  | Ok m => m
  | _ => new_model
  end.

(** *** Groups of a match

    The groups outside [L] hold strings of digits. *)
Definition digits_outside (L : list nat) (cs : gmap nat str) : Prop :=
  ∀ n w, n ∉ L → cs !! n = Some w → isdigit w = true.

(** A computation that returns normally. *)
Definition is_Ok {A} (x : result A) : Prop := ∃ a, x = Ok a.

(** A computation that returns normally or, unless [strict], raises
    [ValueError]. *)
Definition ends {A} (strict : bool) (x : result A) : Prop :=
  is_Ok x ∨ (strict = false ∧ x = Raise ValueError).

(** The number of decimal digits in a text. *)
Definition digits_in (s : str) : nat := length (List.filter is_digit_c s).

(** No group holds more than [d] digits. *)
Definition digits_bounded (d : nat) (cs : gmap nat str) : Prop :=
  ∀ n w, cs !! n = Some w → digits_in w ≤ d.

(** A declaration whose bit count has one digit more than [int] converts. *)
Definition long_number : str :=
  txt "VRBL X I " ++ repeat "9"%char (S INT_MAX_STR_DIGITS) ++ txt " S $".

(** ** Vocabulary of the further properties *)

(** A variable as [VRBL ALT I 16 S $] declares it on the first line. *)
Definition example_variable : VariableDefinition :=
  mkVariable (txt "ALT") INTEGER (Some 16%N) true None None []
             false None None 0 0 0 None.

(** *** The statements, one after the other *)

(** [self._parse_statement(statement, i)] for each statement of a list. *)
Fixpoint run_statements (self : CMS2SemanticParser) (l : list (str * nat))
    : result CMS2SemanticParser :=
  match l with
  | [] => Ok self
  | s :: l' =>
      self ←! _parse_statement self (fst s) (snd s);
      run_statements self l'
  end.

(** What every statement of a document looks like: not empty, without a
    '$', without a blank at either end. *)
Definition statement_ok (s : str) : Prop :=
  s ≠ [] ∧ ("$"%char ∉ s) ∧ strip s = s.

(** *** Line numbers *)

(** The lines [s] to [e] of an entity lie before line [n]; [e] is 0 while
    the entity is not closed. *)
Definition span_below (n s e : nat) : Prop := s < n ∧ e < n ∧ (e = 0 ∨ s ≤ e).

(** Every line number recorded at the top level of the model lies before
    line [n]. *)
Definition lines_below (n : nat) (m : CMS2SemanticModel) : Prop :=
  (∀ k v, variables m !! k = Some v → v_line_number v < n) ∧
  (∀ k b, sys_data_blocks m !! k = Some b →
          span_below n (dd_line_start b) (dd_line_end b)) ∧
  (∀ k b, sys_proc_blocks m !! k = Some b →
          span_below n (sp_line_start b) (sp_line_end b)) ∧
  (∀ k f, functions m !! k = Some f →
          span_below n (fn_line_start f) (fn_line_end f)) ∧
  Forall (fun t => span_below n (t_line_start t) (t_line_end t)) (table_objs m) ∧
  Forall (fun t => span_below n (ty_line_start t) (ty_line_end t)) (type_objs m) ∧
  Forall (fun p => span_below n (p_line_start p) (p_line_end p)) (proc_objs m).

(** * Properties *)

(** ** Text *)

Lemma upper_c_idem c : upper_c (upper_c c) = upper_c c.
Proof.
  destruct c as [[] [] [] [] [] [] [] []]; reflexivity.
Qed.

Lemma upper_idem s : upper (upper s) = upper s.
Proof.
  unfold upper. rewrite map_map. apply map_ext. intros; apply upper_c_idem.
Qed.

(** ** The document store: didClose *)

Lemma del_if_in_ok `{Countable K} {V} (d : gmap K V) (k : K) :
  del_if_in d k = Ok (delete k d).
Proof.
  unfold del_if_in, delitem. case_bool_decide as Hk.
  - destruct Hk as [v ->]. reflexivity.
  - destruct (d !! k) eqn:E.
    + exfalso. apply Hk. eauto.
    + by rewrite delete_id.
Qed.

(** C10.  Handling textDocument/didClose for the document [u] never
    raises; it removes the entries of [u] from the three maps ([documents],
    [models], [parsers]) and nothing else: afterwards [u] has no entry, the
    entries of every other URI and the [running] flag are unchanged, and
    when [u] had no entry in any of the maps the server state is unchanged.
    The URI is the one that the parameters carry; parameters that lack
    [textDocument] or [uri] close the URI [''], with the same effect. *)
Theorem did_close_frame (self : CMS2LanguageServer) :
  (∀ u, ∃ self',
     _handle_did_close self (did_close_params u) = Ok self' ∧
     documents self' = delete u (documents self) ∧
     models self' = delete u (models self) ∧
     parsers self' = delete u (parsers self) ∧
     running self' = running self ∧
     (documents self' !! u = None ∧ models self' !! u = None ∧
      parsers self' !! u = None) ∧
     (∀ u', u' ≠ u →
        documents self' !! u' = documents self !! u' ∧
        models self' !! u' = models self !! u' ∧
        parsers self' !! u' = parsers self !! u') ∧
     (documents self !! u = None → models self !! u = None →
      parsers self !! u = None → self' = self)) ∧
  (∀ u, closed_uri (did_close_params u) = u) ∧
  closed_uri (mkDidClose None) = [] ∧
  closed_uri (mkDidClose (Some (mkTextDocument None))) = [] ∧
  (∀ params, ∃ self',
     _handle_did_close self params = Ok self' ∧
     documents self' = delete (closed_uri params) (documents self) ∧
     models self' = delete (closed_uri params) (models self) ∧
     parsers self' = delete (closed_uri params) (parsers self) ∧
     running self' = running self ∧
     (∀ u, u ≠ closed_uri params →
        documents self' !! u = documents self !! u ∧
        models self' !! u = models self !! u ∧
        parsers self' !! u = parsers self !! u) ∧
     (documents self !! closed_uri params = None →
      models self !! closed_uri params = None →
      parsers self !! closed_uri params = None →
      self' = self)).
Proof.
  split_and!; try reflexivity.
  - intros u. unfold _handle_did_close.
    change (closed_uri (did_close_params u)) with u.
    rewrite !del_if_in_ok. simpl.
    eexists; split; [reflexivity|]. simpl.
    split_and!; try reflexivity; try apply lookup_delete_eq;
      try (intros; by rewrite lookup_delete_ne).
    + intros u' Hu. by rewrite !lookup_delete_ne.
    + intros H1 H2 H3. destruct self; simpl in *. by rewrite !delete_id.
  - intros params. unfold _handle_did_close. rewrite !del_if_in_ok. simpl.
    eexists; split; [reflexivity|]. simpl.
    repeat split; try (by rewrite lookup_delete_ne).
    intros H1 H2 H3. destruct self; simpl in *.
    by rewrite !delete_id.
Qed.

(** ** Case of identifiers *)

(** Where C2 fails: after parsing a declaration of X, [get_variable] finds
    "X" and does not find "x". *)
Lemma get_variable_is_case_sensitive :
  ∃ m, parse (txt "VRBL X I 16 S $") = Ok m ∧
       get_variable m (txt "X") ≠ get_variable m (txt "x").
Proof.
  eexists. split; [vm_compute; reflexivity|].
  vm_compute. discriminate.
Qed.

(** A name that is found under an uppercase key is uppercase. *)
Lemma upper_app a b : upper (a ++ b) = upper a ++ upper b.
Proof. apply map_app. Qed.

Lemma upper_suffix_fixed a b : upper (a ++ b) = a ++ b → upper b = b.
Proof.
  rewrite upper_app. intros E.
  apply app_inj_1 in E as [_ E]; [exact E|]. unfold upper. apply length_map.
Qed.

(** The keys of a dictionary, checked one by one. *)
Lemma upper_keys_check {V : Type} (d : gmap str V) :
  forallb (fun kv => bool_decide (upper (fst kv) = fst kv)) (map_to_list d)
    = true →
  upper_keys d.
Proof.
  intros F k [v Hk]. rewrite forallb_forall in F.
  apply elem_of_map_to_list, list_elem_of_In in Hk.
  specialize (F (k, v) Hk). by apply bool_decide_eq_true in F.
Qed.

(** C2, as amended.  [get_variable] compares the name with the stored keys
    as it is given: in a model whose variable keys are uppercase, as the
    single-name declarations store them, it finds nothing under a name that
    is not in uppercase.  The lookup is case-insensitive through the query
    layer, which uppercases the name before it asks the model: for names
    with the same uppercase form [_find_definition] gives the same result,
    and when [get_variable] finds a variable under the uppercase spelling,
    that result is the line of this variable for every spelling. *)
Theorem lookup_case_insensitive_after_upper
    (m : CMS2SemanticModel) (n1 n2 : str) :
  upper n1 = upper n2 →
  (upper_keys (variables m) → upper n1 ≠ n1 → get_variable m n1 = None) ∧
  _find_definition m n1 = _find_definition m n2 ∧
  (∀ v, get_variable m (upper n1) = Some v →
        _find_definition m n1 = Some (v_line_number v) ∧
        _find_definition m n2 = Some (v_line_number v)).
Proof.
  intros E. split_and!.
  - intros Hk Hn. unfold get_variable.
    destruct (variables m !! (current_scope m ++ txt "." ++ n1)) as [v|] eqn:E1.
    { exfalso. apply Hn.
      apply (upper_suffix_fixed (current_scope m ++ txt ".") n1).
      rewrite <- app_assoc. apply Hk. eauto. }
    destruct (variables m !! n1) as [v|] eqn:E2; [|reflexivity].
    exfalso. apply Hn, Hk. eauto.
  - unfold _find_definition. by rewrite E.
  - intros v Hv. unfold _find_definition. rewrite <- E, Hv. auto.
Qed.

(** After [VRBL ALT I 16 S $] the variable is stored under "ALT":
    [get_variable] does not find "alt", and go-to-definition finds line 0
    for "alt" and for "Alt". *)
Lemma lookup_case_insensitive_after_upper_witness :
  get_variable (model_of (txt "VRBL ALT I 16 S $")) (txt "alt") = None ∧
  get_variable (model_of (txt "VRBL ALT I 16 S $")) (txt "ALT")
    = Some example_variable ∧
  _find_definition (model_of (txt "VRBL ALT I 16 S $")) (txt "alt")
    = _find_definition (model_of (txt "VRBL ALT I 16 S $")) (txt "Alt") ∧
  _find_definition (model_of (txt "VRBL ALT I 16 S $")) (txt "alt") = Some 0.
Proof.
  destruct (lookup_case_insensitive_after_upper
              (model_of (txt "VRBL ALT I 16 S $")) (txt "alt") (txt "Alt"))
    as (H1 & H2 & H3).
  - reflexivity.
  - split_and!.
    + apply H1; [|discriminate].
      apply upper_keys_check. vm_compute. reflexivity.
    + vm_compute. reflexivity.
    + exact H2.
    + apply (H3 example_variable). vm_compute. reflexivity.
Defined.

(** ** The matcher is sound for [matches] *)

Section Soundness.

Implicit Types (r : re) (st : mstate) (k : mstate → option mstate).

Lemma star_greedy_sound g p l st k out :
  rest st = l → star_greedy p l st k = Some out →
  ∃ st', matches (Star g p) st st' ∧ k st' = Some out.
Proof.
  revert st. induction l as [|c t IH]; intros st Hr; simpl.
  - intros Hk. exists st. split; [constructor | exact Hk].
  - destruct (test p c) eqn:Hp.
    + destruct (star_greedy p t (advance c t st) k) as [o|] eqn:Hs.
      * intros [= <-]. destruct (IH (advance c t st) eq_refl Hs) as (st' & Hm & Hk).
        exists st'. split; [|exact Hk]. eapply M_StarCons; eauto.
      * intros Hk. exists st. split; [constructor | exact Hk].
    + intros Hk. exists st. split; [constructor | exact Hk].
Qed.

Lemma star_lazy_sound g p l st k out :
  rest st = l → star_lazy p l st k = Some out →
  ∃ st', matches (Star g p) st st' ∧ k st' = Some out.
Proof.
  revert st. induction l as [|c t IH]; intros st Hr; simpl.
  - destruct (k st) eqn:Hk; [|discriminate].
    intros [= <-]. exists st. split; [constructor | exact Hk].
  - destruct (k st) eqn:Hk.
    + intros [= <-]. exists st. split; [constructor | exact Hk].
    + destruct (test p c) eqn:Hp; [|discriminate].
      intros Hs. destruct (IH (advance c t st) eq_refl Hs) as (st' & Hm & Hk').
      exists st'. split; [|exact Hk']. eapply M_StarCons; eauto.
Qed.

Lemma run_sound r : ∀ st k out,
  run r st k = Some out → ∃ st', matches r st st' ∧ k st' = Some out.
Proof.
  induction r as [|p|r1 IH1 r2 IH2|r1 IH1 r2 IH2|r1 IH1|g p|n r1 IH1| |];
    intros st k out; simpl.
  - intros Hk. exists st. split; [constructor | exact Hk].
  - destruct (rest st) as [|c t] eqn:Hr; [discriminate|].
    destruct (test p c) eqn:Hp; [|discriminate].
    intros Hk. exists (advance c t st). split; [by constructor | exact Hk].
  - intros H. destruct (IH1 _ _ _ H) as (st1 & Hm1 & H1).
    destruct (IH2 _ _ _ H1) as (st2 & Hm2 & H2).
    exists st2. split; [econstructor; eauto | exact H2].
  - destruct (run r1 st k) eqn:H1.
    + intros [= <-]. destruct (IH1 _ _ _ H1) as (st' & Hm & Hk).
      exists st'. split; [by apply M_AltL | exact Hk].
    + intros H2. destruct (IH2 _ _ _ H2) as (st' & Hm & Hk).
      exists st'. split; [by apply M_AltR | exact Hk].
  - destruct (run r1 st k) eqn:H1.
    + intros [= <-]. destruct (IH1 _ _ _ H1) as (st' & Hm & Hk).
      exists st'. split; [by apply M_OptSome | exact Hk].
    + intros Hk. exists st. split; [apply M_OptNone | exact Hk].
  - destruct g.
    + apply star_greedy_sound. reflexivity.
    + apply star_lazy_sound. reflexivity.
  - intros H. destruct (IH1 _ _ _ H) as (st' & Hm & Hk).
    exists (set_cap n st st'). split; [by constructor | exact Hk].
  - destruct (xorb _ _) eqn:Hx; [|discriminate].
    intros Hk. exists st. split; [by constructor | exact Hk].
  - destruct (at_end st) eqn:Hx; [|discriminate].
    intros Hk. exists st. split; [by constructor | exact Hk].
Qed.

(** A match consumes a prefix of the text and advances the offset by its
    length. *)
Lemma matches_consumes r st st' :
  matches r st st' →
  ∃ w, rest st = w ++ rest st' ∧ pos st' = pos st + length w.
Proof.
  induction 1 as [st|p c t st Hr Hp|r1 r2 st1 st2 st3 _ IH1 _ IH2
                 |r1 r2 st st' _ IH|r1 r2 st st' _ IH|r st st' _ IH|r st
                 |g p st|g p c t st st' Hr Hp _ IH|n r st st' _ IH|st Hx|st Hx];
    try (exists []; split; [reflexivity | simpl; lia]); try exact IH.
  - exists [c]. simpl. split; [exact Hr | lia].
  - destruct IH1 as (w1 & E1 & P1), IH2 as (w2 & E2 & P2).
    exists (w1 ++ w2). rewrite E1, E2, P2, P1, length_app, <- app_assoc.
    split; [reflexivity | lia].
  - destruct IH as (w & E & P). simpl in E, P.
    exists (c :: w). rewrite Hr, E, P. simpl. split; [reflexivity | lia].
Qed.

(** The match object of a successful match. *)
Lemma match_at_sound r st mt :
  match_at r st = Some mt →
  ∃ out, matches r st out ∧
         m_start mt = pos st ∧ m_end mt = pos out ∧ m_groups mt = caps out.
Proof.
  unfold match_at. destruct (run r st Some) as [out|] eqn:H; [|discriminate].
  intros [= <-]. destruct (run_sound _ _ _ _ H) as (st' & Hm & [= ->]).
  exists out. auto.
Qed.

Lemma match_at_end r st mt :
  match_at r st = Some mt → m_end mt ≤ pos st + length (rest st).
Proof.
  intros H. destruct (match_at_sound _ _ _ H) as (out & Hm & _ & -> & _).
  destruct (matches_consumes _ _ _ Hm) as (w & E & ->).
  rewrite E, length_app. lia.
Qed.

Lemma finditer_from_end r l : ∀ i pv skip,
  Forall (fun mt => m_end mt ≤ i + length l) (finditer_from r l i pv skip).
Proof.
  induction l as [|c t IH]; intros i pv skip; simpl.
  - destruct skip; [|constructor].
    destruct (match_at r _) eqn:H; [|constructor].
    constructor; [|constructor]. apply match_at_end in H. exact H.
  - destruct skip.
    + destruct (match_at r _) eqn:H.
      * constructor.
        -- apply match_at_end in H. exact H.
        -- eapply Forall_impl; [apply IH|]. simpl. intros; lia.
      * eapply Forall_impl; [apply IH|]. simpl. intros; lia.
    + eapply Forall_impl; [apply IH|]. simpl. intros; lia.
Qed.

Lemma find_none_of {A} (f : A → bool) (l : list A) :
  Forall (fun x => f x = false) l → List.find f l = None.
Proof.
  induction 1 as [|x l Hx _ IH]; simpl; [reflexivity|]. by rewrite Hx.
Qed.

Lemma match_at_column_past_end r line character :
  (Z.of_nat (length line) < character)%Z →
  match_at_column r line character = None.
Proof.
  intros Hc. unfold match_at_column.
  apply find_none_of.
  eapply Forall_impl; [apply (finditer_from_end r line 0 None 0)|].
  simpl. intros mt Hend.
  unfold spans. apply andb_false_intro2. apply Z.leb_gt. lia.
Qed.

End Soundness.

(** ** The handlers do not read the line buffer *)

Ltac crush_result :=
  repeat first
    [ reflexivity
    | match goal with
      | |- context [rbind ?x _] => destruct x eqn:?; simpl
      | |- context [match ?x with _ => _ end] => destruct x eqn:?; simpl
      end ].

Lemma create_variable_lines ls self name ts md n :
  _create_variable (set_lines ls self) name ts md n
  = rmap (set_lines ls) (_create_variable self name ts md n).
Proof.
  unfold _create_variable. cbn. crush_result.
Qed.

Lemma create_variables_lines ls names : ∀ self ts md n,
  create_variables (set_lines ls self) names ts md n
  = rmap (set_lines ls) (create_variables self names ts md n).
Proof.
  induction names as [|name names IH]; intros; simpl; [reflexivity|].
  rewrite create_variable_lines.
  destruct (_create_variable self name ts md n); simpl; auto.
Qed.

Lemma parse_statement_lines ls self s n :
  _parse_statement (set_lines ls self) s n
  = rmap (set_lines ls) (_parse_statement self s n).
Proof.
  unfold _parse_statement.
  repeat match goal with
         | |- context [if ?b then _ else _] => destruct b
         end; try reflexivity.
  - unfold _parse_sys_dd_start. cbn. crush_result.
  - unfold _handle_end_sys_dd. cbn. crush_result.
  - unfold _parse_sys_proc_start. cbn. crush_result.
  - unfold _handle_end_sys_proc. cbn. crush_result.
  - unfold _parse_vrbl_declaration.
    destruct (strip_modifier _ _) as [md stmt].
    destruct (re_match re_vrbl_multi stmt); simpl.
    + destruct (deref _); simpl; auto. destruct (deref _); simpl; auto.
      apply create_variables_lines.
    + destruct (re_match re_vrbl_single stmt); simpl; auto.
      destruct (deref _); simpl; auto. destruct (deref _); simpl; auto.
      apply create_variable_lines.
  - unfold _parse_table_declaration. cbn. crush_result.
  - unfold _handle_end_table. cbn. crush_result.
  - unfold _parse_field_declaration. cbn. crush_result.
  - unfold _parse_type_declaration. cbn. crush_result.
  - unfold _handle_end_type. cbn. crush_result.
  - unfold _parse_procedure_declaration. cbn. crush_result.
  - unfold _parse_exec_proc_declaration. cbn. crush_result.
  - unfold _handle_end_proc. cbn. crush_result.
  - unfold _parse_function_declaration. cbn. crush_result.
  - unfold _handle_end_function. cbn. crush_result.
  - unfold _parse_cmode. cbn. crush_result.
Qed.

Lemma statement_loop_lines ls fuel : ∀ self b i,
  statement_loop fuel (set_lines ls self) b i
  = rmap (on_fst_lines ls) (statement_loop fuel self b i).
Proof.
  induction fuel as [|fuel IH]; intros self b i; simpl.
  - destruct (find_c _ b); reflexivity.
  - destruct (find_c _ b) as [p|]; [|reflexivity].
    destruct (nonempty _); simpl.
    + rewrite parse_statement_lines.
      destruct (_parse_statement self _ i); simpl; auto.
    + apply IH.
Qed.

Lemma parse_lines_lines ls l : ∀ self b i,
  parse_lines (set_lines ls self) b i l
  = rmap (on_fst_lines ls) (parse_lines self b i l).
Proof.
  induction l as [|line l IH]; intros self b i; simpl; [reflexivity|].
  unfold parse_line.
  change (set_current_line_num i (set_lines ls self))
    with (set_lines ls (set_current_line_num i self)).
  destruct (nonempty _); simpl.
  - rewrite statement_loop_lines.
    destruct (statement_loop _ _ _ i) as [[self' b']| |]; simpl;
      [apply IH | reflexivity | reflexivity].
  - apply IH.
Qed.

(** The model that [parse] returns, from the lines of the document. *)
Lemma parse_from_lines code :
  parse code
  = rmap (fun x => model (fst x))
         (parse_lines new_parser [] 0 (split_c "010"%char code)).
Proof.
  unfold parse, parse_self.
  change (mkParser new_model (split_c "010"%char code) 0 false None false None
            false None false None false None false None false)
    with (set_lines (split_c "010"%char code) new_parser).
  rewrite parse_lines_lines.
  destruct (parse_lines new_parser _ _ _) as [[self b]| |]; reflexivity.
Qed.

(** ** Comments *)

Lemma remove_comments_from_cons b c t :
  c ≠ "'"%char →
  remove_comments_from b (c :: t)
  = (if b then [] else [c]) ++ remove_comments_from b t.
Proof.
  intros Hc.
  assert (eqc c "'"%char = false) as E by (unfold eqc; by apply Ascii.eqb_neq).
  destruct t; simpl; rewrite ?E; by destruct b.
Qed.

Lemma remove_comments_from_plain s post b :
  no_apostrophe s →
  remove_comments_from b (s ++ post)
  = (if b then [] else s) ++ remove_comments_from b post.
Proof.
  induction 1 as [|c s Hc _ IH]; [by destruct b|].
  rewrite <- app_comm_cons, remove_comments_from_cons, IH by exact Hc.
  by destruct b.
Qed.

Lemma outside_after_plain s : no_apostrophe s → outside_after s.
Proof.
  intros Hs post. unfold _remove_comments.
  rewrite (remove_comments_from_plain s post false Hs).
  rewrite <- (app_nil_r s) at 2.
  rewrite (remove_comments_from_plain s [] false Hs). simpl.
  by rewrite app_nil_r.
Qed.

(** Inside a comment the scanner drops the body and leaves the comment at
    the closing pair. *)
Lemma remove_comments_from_skip c c2 t :
  eqc c "'"%char && eqc c2 "'"%char = false →
  remove_comments_from true (c :: c2 :: t)
  = remove_comments_from true (c2 :: t).
Proof. intros H. simpl. by rewrite H. Qed.

Lemma remove_comments_from_body body post :
  comment_body body = true →
  remove_comments_from true (body ++ txt "''" ++ post)
  = remove_comments_from false post.
Proof.
  induction body as [|c t IH]; intros Hb.
  - simpl. by destruct post.
  - simpl in Hb. apply andb_prop in Hb as [Hc Ht].
    rewrite <- app_comm_cons, <- (IH Ht).
    destruct t as [|c3 t3].
    + destruct (eqc c "'"%char) eqn:Ec; [discriminate|].
      apply remove_comments_from_skip. by rewrite Ec.
    + rewrite <- app_comm_cons. apply remove_comments_from_skip.
      destruct (eqc c "'"%char); [|reflexivity].
      by apply negb_true_iff in Hc.
Qed.

Lemma remove_comments_comment body post :
  comment_body body = true →
  _remove_comments (comment body ++ post) = _remove_comments post.
Proof.
  intros Hb. unfold _remove_comments, comment.
  rewrite <- !app_assoc. simpl.
  destruct (body ++ _) eqn:E; [by destruct body|].
  rewrite <- E. by apply remove_comments_from_body.
Qed.

Lemma remove_comments_drop_comment pre body post :
  outside_after pre → comment_body body = true →
  _remove_comments (pre ++ comment body ++ post) = _remove_comments (pre ++ post).
Proof.
  intros Hp Hb. rewrite !Hp. by rewrite remove_comments_comment.
Qed.

(** The hypothesis [outside_after] covers text with comments of its own. *)
Lemma outside_after_comment body :
  comment_body body = true → outside_after (comment body).
Proof.
  intros Hb post. rewrite remove_comments_comment by exact Hb.
  rewrite <- (app_nil_r (comment body)).
  by rewrite remove_comments_comment.
Qed.

Lemma outside_after_app pre1 pre2 :
  outside_after pre1 → outside_after pre2 → outside_after (pre1 ++ pre2).
Proof.
  intros H1 H2 post. by rewrite <- app_assoc, H1, H2, (H1 pre2), app_assoc.
Qed.

Lemma parse_lines_same_text before l1 l2 after :
  _remove_comments l1 = _remove_comments l2 →
  ∀ self b i,
    parse_lines self b i (before ++ l1 :: after)
    = parse_lines self b i (before ++ l2 :: after).
Proof.
  intros E. induction before as [|l before IH]; intros self b i; simpl.
  - unfold parse_line. by rewrite E.
  - destruct (parse_line self b i l); simpl; auto.
Qed.

(** C4.  A '$' inside a comment does not end a statement: removing the
    comment from its line leaves the parse unchanged.  The comment is a
    pair of delimiters around a body in which no pair of apostrophes
    begins, opened where the scanner is outside any comment; [code'] is
    [code] with that comment taken out of its line.  In particular scenario 6 yields the single
    variable X, an integer of 16 bits. *)
Theorem comment_removal_preserves_parse :
  (∀ code code' before pre body post after,
     split_c "010"%char code = before ++ (pre ++ comment body ++ post) :: after →
     split_c "010"%char code' = before ++ (pre ++ post) :: after →
     outside_after pre → comment_body body = true →
     parse code = parse code') ∧
  (∃ m v, parse scenario_6 = Ok m ∧
          variables m = {[ txt "X" := v ]} ∧
          v_name v = txt "X" ∧ v_var_type v = INTEGER ∧
          v_bits v = Some 16%N ∧ v_signed v = true).
Proof.
  split.
  - intros code code' before pre body post after E E' Hp Hb.
    rewrite !parse_from_lines, E, E'.
    rewrite (parse_lines_same_text before _ (pre ++ post) after); [reflexivity|].
    by apply remove_comments_drop_comment.
  - eexists _, (mkVariable (txt "X") INTEGER (Some 16%N) true None None []
                             false None None 0 0 0 None).
    split; [vm_compute; reflexivity|].
    split; [vm_compute; reflexivity|]. repeat split.
Qed.

Lemma comment_removal_preserves_parse_witness :
  parse scenario_6 = parse (txt "VRBL X I 16 S  $").
Proof.
  apply (proj1 comment_removal_preserves_parse scenario_6
           (txt "VRBL X I 16 S  $") [] (txt "VRBL X I 16 S ")
           (txt " cost $ now ") (txt " $") []).
  - reflexivity.
  - reflexivity.
  - apply outside_after_plain. repeat constructor; discriminate.
  - reflexivity.
Defined.

(** ** Invariants of the main loop *)

Lemma statement_loop_invariant (P : CMS2SemanticParser → Prop) :
  (∀ self s n self', P self → _parse_statement self s n = Ok self' → P self') →
  ∀ fuel self b i x,
    P self → statement_loop fuel self b i = Ok x → P (fst x).
Proof.
  intros Hstep. induction fuel as [|fuel IH]; intros self b i x HP; simpl.
  - destruct (find_c _ b); [discriminate|]. by intros [= <-].
  - destruct (find_c _ b) as [p|]; [|by intros [= <-]].
    destruct (nonempty _); simpl.
    + destruct (_parse_statement self _ i) as [self'| |] eqn:E; simpl;
        try discriminate.
      apply IH. eapply Hstep; eauto.
    + by apply IH.
Qed.

Lemma parse_lines_invariant (P : CMS2SemanticParser → Prop) :
  (∀ self n, P self → P (set_current_line_num n self)) →
  (∀ self s n self', P self → _parse_statement self s n = Ok self' → P self') →
  ∀ l self b i x, P self → parse_lines self b i l = Ok x → P (fst x).
Proof.
  intros Hline Hstep. induction l as [|line l IH]; intros self b i x HP; simpl.
  - by intros [= <-].
  - destruct (parse_line self b i line) as [[self' b']| |] eqn:E; simpl;
      try discriminate.
    apply IH. unfold parse_line in E.
    destruct (nonempty _).
    + apply (statement_loop_invariant P Hstep _ _ _ _ _ (Hline _ i HP) E).
    + injection E as <- <-. by apply Hline.
Qed.

Lemma parse_invariant (P : CMS2SemanticParser → Prop) :
  P new_parser →
  (∀ self n, P self → P (set_current_line_num n self)) →
  (∀ self s n self', P self → _parse_statement self s n = Ok self' → P self') →
  ∀ code m, parse code = Ok m → ∃ self, P self ∧ m = model self.
Proof.
  intros H0 Hline Hstep code m. rewrite parse_from_lines.
  destruct (parse_lines new_parser _ _ _) as [x| |] eqn:E; simpl;
    try discriminate.
  intros [= <-]. exists (fst x). split; [|reflexivity].
  eapply parse_lines_invariant; eauto.
Qed.

(** ** Python idioms *)

Lemma key_in_Some {V} (o : option str) (d : gmap str V) k :
  key_in o d = Some k → o = Some k ∧ is_Some (d !! k).
Proof.
  unfold key_in. destruct o as [k'|]; [|discriminate].
  case_bool_decide; [|discriminate]. by intros [= <-].
Qed.

Lemma open_in_Some {V} (o : option str) (d : gmap str V) k :
  open_in o d = Some k → o = Some k ∧ is_Some (d !! k).
Proof.
  unfold open_in. destruct (truthy o); [apply key_in_Some | discriminate].
Qed.

Lemma getitem_Ok `{Countable K} {V} (d : gmap K V) k v :
  getitem d k = Ok v ↔ d !! k = Some v.
Proof.
  unfold getitem. destruct (d !! k); split; intros E; by inversion E.
Qed.

Lemma update_at_spec {V : Type} (g : option str) (d : gmap str V) (f : V → V) :
  (∀ k, g = Some k → is_Some (d !! k)) →
  ∃ d', update_at g d f = Ok d' ∧
        (d' = d ∨ ∃ k b, g = Some k ∧ d !! k = Some b ∧ d' = <[k := f b]> d).
Proof.
  intros Hg. unfold update_at. destruct g as [k|]; [|eauto].
  destruct (Hg k eq_refl) as [b Hb]. unfold getitem. rewrite Hb. simpl.
  eexists. split; [reflexivity|]. right. eauto.
Qed.

Lemma update_obj_at_spec {A : Type} (g : option str) (reg : gmap str ref)
    (objs : list A) (f : A → A) :
  (∀ k, g = Some k → is_Some (reg !! k)) →
  ∃ objs', update_obj_at g reg objs f = Ok objs' ∧
           (objs' = objs ∨
            ∃ k r, g = Some k ∧ reg !! k = Some r ∧ objs' = alter f r objs).
Proof.
  intros Hg. unfold update_obj_at. destruct g as [k|]; [|eauto].
  destruct (Hg k eq_refl) as [r Hr]. unfold getitem. rewrite Hr. simpl.
  eexists. split; [reflexivity|]. right. eauto.
Qed.

Lemma open_in_guard {V} (o : option str) (d : gmap str V) :
  ∀ k, open_in o d = Some k → is_Some (d !! k).
Proof. intros k H. by destruct (open_in_Some _ _ _ H). Qed.

Lemma key_in_guard {V} (o : option str) (d : gmap str V) :
  ∀ k, key_in o d = Some k → is_Some (d !! k).
Proof. intros k H. by destruct (key_in_Some _ _ _ H). Qed.

(** ** Block indexes and top-level registries *)

Section BlocksIndexed.

Implicit Types (m : CMS2SemanticModel).

(** The registries only grow, and a block enters or changes with indexes
    that the registries cover. *)
Lemma bi_step m m' :
  blocks_indexed m →
  dom (variables m) ⊆ dom (variables m') →
  dom (tables m) ⊆ dom (tables m') →
  dom (types m) ⊆ dom (types m') →
  dom (procedures m) ⊆ dom (procedures m') →
  (∀ k b, sys_data_blocks m' !! k = Some b →
          sys_data_blocks m !! k = Some b ∨ dd_indexed m' b) →
  (∀ k b, sys_proc_blocks m' !! k = Some b →
          sys_proc_blocks m !! k = Some b ∨ sp_indexed m' b) →
  blocks_indexed m'.
Proof.
  intros [Hd Hp] Hv Ht Hy Hq Hd' Hp'. split; intros k b Hk.
  - destruct (Hd' k b Hk) as [Hold|]; [|assumption].
    destruct (Hd k b Hold) as (? & ? & ?).
    split_and!; by etrans.
  - destruct (Hp' k b Hk) as [Hold|]; [|assumption].
    specialize (Hp k b Hold). unfold sp_indexed in *. by etrans.
Qed.

Lemma bi_new_model : blocks_indexed new_model.
Proof. split; intros k b; simpl; by rewrite lookup_empty. Qed.

(** The outcome of a guarded assignment to a block, looked up. *)
Lemma updated_lookup {V} (g : option str) (d d' : gmap str V) (f : V → V) k b :
  (d' = d ∨ ∃ k0 b0, g = Some k0 ∧ d !! k0 = Some b0 ∧ d' = <[k0 := f b0]> d) →
  d' !! k = Some b →
  d !! k = Some b ∨ ∃ b0, d !! k = Some b0 ∧ b = f b0.
Proof.
  intros [-> | (k0 & b0 & _ & Hb0 & ->)]; [auto|].
  rewrite lookup_insert. case_decide as Hk; [|auto].
  subst k0. intros [= <-]. eauto.
Qed.

End BlocksIndexed.

(** ** The handlers keep the block indexes inside the registries *)

Ltac inv_result H :=
  lazymatch type of H with
  | Ok _ = Ok _ => injection H as <-
  | Raise _ = Ok _ => discriminate H
  | OutOfFuel = Ok _ => discriminate H
  | rbind (update_at ?g ?d ?f) _ = Ok _ =>
      let d' := fresh "d'" in
      let E := fresh "E" in
      let Hd := fresh "Hd'" in
      destruct (update_at_spec g d f
                  ltac:(first [apply open_in_guard | apply key_in_guard]))
        as (d' & E & Hd);
      rewrite E in H; simpl in H; clear E; inv_result H
  | rbind (update_obj_at ?g ?d ?o ?f) _ = Ok _ =>
      let d' := fresh "o'" in
      let E := fresh "E" in
      let Hd := fresh "Ho'" in
      destruct (update_obj_at_spec g d o f
                  ltac:(first [apply open_in_guard | apply key_in_guard]))
        as (d' & E & Hd);
      rewrite E in H; simpl in H; clear E; inv_result H
  | rbind ?x _ = Ok _ =>
      let E := fresh "E" in
      destruct x eqn:E; simpl in H;
      [inv_result H | discriminate H | discriminate H]
  | context [match ?x with _ => _ end] =>
      let E := fresh "E" in
      destruct x eqn:E; simpl in H; inv_result H
  | _ => idtac
  end.

Lemma dom_insert_mono {V W : Type} (k : str) (v : V) (w : W)
    (d : gmap str V) (e : gmap str W) :
  dom d ⊆ dom e → dom (<[k := v]> d) ⊆ dom (<[k := w]> e).
Proof. intros H. rewrite !dom_insert_L. by apply union_mono_l. Qed.

Ltac bi_dom :=
  cbn;
  first [ reflexivity
        | apply dom_insert_subseteq
        | etrans; [apply dom_insert_subseteq | apply dom_insert_subseteq] ].

Ltac bi_old := cbn; intros ? ? ?; left; assumption.

Lemma create_variable_bi self name ts md n self' :
  blocks_indexed (model self) →
  _create_variable self name ts md n = Ok self' →
  blocks_indexed (model self').
Proof.
  intros HP H. unfold _create_variable in H.
  inv_result H. cbn.
  apply (bi_step (model self)); [exact HP|bi_dom..| |bi_old].
  cbn. intros k b Hk.
  destruct (updated_lookup _ _ _ _ _ _ Hd' Hk) as [|(b0 & Hb0 & ->)]; [auto|].
  right. destruct HP as [HP _]. destruct (HP k b0 Hb0) as (Hv & Ht & Hy).
  split_and!; cbn; [|exact Ht|exact Hy].
  etrans; [|apply dom_insert_subseteq]. by apply dom_insert_mono.
Qed.

Lemma create_variables_bi names : ∀ self ts md n self',
  blocks_indexed (model self) →
  create_variables self names ts md n = Ok self' →
  blocks_indexed (model self').
Proof.
  induction names as [|name names IH]; intros self ts md n self' HP; simpl.
  - by intros [= <-].
  - destruct (_create_variable self name ts md n) as [s1| |] eqn:E; simpl;
      try discriminate.
    apply IH. eapply create_variable_bi; eauto.
Qed.

Ltac bi_dom_le :=
  cbn;
  first [ assumption
        | reflexivity
        | apply dom_insert_subseteq
        | apply dom_insert_mono; assumption
        | etrans; [eassumption | apply dom_insert_subseteq]
        | etrans; [|apply dom_insert_subseteq]; apply dom_insert_mono;
          assumption
        | rewrite dom_empty_L; apply empty_subseteq ].

(** A block looked up after the step: it is an old one, or it is the block
    that the step assigned to, whose indexes are still covered. *)
Ltac bi_blocks HP :=
  let k := fresh "k" in
  let b := fresh "b" in
  let Hk := fresh "Hk" in
  cbn; intros k b Hk;
  first
    [ left; exact Hk
    | match goal with
      | Hd : _ ∨ _ |- _ =>
          let b0 := fresh "b0" in
          let Hb0 := fresh "Hb0" in
          destruct (updated_lookup _ _ _ _ _ _ Hd Hk) as [|(b0 & Hb0 & ->)];
          [ left; assumption
          | right;
            first [ destruct (proj1 HP _ _ Hb0) as (? & ? & ?);
                    split_and!; bi_dom_le
                  | pose proof (proj2 HP _ _ Hb0); unfold sp_indexed in *;
                    bi_dom_le ] ]
      end
    | rewrite lookup_insert in Hk; case_decide;
      [ injection Hk as <-; right;
        first [ split_and!; bi_dom_le | unfold sp_indexed; bi_dom_le ]
      | left; exact Hk ] ].

Ltac bi_handler HP H :=
  inv_result H;
  first [ exact HP
        | cbn; apply (bi_step _ _ HP);
          [bi_dom..| bi_blocks HP | bi_blocks HP] ].

Lemma parse_statement_bi self s n self' :
  blocks_indexed (model self) →
  _parse_statement self s n = Ok self' →
  blocks_indexed (model self').
Proof.
  intros HP H. unfold _parse_statement in H.
  repeat match type of H with
         | context [if ?b then _ else _] => destruct b
         end;
    try (injection H as <-; exact HP).
  - unfold _parse_sys_dd_start in H. bi_handler HP H.
  - unfold _handle_end_sys_dd in H. bi_handler HP H.
  - unfold _parse_sys_proc_start in H. bi_handler HP H.
  - unfold _handle_end_sys_proc in H. bi_handler HP H.
  - unfold _parse_vrbl_declaration in H.
    destruct (strip_modifier _ _) as [md stmt].
    inv_result H; try exact HP.
    + eapply create_variables_bi; eauto.
    + eapply create_variable_bi; eauto.
  - unfold _parse_table_declaration in H. bi_handler HP H.
  - unfold _handle_end_table in H. bi_handler HP H.
  - unfold _parse_field_declaration in H. bi_handler HP H.
  - unfold _parse_type_declaration in H. bi_handler HP H.
  - unfold _handle_end_type in H. bi_handler HP H.
  - unfold _parse_procedure_declaration in H.
    destruct (strip_modifier _ _) as [md stmt]. bi_handler HP H.
  - unfold _parse_exec_proc_declaration in H.
    destruct (strip_modifier _ _) as [md stmt]. bi_handler HP H.
  - unfold _handle_end_proc in H. bi_handler HP H.
  - unfold _parse_function_declaration in H.
    destruct (strip_modifier _ _) as [md stmt]. bi_handler HP H.
  - unfold _handle_end_function in H. bi_handler HP H.
  - unfold _parse_cmode in H. bi_handler HP H.
Qed.

(** ** What a successful match says about the groups *)

Section Groups.

Implicit Types (r : re) (st : mstate).

(** Groups are only ever set. *)
Lemma matches_caps_mono r st st' :
  matches r st st' → ∀ n, is_Some (caps st !! n) → is_Some (caps st' !! n).
Proof.
  induction 1; intros m Hm; auto.
  - simpl. destruct (decide (n = m)) as [->|Hne].
    + rewrite lookup_insert_eq. eauto.
    + rewrite lookup_insert_ne by done. auto.
Qed.

Lemma matches_sure r st st' :
  matches r st st' → ∀ n, n ∈ sure r → is_Some (caps st' !! n).
Proof.
  induction 1 as [st|p c t st Hr Hp|r1 r2 st1 st2 st3 H1 IH1 H2 IH2
                 |r1 r2 st st' _ IH|r1 r2 st st' _ IH|r st st' _ IH|r st
                 |g p st|g p c t st st' Hr Hp _ IH|n r st st' _ IH|st Hx|st Hx];
    simpl; intros m Hm; try (by apply elem_of_nil in Hm).
  - apply elem_of_app in Hm as [Hm|Hm]; [|by apply IH2].
    eapply matches_caps_mono; eauto.
  - apply list_elem_of_In, List.filter_In in Hm as [Hm _].
    apply IH. by apply list_elem_of_In.
  - apply list_elem_of_In, List.filter_In in Hm as [_ Hm].
    apply IH. by apply bool_decide_eq_true in Hm.
  - apply elem_of_cons in Hm as [->|Hm].
    + rewrite lookup_insert_eq. eauto.
    + destruct (decide (n = m)) as [->|Hne].
      * rewrite lookup_insert_eq. eauto.
      * rewrite lookup_insert_ne by done. auto.
Qed.

(** The text of a repetition of a class. *)
Lemma matches_star_text g p st st' :
  matches (Star g p) st st' →
  ∃ w, rest st = w ++ rest st' ∧ pos st' = pos st + length w ∧
       forallb (test p) w = true.
Proof.
  intros H. remember (Star g p) as r eqn:Er.
  induction H as [| | | | | | |g' p' st|g' p' c t st st' Hr Hp _ IH| | |];
    try discriminate; injection Er as -> ->.
  - exists []. split_and!; simpl; auto.
  - destruct (IH eq_refl) as (w & E & P & F). simpl in E, P.
    exists (c :: w). rewrite Hr, E, P. simpl. rewrite Hp, F.
    split_and!; auto; lia.
Qed.

Lemma matches_digits1 r st st' :
  is_digits1 r = true → matches r st st' →
  isdigit (take (pos st' - pos st) (rest st)) = true.
Proof.
  intros Hd H.
  destruct r as [| |r1 r2| | | | | |]; try discriminate.
  destruct r1 as [|p| | | | | | |]; try discriminate.
  destruct p; try discriminate.
  destruct r2 as [| | | | |g p| | |]; try discriminate.
  destruct g; try discriminate. destruct p; try discriminate.
  inversion H as [| |? ? ? st2 ? H1 H2| | | | | | | | |]; subst.
  inversion H1 as [|? c t ? Hr Hp| | | | | | | | | |]; subst.
  destruct (matches_star_text _ _ _ _ H2) as (w & E & P & F).
  simpl in E, P. rewrite Hr, E, P.
  replace (S (pos st + length w) - pos st) with (S (length w)) by lia.
  simpl take. rewrite take_app_length.
  unfold isdigit. change (test CDigit) with is_digit_c in *.
  simpl. by rewrite Hp, F.
Qed.

Lemma is_digits1_loose r : is_digits1 r = true → loose r = [].
Proof.
  destruct r as [| |r1 r2| | | | | |]; try discriminate.
  destruct r1 as [|p| | | | | | |]; try discriminate.
  destruct p; try discriminate.
  destruct r2 as [| | | | |g p| | |]; try discriminate.
  destruct g; try discriminate. destruct p; try discriminate. reflexivity.
Qed.

Lemma matches_digits r st st' :
  matches r st st' →
  ∀ L, (∀ n, n ∈ loose r → n ∈ L) →
       digits_outside L (caps st) → digits_outside L (caps st').
Proof.
  induction 1 as [st|p c t st Hr Hp|r1 r2 st1 st2 st3 H1 IH1 H2 IH2
                 |r1 r2 st st' _ IH|r1 r2 st st' _ IH|r st st' _ IH|r st
                 |g p st|g p c t st st' Hr Hp _ IH|n r st st' Hm IH|st Hx|st Hx];
    simpl; intros L HL HQ; auto.
  - apply IH2; [intros; apply HL, elem_of_app; auto|].
    apply IH1; [intros; apply HL, elem_of_app; auto|]. exact HQ.
  - apply IH; [intros; apply HL, elem_of_app; auto|]. exact HQ.
  - apply IH; [intros; apply HL, elem_of_app; auto|]. exact HQ.
  - intros m w Hm' Hw. destruct (decide (n = m)) as [->|Hne].
    + rewrite lookup_insert_eq in Hw. injection Hw as <-.
      destruct (is_digits1 r) eqn:Hd.
      * by apply (matches_digits1 r).
      * exfalso. apply Hm', HL. apply elem_of_cons. auto.
    + rewrite lookup_insert_ne in Hw by done.
      clear Hne. revert m w Hm' Hw. apply IH; [|exact HQ].
      intros k Hk. apply HL. destruct (is_digits1 r) eqn:Hd.
      * rewrite (is_digits1_loose _ Hd) in Hk. by apply elem_of_nil in Hk.
      * apply elem_of_cons. auto.
Qed.

Lemma match_at_groups r st mt :
  caps st = ∅ → match_at r st = Some mt →
  (∀ n, bool_decide (n ∈ sure r) = true → is_Some (group mt n)) ∧
  (∀ n w, bool_decide (n ∈ loose r) = false → group mt n = Some w →
          isdigit w = true).
Proof.
  intros Hc H. destruct (match_at_sound _ _ _ H) as (out & Hm & _ & _ & Hg).
  unfold group. rewrite Hg. split.
  - intros n Hn. apply bool_decide_eq_true in Hn.
    eapply matches_sure; eauto.
  - intros n w Hn. apply bool_decide_eq_false in Hn.
    revert n w Hn. apply (matches_digits _ _ _ Hm (loose r)); [auto|].
    intros n w _. by rewrite Hc, lookup_empty.
Qed.

Lemma re_match_groups r s mt :
  re_match r s = Some mt →
  (∀ n, bool_decide (n ∈ sure r) = true → is_Some (group mt n)) ∧
  (∀ n w, bool_decide (n ∈ loose r) = false → group mt n = Some w →
          isdigit w = true).
Proof. apply match_at_groups. reflexivity. Qed.

Lemma search_from_groups r l : ∀ i pv mt,
  search_from r l i pv = Some mt →
  (∀ n, bool_decide (n ∈ sure r) = true → is_Some (group mt n)) ∧
  (∀ n w, bool_decide (n ∈ loose r) = false → group mt n = Some w →
          isdigit w = true).
Proof.
  induction l as [|c t IH]; intros i pv mt; simpl.
  - destruct (match_at r _) eqn:E; [|discriminate].
    intros [= <-]. eapply match_at_groups; eauto. reflexivity.
  - destruct (match_at r _) eqn:E.
    + intros [= <-]. eapply match_at_groups; eauto. reflexivity.
    + apply IH.
Qed.

Lemma re_search_groups r s mt :
  re_search r s = Some mt →
  (∀ n, bool_decide (n ∈ sure r) = true → is_Some (group mt n)) ∧
  (∀ n w, bool_decide (n ∈ loose r) = false → group mt n = Some w →
          isdigit w = true).
Proof. apply search_from_groups. Qed.

End Groups.

(** ** The digits of a text *)

Lemma digits_in_app a b : digits_in (a ++ b) = digits_in a + digits_in b.
Proof. unfold digits_in. by rewrite List.filter_app, length_app. Qed.

Lemma digits_in_cons c s : digits_in s ≤ digits_in (c :: s).
Proof. unfold digits_in. simpl. destruct (is_digit_c c); simpl; lia. Qed.

Lemma digits_in_take k s : digits_in (take k s) ≤ digits_in s.
Proof. rewrite <- (take_drop k s) at 2. rewrite digits_in_app. lia. Qed.

Lemma digits_in_drop k s : digits_in (drop k s) ≤ digits_in s.
Proof. rewrite <- (take_drop k s) at 2. rewrite digits_in_app. lia. Qed.

Lemma digits_in_rev s : digits_in (rev s) = digits_in s.
Proof.
  induction s as [|c s IH]; simpl; [reflexivity|].
  rewrite digits_in_app, IH. unfold digits_in. simpl.
  destruct (is_digit_c c); simpl; lia.
Qed.

Lemma digits_in_lstrip s : digits_in (lstrip s) ≤ digits_in s.
Proof.
  induction s as [|c s IH]; simpl; [reflexivity|].
  destruct (is_space_c c); [|reflexivity].
  etrans; [exact IH | apply digits_in_cons].
Qed.

Lemma digits_in_strip s : digits_in (strip s) ≤ digits_in s.
Proof.
  unfold strip, rstrip. rewrite digits_in_rev.
  etrans; [apply digits_in_lstrip|]. rewrite digits_in_rev.
  apply digits_in_lstrip.
Qed.

Lemma is_digit_upper_c c : is_digit_c (upper_c c) = is_digit_c c.
Proof. destruct c as [[] [] [] [] [] [] [] []]; reflexivity. Qed.

Lemma digits_in_upper s : digits_in (upper s) = digits_in s.
Proof.
  induction s as [|c s IH]; [reflexivity|].
  unfold digits_in, upper in *. simpl. rewrite is_digit_upper_c.
  destruct (is_digit_c c); simpl; by rewrite IH.
Qed.

Lemma digits_in_strip_modifier mods s :
  digits_in (snd (strip_modifier mods s)) ≤ digits_in s.
Proof.
  induction mods as [|md mods IH]; simpl; [reflexivity|].
  destruct (startswith _ _); [|exact IH]. simpl.
  etrans; [apply digits_in_strip | apply digits_in_drop].
Qed.

Lemma isdigit_digits_in s : isdigit s = true → digits_in s = length s.
Proof.
  intros H. assert (forallb is_digit_c s = true) as F.
  { destruct s; [discriminate | exact H]. }
  clear H. induction s as [|c s IH]; [reflexivity|].
  simpl in F. apply andb_prop in F as [Hc F].
  unfold digits_in in *. simpl. rewrite Hc. simpl. by rewrite IH.
Qed.

(** A group holds no more digits than the text that was matched. *)
Lemma matches_digits_in r st st' :
  matches r st st' →
  ∀ d, digits_in (rest st) ≤ d →
       digits_bounded d (caps st) → digits_bounded d (caps st').
Proof.
  induction 1 as [st|p c t st Hr Hp|r1 r2 st1 st2 st3 H1 IH1 H2 IH2
                 |r1 r2 st st' _ IH|r1 r2 st st' _ IH|r st st' _ IH|r st
                 |g p st|g p c t st st' Hr Hp _ IH|n r st st' Hm IH|st Hx|st Hx];
    simpl; intros d Hd HQ; auto.
  - apply IH2; [|by apply IH1].
    destruct (matches_consumes _ _ _ H1) as (w & E & _).
    rewrite E, digits_in_app in Hd. lia.
  - apply IH; [|exact HQ]. simpl. rewrite Hr in Hd.
    etrans; [apply digits_in_cons | exact Hd].
  - intros m w Hw. destruct (decide (n = m)) as [->|Hne].
    + rewrite lookup_insert_eq in Hw. injection Hw as <-.
      etrans; [apply digits_in_take | exact Hd].
    + rewrite lookup_insert_ne in Hw by done. clear Hne. revert m w Hw.
      by apply IH.
Qed.

Lemma match_at_digits_in r st mt :
  caps st = ∅ → match_at r st = Some mt →
  ∀ n w, group mt n = Some w → digits_in w ≤ digits_in (rest st).
Proof.
  intros Hc H. destruct (match_at_sound _ _ _ H) as (out & Hm & _ & _ & Hg).
  unfold group. rewrite Hg.
  apply (matches_digits_in _ _ _ Hm); [reflexivity|].
  intros n w. by rewrite Hc, lookup_empty.
Qed.

Lemma re_match_digits_in r s mt :
  re_match r s = Some mt →
  ∀ n w, group mt n = Some w → digits_in w ≤ digits_in s.
Proof. apply match_at_digits_in. reflexivity. Qed.

Lemma search_from_digits_in r l : ∀ i pv mt,
  search_from r l i pv = Some mt →
  ∀ n w, group mt n = Some w → digits_in w ≤ digits_in l.
Proof.
  induction l as [|c t IH]; intros i pv mt; simpl.
  - destruct (match_at r _) eqn:E; [|discriminate].
    intros [= <-]. by apply (match_at_digits_in _ (MState i pv _ ∅) _ eq_refl E).
  - destruct (match_at r _) eqn:E.
    + intros [= <-]. by apply (match_at_digits_in _ (MState i pv _ ∅) _ eq_refl E).
    + intros H n w Hw. etrans; [by eapply IH | apply digits_in_cons].
Qed.

Lemma re_search_digits_in r s mt :
  re_search r s = Some mt →
  ∀ n w, group mt n = Some w → digits_in w ≤ digits_in s.
Proof. apply search_from_digits_in. Qed.

(** ** What a statement can raise

    The handlers guard every dictionary access and every method call on a
    group; [int] is applied only to strings of digits, and raises on those
    longer than [INT_MAX_STR_DIGITS].  The lemmas are stated for both
    readings of [ends]: under [strict] the statement holds no more digits
    than [int] converts and the handler returns; otherwise it returns or
    raises [ValueError]. *)

Lemma is_Ok_Ok {A} (a : A) : is_Ok (Ok a).
Proof. by exists a. Qed.

Lemma is_Ok_ends {A} strict (x : result A) : is_Ok x → ends strict x.
Proof. by left. Qed.

Lemma ends_Ok {A} strict (a : A) : ends strict (Ok a).
Proof. apply is_Ok_ends, is_Ok_Ok. Qed.

Lemma ends_strict {A} (x : result A) : ends true x → is_Ok x.
Proof. by intros [H|[? _]]. Qed.

Lemma ends_cases {A} (x : result A) :
  ends false x → (∃ a, x = Ok a) ∨ x = Raise ValueError.
Proof. intros [H|[_ H]]; [left; exact H | right; exact H]. Qed.

Lemma ends_bind {A B} strict (x : result A) (f : A → result B) :
  ends strict x → (∀ a, x = Ok a → ends strict (f a)) →
  ends strict (rbind x f).
Proof.
  intros [[a ->]|[Hs ->]] Hf; simpl; [by apply Hf | by right].
Qed.

Lemma update_at_ok {V : Type} (g : option str) (d : gmap str V) (f : V → V) :
  (∀ k, g = Some k → is_Some (d !! k)) → is_Ok (update_at g d f).
Proof.
  intros Hg. destruct (update_at_spec g d f Hg) as (d' & E & _). by exists d'.
Qed.

Lemma update_obj_at_ok {A : Type} (g : option str) (reg : gmap str ref)
    (objs : list A) (f : A → A) :
  (∀ k, g = Some k → is_Some (reg !! k)) → is_Ok (update_obj_at g reg objs f).
Proof.
  intros Hg. destruct (update_obj_at_spec g reg objs f Hg) as (d' & E & _).
  by exists d'.
Qed.

(** [int] on a string of digits: it raises, and then [ValueError], exactly
    when the string is longer than [INT_MAX_STR_DIGITS]. *)
Lemma py_int_digits s :
  isdigit s = true →
  py_int s = if INT_MAX_STR_DIGITS <? length s
             then Raise ValueError else Ok (digits_val s).
Proof. intros H. unfold py_int. by rewrite H. Qed.

Lemma py_int_ends strict s :
  isdigit s = true → (strict = true → digits_in s ≤ INT_MAX_STR_DIGITS) →
  ends strict (py_int s).
Proof.
  intros H Hb. rewrite (py_int_digits _ H).
  destruct (_ <? _) eqn:E; [|apply ends_Ok].
  destruct strict; [|by right].
  apply Nat.ltb_lt in E. specialize (Hb eq_refl).
  rewrite (isdigit_digits_in _ H) in Hb. lia.
Qed.

Lemma if_truthy_Some o s : if_truthy o = Some s → o = Some s.
Proof. unfold if_truthy. by destruct (truthy o). Qed.

Section GroupsOk.

Context (mt : pymatch) (r : re) (s : str) (strict : bool).
Hypothesis Hgroups :
  (∀ n, bool_decide (n ∈ sure r) = true → is_Some (group mt n)) ∧
  (∀ n w, bool_decide (n ∈ loose r) = false → group mt n = Some w →
          isdigit w = true).
Hypothesis Hdigits : ∀ n w, group mt n = Some w → digits_in w ≤ digits_in s.
Hypothesis Hbound : strict = true → digits_in s ≤ INT_MAX_STR_DIGITS.

Lemma deref_group_ok n :
  bool_decide (n ∈ sure r) = true → ends strict (deref (group mt n)).
Proof.
  intros Hn. destruct (proj1 Hgroups n Hn) as [w ->]. apply ends_Ok.
Qed.

Lemma group_bound n w :
  group mt n = Some w → strict = true → digits_in w ≤ INT_MAX_STR_DIGITS.
Proof. intros Hw Hs. etrans; [by eapply Hdigits | by apply Hbound]. Qed.

Lemma int_group_ends n :
  bool_decide (n ∈ sure r) = true → bool_decide (n ∈ loose r) = false →
  ends strict (int_group (group mt n)).
Proof.
  intros Hn Hl. destruct (proj1 Hgroups n Hn) as [w Hw]. rewrite Hw. simpl.
  apply py_int_ends; [by apply (proj2 Hgroups n) | by eapply group_bound].
Qed.

Lemma int_if_ends n :
  bool_decide (n ∈ loose r) = false → ends strict (int_if (group mt n)).
Proof.
  intros Hl. unfold int_if. destruct (truthy (group mt n)) eqn:Ht.
  - destruct (group mt n) as [w|] eqn:Hw; [|discriminate].
    apply ends_bind; [|intros; apply ends_Ok]. simpl.
    apply py_int_ends; [by apply (proj2 Hgroups n) | by eapply group_bound].
  - apply ends_Ok.
Qed.

End GroupsOk.

Ltac groups_of mt k :=
  lazymatch goal with
  | E : re_match _ _ = Some mt |- _ =>
      k (re_match_groups _ _ _ E) (re_match_digits_in _ _ _ E)
  | E : re_search _ _ = Some mt |- _ =>
      k (re_search_groups _ _ _ E) (re_search_digits_in _ _ _ E)
  end.

(** The bound on the digits of a statement passes to the text that a
    handler matches. *)
Ltac solve_bound :=
  let Hs := fresh in
  intros Hs;
  match goal with
  | H : _ = true → digits_in _ ≤ _ |- _ =>
      specialize (H Hs); etrans; [|exact H]
  end;
  repeat first [ reflexivity
               | rewrite digits_in_upper
               | etrans; [apply digits_in_strip|] ].

Ltac solve_ends :=
  lazymatch goal with
  | |- ends _ (Ok _) => apply ends_Ok
  | |- ends _ (rbind _ _) =>
      apply ends_bind; [solve_ends | intros ? ?; solve_ends]
  | |- ends _ (deref (group ?mt ?n)) =>
      groups_of mt ltac:(fun G D =>
        apply (deref_group_ok _ _ _ G n); vm_compute; reflexivity)
  | |- ends _ (int_group (group ?mt ?n)) =>
      groups_of mt ltac:(fun G D =>
        apply (int_group_ends _ _ _ _ G D);
        [solve_bound | vm_compute; reflexivity | vm_compute; reflexivity])
  | |- ends _ (int_if (group ?mt ?n)) =>
      groups_of mt ltac:(fun G D =>
        apply (int_if_ends _ _ _ _ G D);
        [solve_bound | vm_compute; reflexivity])
  | |- ends _ (update_at _ _ _) =>
      apply is_Ok_ends, update_at_ok;
      first [apply open_in_guard | apply key_in_guard]
  | |- ends _ (update_obj_at _ _ _ _) =>
      apply is_Ok_ends, update_obj_at_ok;
      first [apply open_in_guard | apply key_in_guard]
  | |- ends _ (match ?x with _ => _ end) => destruct x eqn:?; solve_ends
  | |- ends _ (let (_, _) := ?x in _) => destruct x eqn:?; solve_ends
  | |- _ => idtac
  end.

Section StatementEnds.

Context (strict : bool).

Lemma parse_type_spec_ends ts :
  (strict = true → digits_in ts ≤ INT_MAX_STR_DIGITS) →
  ends strict (parse_type_spec ts).
Proof. intros Hb. unfold parse_type_spec. solve_ends. Qed.

Lemma create_variable_ends self name ts md n :
  (strict = true → digits_in ts ≤ INT_MAX_STR_DIGITS) →
  ends strict (_create_variable self name ts md n).
Proof.
  intros Hb. unfold _create_variable.
  apply ends_bind; [by apply parse_type_spec_ends|]. intros ti _. solve_ends.
Qed.

Lemma create_variables_ends names : ∀ self ts md n,
  (strict = true → digits_in ts ≤ INT_MAX_STR_DIGITS) →
  ends strict (create_variables self names ts md n).
Proof.
  induction names as [|name names IH]; intros; simpl; [apply ends_Ok|].
  apply ends_bind; [by apply create_variable_ends | intros; by apply IH].
Qed.

(** The type specification of a declaration is part of the statement. *)
Lemma type_spec_bound statement r mt g2 :
  (strict = true → digits_in statement ≤ INT_MAX_STR_DIGITS) →
  re_match r (snd (strip_modifier all_modifiers (strip statement))) = Some mt →
  deref (group mt 2) = Ok g2 →
  strict = true → digits_in (strip g2) ≤ INT_MAX_STR_DIGITS.
Proof.
  intros Hb E Hg Hs. specialize (Hb Hs).
  destruct (group mt 2) as [w|] eqn:Hw; [|discriminate].
  injection Hg as ->.
  etrans; [apply digits_in_strip|].
  etrans; [apply (re_match_digits_in _ _ _ E 2 _ Hw)|].
  etrans; [apply digits_in_strip_modifier|].
  etrans; [apply digits_in_strip | exact Hb].
Qed.

Lemma parse_statement_ends self s n :
  (strict = true → digits_in s ≤ INT_MAX_STR_DIGITS) →
  ends strict (_parse_statement self s n).
Proof.
  intros Hb. unfold _parse_statement.
  repeat match goal with
         | |- context [if ?b then _ else _] => destruct b
         end; try apply ends_Ok.
  - unfold _parse_sys_dd_start. solve_ends.
  - unfold _handle_end_sys_dd. solve_ends.
  - unfold _parse_sys_proc_start. solve_ends.
  - unfold _handle_end_sys_proc. solve_ends.
  - unfold _parse_vrbl_declaration.
    destruct (strip_modifier _ _) as [md stmt] eqn:Em.
    assert (stmt = snd (strip_modifier all_modifiers (strip s))) as Es
      by (by rewrite Em).
    solve_ends.
    + apply create_variables_ends. subst stmt. by eapply type_spec_bound.
    + apply create_variable_ends. subst stmt. by eapply type_spec_bound.
  - unfold _parse_table_declaration. solve_ends.
    apply py_int_ends; [assumption|]. intros Hs.
    etrans; [|exact (Hb Hs)].
    match goal with
    | E : re_match _ _ = Some ?mt, F : if_truthy (group ?mt 5) = Some _ |- _ =>
        etrans; [exact (re_match_digits_in _ _ _ E 5 _ (if_truthy_Some _ _ F))|]
    end.
    apply digits_in_strip.
  - unfold _handle_end_table. solve_ends.
  - unfold _parse_field_declaration. solve_ends.
  - unfold _parse_type_declaration. solve_ends.
  - unfold _handle_end_type. solve_ends.
  - unfold _parse_procedure_declaration. solve_ends.
  - unfold _parse_exec_proc_declaration. solve_ends.
  - unfold _handle_end_proc. solve_ends.
  - unfold _parse_function_declaration. solve_ends.
  - unfold _handle_end_function. solve_ends.
  - unfold _parse_cmode. solve_ends.
Qed.

Lemma run_statements_ends l : ∀ self,
  Forall (fun s => strict = true → digits_in (fst s) ≤ INT_MAX_STR_DIGITS) l →
  ends strict (run_statements self l).
Proof.
  induction l as [|s l IH]; intros self Hl; simpl; [apply ends_Ok|].
  apply Forall_cons in Hl as [Hs Hl].
  apply ends_bind; [by apply parse_statement_ends | intros; by apply IH].
Qed.

End StatementEnds.

(** ** The main loop ends *)

Lemma length_lstrip s : length (lstrip s) ≤ length s.
Proof.
  induction s as [|c s IH]; simpl; [lia|].
  destruct (is_space_c c); simpl; lia.
Qed.

Lemma length_strip s : length (strip s) ≤ length s.
Proof.
  unfold strip, rstrip. rewrite length_rev.
  etrans; [apply length_lstrip|]. rewrite length_rev. apply length_lstrip.
Qed.

Lemma find_c_lt c s p : find_c c s = Some p → p < length s.
Proof.
  revert p. induction s as [|a s IH]; intros p; simpl; [discriminate|].
  destruct (eqc a c).
  - intros [= <-]. lia.
  - destruct (find_c c s) as [q|]; [|discriminate].
    intros [= <-]. specialize (IH q eq_refl). lia.
Qed.

(** The handlers do not read [current_line_num], so the main loop is the
    run of [_parse_statement] over the statements of the document. *)

Lemma create_variable_line_num k self name ts md n :
  _create_variable (set_current_line_num k self) name ts md n
  = rmap (set_current_line_num k) (_create_variable self name ts md n).
Proof.
  unfold _create_variable. cbn. crush_result.
Qed.

Lemma create_variables_line_num k names : ∀ self ts md n,
  create_variables (set_current_line_num k self) names ts md n
  = rmap (set_current_line_num k) (create_variables self names ts md n).
Proof.
  induction names as [|name names IH]; intros; simpl; [reflexivity|].
  rewrite create_variable_line_num.
  destruct (_create_variable self name ts md n); simpl; auto.
Qed.

(** The handlers do not read [current_line_num]. *)
Lemma parse_statement_line_num k self s n :
  _parse_statement (set_current_line_num k self) s n
  = rmap (set_current_line_num k) (_parse_statement self s n).
Proof.
  unfold _parse_statement.
  repeat match goal with
         | |- context [if ?b then _ else _] => destruct b
         end; try reflexivity.
  - unfold _parse_sys_dd_start. cbn. crush_result.
  - unfold _handle_end_sys_dd. cbn. crush_result.
  - unfold _parse_sys_proc_start. cbn. crush_result.
  - unfold _handle_end_sys_proc. cbn. crush_result.
  - unfold _parse_vrbl_declaration.
    destruct (strip_modifier _ _) as [md stmt].
    destruct (re_match re_vrbl_multi stmt); simpl.
    + destruct (deref _); simpl; auto. destruct (deref _); simpl; auto.
      apply create_variables_line_num.
    + destruct (re_match re_vrbl_single stmt); simpl; auto.
      destruct (deref _); simpl; auto. destruct (deref _); simpl; auto.
      apply create_variable_line_num.
  - unfold _parse_table_declaration. cbn. crush_result.
  - unfold _handle_end_table. cbn. crush_result.
  - unfold _parse_field_declaration. cbn. crush_result.
  - unfold _parse_type_declaration. cbn. crush_result.
  - unfold _handle_end_type. cbn. crush_result.
  - unfold _parse_procedure_declaration. cbn. crush_result.
  - unfold _parse_exec_proc_declaration. cbn. crush_result.
  - unfold _handle_end_proc. cbn. crush_result.
  - unfold _parse_function_declaration. cbn. crush_result.
  - unfold _handle_end_function. cbn. crush_result.
  - unfold _parse_cmode. cbn. crush_result.
Qed.

Lemma run_statements_line_num k l : ∀ self,
  run_statements (set_current_line_num k self) l
  = rmap (set_current_line_num k) (run_statements self l).
Proof.
  induction l as [|s l IH]; intros self; simpl; [reflexivity|].
  rewrite parse_statement_line_num.
  destruct (_parse_statement self _ _); simpl; auto.
Qed.

Lemma run_statements_app l1 l2 : ∀ self,
  run_statements self (l1 ++ l2)
  = (self' ←! run_statements self l1; run_statements self' l2).
Proof.
  induction l1 as [|s l1 IH]; intros self; simpl; [reflexivity|].
  destruct (_parse_statement self _ _); simpl; auto.
Qed.

(** The inner loop hands the statements of the buffer to the handlers. *)
Lemma statement_loop_run fuel : ∀ self b i,
  length b ≤ fuel →
  statement_loop fuel self b i
  = (self' ←! run_statements self
                (map (fun s => (s, i)) (fst (loop_statements fuel b)));
     Ok (self', snd (loop_statements fuel b))).
Proof.
  induction fuel as [|fuel IH]; intros self b i Hb; simpl.
  - destruct (find_c _ b) as [p|] eqn:E; [|reflexivity].
    apply find_c_lt in E. lia.
  - destruct (find_c _ b) as [p|] eqn:E; [|reflexivity].
    apply find_c_lt in E.
    assert (length (strip (drop (p + 1) b)) ≤ fuel) as Hlen.
    { etrans; [apply length_strip|]. rewrite length_drop. lia. }
    destruct (nonempty _); simpl.
    + destruct (_parse_statement self _ i); simpl; auto.
    + auto.
Qed.

Lemma parse_lines_run l : ∀ self b i,
  rmap (fun x => model (fst x)) (parse_lines self b i l)
  = rmap model (run_statements self (statements_from b i l)).
Proof.
  induction l as [|line l IH]; intros self b i; simpl; [reflexivity|].
  unfold parse_line. destruct (nonempty _).
  - rewrite statement_loop_run by reflexivity.
    rewrite run_statements_app, run_statements_line_num.
    destruct (run_statements self _) as [s1| |]; simpl; auto.
    rewrite IH, run_statements_line_num.
    by destruct (run_statements s1 _).
  - simpl. rewrite IH, run_statements_line_num.
    by destruct (run_statements self _).
Qed.

Lemma parse_run code :
  parse code = rmap model (run_statements new_parser (statements code)).
Proof. rewrite parse_from_lines. apply parse_lines_run. Qed.

Lemma parse_ends strict code :
  Forall (fun s => strict = true → digits_in (fst s) ≤ INT_MAX_STR_DIGITS)
         (statements code) →
  ends strict (parse code).
Proof.
  intros H. rewrite parse_run.
  destruct (run_statements_ends strict _ new_parser H) as [[x ->]|[Hs ->]].
  - apply ends_Ok.
  - by right.
Qed.

(** Where C9 fails: a declaration whose bit count has 4301 digits.  [int]
    raises [ValueError] on it and nothing between [int] and the caller of
    [parse] catches the exception. *)
Lemma parse_raises_on_long_number :
  digits_in long_number = 4301 ∧
  parse long_number = Raise ValueError.
Proof. split; vm_compute; reflexivity. Qed.

(** C9, as amended.  [parse] always ends (the fuel of the inner loop
    suffices), and it ends in one of two ways: it returns a model, or [int]
    raises [ValueError] on a number of more than 4300 digits; no dictionary
    access and no method call on a group that did not take part ever
    raises.  On a document no statement of which holds more than 4300
    digits, [parse] returns a model.  The same holds statement by statement
    of [_parse_statement], and a handler whose pattern does not match leaves
    the parser, and so the model, as it was. *)
Theorem parse_total_up_to_int :
  (∀ code, (∃ m, parse code = Ok m) ∨ parse code = Raise ValueError) ∧
  (∀ code,
     Forall (fun s => digits_in (fst s) ≤ INT_MAX_STR_DIGITS)
            (statements code) →
     ∃ m, parse code = Ok m) ∧
  (∀ self s n,
     (∃ self', _parse_statement self s n = Ok self') ∨
     _parse_statement self s n = Raise ValueError) ∧
  (∀ self s n, digits_in s ≤ INT_MAX_STR_DIGITS →
     ∃ self', _parse_statement self s n = Ok self') ∧
  (∀ self s n, re_match re_sys_dd s = None →
     _parse_sys_dd_start self s n = Ok self) ∧
  (∀ self s n, re_match re_sys_proc s = None →
     _parse_sys_proc_start self s n = Ok self) ∧
  (∀ self s n,
     re_match re_vrbl_multi (snd (strip_modifier all_modifiers (strip s)))
       = None →
     re_match re_vrbl_single (snd (strip_modifier all_modifiers (strip s)))
       = None →
     _parse_vrbl_declaration self s n = Ok self) ∧
  (∀ self s n, re_match re_table (strip s) = None →
     _parse_table_declaration self s n = Ok self) ∧
  (∀ self s n, re_match re_field (strip s) = None →
     _parse_field_declaration self s n = Ok self) ∧
  (∀ self s n,
     re_match (if contains (strip s) (txt "'")
               then re_type_status else re_type_struct) (strip s) = None →
     _parse_type_declaration self s n = Ok self) ∧
  (∀ self s n,
     re_match re_procedure (snd (strip_modifier all_modifiers (strip s)))
       = None →
     _parse_procedure_declaration self s n = Ok self) ∧
  (∀ self s n,
     re_match re_exec_proc
       (snd (strip_modifier ["(EXTDEF)"; "(EXTREF)"]%string (strip s)))
       = None →
     _parse_exec_proc_declaration self s n = Ok self) ∧
  (∀ self s n,
     re_match re_function (snd (strip_modifier all_modifiers (strip s)))
       = None →
     _parse_function_declaration self s n = Ok self).
Proof.
  split_and!.
  - intros code. apply ends_cases, parse_ends.
    apply Forall_forall. intros ? _ [=].
  - intros code H. apply ends_strict, parse_ends.
    eapply Forall_impl; [exact H|]. auto.
  - intros self s n. apply ends_cases, parse_statement_ends. intros [=].
  - intros self s n H. apply ends_strict, parse_statement_ends. auto.
  - intros self s n E. unfold _parse_sys_dd_start. by rewrite E.
  - intros self s n E. unfold _parse_sys_proc_start. by rewrite E.
  - intros self s n E1 E2. unfold _parse_vrbl_declaration.
    destruct (strip_modifier _ _) as [md stmt]. simpl in E1, E2.
    by rewrite E1, E2.
  - intros self s n E. unfold _parse_table_declaration. by rewrite E.
  - intros self s n E. unfold _parse_field_declaration. by rewrite E.
  - intros self s n E. unfold _parse_type_declaration.
    destruct (contains _ _); by rewrite E.
  - intros self s n E. unfold _parse_procedure_declaration.
    destruct (strip_modifier _ _) as [md stmt]. simpl in E. by rewrite E.
  - intros self s n E. unfold _parse_exec_proc_declaration.
    destruct (strip_modifier _ _) as [md stmt]. simpl in E. by rewrite E.
  - intros self s n E. unfold _parse_function_declaration.
    destruct (strip_modifier _ _) as [md stmt]. simpl in E. by rewrite E.
Qed.

(** The key of a block's index stays when the name is declared again
    outside the block, and the registry then holds the later object: the
    table T of block A is object 0, the table T of the registry object 1. *)
Example redeclared_table_is_another_object :
  ∃ m b, parse (txt "A SYS-DD $ TABLE T V $ END-SYS-DD A $ TABLE T H $") = Ok m ∧
         sys_data_blocks m !! txt "A" = Some b ∧
         dd_tables b !! txt "T" = Some 0 ∧ tables m !! txt "T" = Some 1.
Proof.
  eexists _, _. split; [vm_compute; reflexivity|].
  split; [vm_compute; reflexivity|]. split; vm_compute; reflexivity.
Qed.




(** ** Line ranges of the blocks *)

Section Unclosed.

Implicit Types (m : CMS2SemanticModel).

Lemma au_new_model : all_unclosed new_model.
Proof.
  split_and!; try (intros k b; simpl; by rewrite lookup_empty);
    simpl; constructor.
Qed.

Lemma au_step m m' :
  all_unclosed m →
  (∀ k b, sys_data_blocks m' !! k = Some b →
          sys_data_blocks m !! k = Some b ∨ dd_line_end b = 0) →
  (∀ k b, sys_proc_blocks m' !! k = Some b →
          sys_proc_blocks m !! k = Some b ∨ sp_line_end b = 0) →
  (∀ k f, functions m' !! k = Some f →
          functions m !! k = Some f ∨ fn_line_end f = 0) →
  (Forall (fun t => t_line_end t = 0) (table_objs m) →
   Forall (fun t => t_line_end t = 0) (table_objs m')) →
  (Forall (fun t => ty_line_end t = 0) (type_objs m) →
   Forall (fun t => ty_line_end t = 0) (type_objs m')) →
  (Forall (fun p => p_line_end p = 0) (proc_objs m) →
   Forall (fun p => p_line_end p = 0) (proc_objs m')) →
  all_unclosed m'.
Proof.
  intros (Hd & Hp & Hf & Ht & Hy & Hq) Hd' Hp' Hf' Ht' Hy' Hq'.
  split_and!; auto.
  - intros k b Hk. destruct (Hd' k b Hk); eauto.
  - intros k b Hk. destruct (Hp' k b Hk); eauto.
  - intros k b Hk. destruct (Hf' k b Hk); eauto.
Qed.

End Unclosed.

(** An object looked up after the step: an old one, or one whose [line_end]
    is that of the object it was made from, or a new one. *)
Ltac au_blocks :=
  let k := fresh "k" in
  let b := fresh "b" in
  let Hk := fresh "Hk" in
  cbn; intros k b Hk;
  first
    [ left; exact Hk
    | match goal with
      | Hd : _ ∨ _ |- _ =>
          let b0 := fresh "b0" in
          let Hb0 := fresh "Hb0" in
          destruct (updated_lookup _ _ _ _ _ _ Hd Hk) as [|(b0 & Hb0 & ->)];
          [ left; assumption
          | right; cbn;
            match goal with
            | HP : all_unclosed _ |- _ =>
                first [ exact (proj1 HP _ _ Hb0)
                      | exact (proj1 (proj2 HP) _ _ Hb0)
                      | exact (proj1 (proj2 (proj2 HP)) _ _ Hb0) ]
            end ]
      end
    | rewrite lookup_insert in Hk; case_decide;
      [ injection Hk as <-; right; reflexivity | left; exact Hk ] ].

Ltac au_objs :=
  let HF := fresh "HF" in
  cbn; intros HF;
  first
    [ exact HF
    | apply Forall_app; split; [exact HF | repeat constructor]
    | match goal with
      | Ho : _ ∨ _ |- _ =>
          destruct Ho as [-> | (? & ? & _ & _ & ->)];
          [ exact HF
          | apply Forall_alter; [exact HF | intros ? _ ?; assumption] ]
      end ].

Ltac au_handler HP H :=
  inv_result H;
  first [ exact HP
        | cbn; apply (au_step _ _ HP);
          [au_blocks | au_blocks | au_blocks | au_objs | au_objs | au_objs] ].

Lemma create_variable_au self name ts md n self' :
  all_unclosed (model self) →
  _create_variable self name ts md n = Ok self' →
  all_unclosed (model self').
Proof.
  intros HP H. unfold _create_variable in H. au_handler HP H.
Qed.

Lemma create_variables_au names : ∀ self ts md n self',
  all_unclosed (model self) →
  create_variables self names ts md n = Ok self' →
  all_unclosed (model self').
Proof.
  induction names as [|name names IH]; intros self ts md n self' HP; simpl.
  - by intros [= <-].
  - destruct (_create_variable self name ts md n) as [s1| |] eqn:E; simpl;
      try discriminate.
    apply IH. eapply create_variable_au; eauto.
Qed.

Lemma mentions_close_false s kw :
  mentions_close s = false → kw ∈ close_keywords →
  contains (strip (upper s)) (txt kw) = false.
Proof.
  unfold mentions_close. intros H Hkw.
  destruct (contains _ _) eqn:E; [|reflexivity].
  rewrite <- H. symmetry. apply existsb_exists.
  exists kw. split; [by apply list_elem_of_In | exact E].
Qed.

Lemma parse_statement_au self s n self' :
  mentions_close s = false →
  all_unclosed (model self) →
  _parse_statement self s n = Ok self' →
  all_unclosed (model self').
Proof.
  intros Hs HP H. unfold _parse_statement in H.
  rewrite (mentions_close_false s "END-SYS-DD" Hs),
    (mentions_close_false s "END-SYS-PROC" Hs),
    (mentions_close_false s "END-TABLE" Hs),
    (mentions_close_false s "END-TYPE" Hs),
    (mentions_close_false s "END-PROC" Hs),
    (mentions_close_false s "END-FUNCTION" Hs) in H
    by (apply list_elem_of_In; simpl; tauto).
  simpl in H.
  repeat match type of H with
         | context [if ?b then _ else _] => destruct b
         end;
    try (injection H as <-; exact HP).
  - unfold _parse_sys_dd_start in H. au_handler HP H.
  - unfold _parse_sys_proc_start in H. au_handler HP H.
  - unfold _parse_vrbl_declaration in H.
    destruct (strip_modifier _ _) as [md stmt].
    inv_result H; try exact HP.
    + eapply create_variables_au; eauto.
    + eapply create_variable_au; eauto.
  - unfold _parse_table_declaration in H. au_handler HP H.
  - unfold _parse_field_declaration in H. au_handler HP H.
  - unfold _parse_type_declaration in H. au_handler HP H.
  - unfold _parse_procedure_declaration in H.
    destruct (strip_modifier _ _) as [md stmt]. au_handler HP H.
  - unfold _parse_exec_proc_declaration in H.
    destruct (strip_modifier _ _) as [md stmt]. au_handler HP H.
  - unfold _parse_function_declaration in H.
    destruct (strip_modifier _ _) as [md stmt]. au_handler HP H.
  - unfold _parse_cmode in H. au_handler HP H.
Qed.

(** ** Invariants that depend on the statements of the document *)

Lemma statement_loop_invariant_on (P : CMS2SemanticParser → Prop)
    (Sok : str → Prop) :
  (∀ self s n self',
     Sok s → P self → _parse_statement self s n = Ok self' → P self') →
  ∀ fuel self b i x,
    Forall Sok (fst (loop_statements fuel b)) → P self →
    statement_loop fuel self b i = Ok x →
    P (fst x) ∧ snd x = snd (loop_statements fuel b).
Proof.
  intros Hstep. induction fuel as [|fuel IH]; intros self b i x HS HP; simpl.
  - destruct (find_c _ b); [discriminate|]. by intros [= <-].
  - simpl in HS. destruct (find_c _ b) as [p|]; [|by intros [= <-]].
    simpl in HS. destruct (nonempty _); simpl.
    + apply Forall_cons in HS as [Hs HS].
      destruct (_parse_statement self _ i) as [self'| |] eqn:E; simpl;
        try discriminate.
      apply IH; [exact HS|]. eapply Hstep; eauto.
    + by apply IH.
Qed.

Lemma parse_lines_invariant_on (P : CMS2SemanticParser → Prop)
    (Sok : str → Prop) :
  (∀ self n, P self → P (set_current_line_num n self)) →
  (∀ self s n self',
     Sok s → P self → _parse_statement self s n = Ok self' → P self') →
  ∀ l self b i x,
    Forall (fun s => Sok (fst s)) (statements_from b i l) → P self →
    parse_lines self b i l = Ok x → P (fst x).
Proof.
  intros Hline Hstep.
  induction l as [|line l IH]; intros self b i x HS HP; simpl.
  - by intros [= <-].
  - simpl in HS. unfold parse_line.
    destruct (nonempty _).
    + apply Forall_app in HS as [HS1 HS2].
      apply List.Forall_map in HS1.
      rewrite List.map_map in HS1. simpl in HS1. rewrite List.map_id in HS1.
      destruct (statement_loop _ _ _ i) as [[self' b']| |] eqn:E; simpl;
        try discriminate.
      destruct (statement_loop_invariant_on P Sok Hstep _ _ _ _ _
                  HS1 (Hline _ i HP) E)
        as [HP' Hb'].
      simpl in HP', Hb'. subst b'. by apply IH.
    + simpl. apply IH; [exact HS | by apply Hline].
Qed.

Lemma parse_invariant_on (P : CMS2SemanticParser → Prop) (Sok : str → Prop) :
  P new_parser →
  (∀ self n, P self → P (set_current_line_num n self)) →
  (∀ self s n self',
     Sok s → P self → _parse_statement self s n = Ok self' → P self') →
  ∀ code m,
    Forall (fun s => Sok (fst s)) (statements code) →
    parse code = Ok m → ∃ self, P self ∧ m = model self.
Proof.
  intros H0 Hline Hstep code m HS. rewrite parse_from_lines.
  destruct (parse_lines new_parser _ _ _) as [x| |] eqn:E; simpl;
    try discriminate.
  intros [= <-]. exists (fst x). split; [|reflexivity].
  eapply parse_lines_invariant_on; eauto.
Qed.

(** ** The branch of a statement *)

Lemma parse_statement_classify self s n :
  _parse_statement self s n = dispatch (classify s) self s n.
Proof.
  unfold _parse_statement, classify.
  repeat match goal with
         | |- context [if ?b then _ else _] => destruct b
         end; reflexivity.
Qed.

(** A statement that takes the branch of a close keyword holds it. *)
Lemma classify_close_keyword s kw :
  close_keyword (classify s) = Some kw →
  contains (strip (upper s)) (txt kw) = true.
Proof.
  unfold classify.
  repeat match goal with
         | |- context [if ?b then _ else _] => destruct b eqn:?
         end; simpl; try discriminate; by intros [= <-].
Qed.

Lemma run_statements_invariant (P : CMS2SemanticParser → Prop)
    (L : list (str * nat)) :
  (∀ self s n self',
     (s, n) ∈ L → P self → _parse_statement self s n = Ok self' → P self') →
  ∀ l self self',
    Forall (fun x => x ∈ L) l → P self →
    run_statements self l = Ok self' → P self'.
Proof.
  intros Hstep. induction l as [|[s n] l IH]; intros self self' Hl HP; simpl.
  - by intros [= <-].
  - apply Forall_cons in Hl as [Hs Hl].
    destruct (_parse_statement self s n) as [s1| |] eqn:E; simpl;
      try discriminate.
    apply IH; [exact Hl|]. eapply Hstep; eauto.
Qed.

(** An invariant of the statements of a document, which each step may use
    the statement's place in the document to keep. *)
Lemma parse_invariant_in (P : CMS2SemanticParser → Prop) code m :
  P new_parser →
  (∀ self s n self',
     (s, n) ∈ statements code → P self →
     _parse_statement self s n = Ok self' → P self') →
  parse code = Ok m → ∃ self, P self ∧ m = model self.
Proof.
  intros H0 Hstep. rewrite parse_run.
  destruct (run_statements new_parser _) as [self| |] eqn:E; simpl;
    try discriminate.
  intros [= <-]. exists self. split; [|reflexivity].
  apply (run_statements_invariant P (statements code) Hstep
           (statements code) new_parser self); [|exact H0|exact E].
  apply Forall_forall. auto.
Qed.

(** ** Who assigns [line_end] *)

Section LineEnds.

Context (l : list (str * nat)).
Implicit Types (m : CMS2SemanticModel).

Lemma le_new_model : line_ends_from l new_model.
Proof.
  split_and!; try (intros k b; simpl; by rewrite lookup_empty);
    simpl; constructor.
Qed.

Lemma le_step m m' :
  line_ends_from l m →
  (∀ k b, sys_data_blocks m' !! k = Some b →
          sys_data_blocks m !! k = Some b ∨
          assigned_by K_end_sys_dd l (dd_line_end b)) →
  (∀ k b, sys_proc_blocks m' !! k = Some b →
          sys_proc_blocks m !! k = Some b ∨
          assigned_by K_end_sys_proc l (sp_line_end b)) →
  (∀ k f, functions m' !! k = Some f →
          functions m !! k = Some f ∨
          assigned_by K_end_function l (fn_line_end f)) →
  (Forall (fun t => assigned_by K_end_table l (t_line_end t)) (table_objs m) →
   Forall (fun t => assigned_by K_end_table l (t_line_end t)) (table_objs m')) →
  (Forall (fun t => assigned_by K_end_type l (ty_line_end t)) (type_objs m) →
   Forall (fun t => assigned_by K_end_type l (ty_line_end t)) (type_objs m')) →
  (Forall (fun p => assigned_by K_end_proc l (p_line_end p)) (proc_objs m) →
   Forall (fun p => assigned_by K_end_proc l (p_line_end p)) (proc_objs m')) →
  line_ends_from l m'.
Proof.
  intros (Hd & Hp & Hf & Ht & Hy & Hq) Hd' Hp' Hf' Ht' Hy' Hq'.
  split_and!; auto.
  - intros k b Hk. destruct (Hd' k b Hk); eauto.
  - intros k b Hk. destruct (Hp' k b Hk); eauto.
  - intros k b Hk. destruct (Hf' k b Hk); eauto.
Qed.

Lemma assigned_default k : assigned_by k l 0.
Proof. by left. Qed.

End LineEnds.

(** An object looked up after the step: an old one, one whose [line_end] is
    that of the object it was made from, a new one with the default, or the
    object that a close statement of its kind has just closed. *)
Ltac le_blocks HP :=
  let k := fresh "k" in
  let b := fresh "b" in
  let Hk := fresh "Hk" in
  cbn; intros k b Hk;
  first
    [ left; exact Hk
    | match goal with
      | Hd : _ ∨ _ |- _ =>
          let b0 := fresh "b0" in
          let Hb0 := fresh "Hb0" in
          destruct (updated_lookup _ _ _ _ _ _ Hd Hk) as [|(b0 & Hb0 & ->)];
          [ left; assumption
          | right; cbn;
            first [ assumption
                  | exact (proj1 HP _ _ Hb0)
                  | exact (proj1 (proj2 HP) _ _ Hb0)
                  | exact (proj1 (proj2 (proj2 HP)) _ _ Hb0) ] ]
      end
    | rewrite lookup_insert in Hk; case_decide;
      [ injection Hk as <-; right; apply assigned_default | left; exact Hk ] ].

Ltac le_objs :=
  let HF := fresh "HF" in
  cbn; intros HF;
  first
    [ exact HF
    | apply Forall_app; split;
      [exact HF | constructor; [apply assigned_default | constructor]]
    | match goal with
      | Ho : _ ∨ _ |- _ =>
          destruct Ho as [-> | (? & ? & _ & _ & ->)];
          [ exact HF
          | apply Forall_alter; [exact HF | intros ? _ ?; cbn; assumption] ]
      end ].

Ltac le_handler HP H :=
  inv_result H;
  first [ exact HP
        | cbn; apply (le_step _ _ _ HP);
          [le_blocks HP | le_blocks HP | le_blocks HP
          | le_objs | le_objs | le_objs] ].

Lemma create_variable_le l self name ts md n self' :
  line_ends_from l (model self) →
  _create_variable self name ts md n = Ok self' →
  line_ends_from l (model self').
Proof.
  intros HP H. unfold _create_variable in H. le_handler HP H.
Qed.

Lemma create_variables_le l names : ∀ self ts md n self',
  line_ends_from l (model self) →
  create_variables self names ts md n = Ok self' →
  line_ends_from l (model self').
Proof.
  induction names as [|name names IH]; intros self ts md n self' HP; simpl.
  - by intros [= <-].
  - destruct (_create_variable self name ts md n) as [s1| |] eqn:E; simpl;
      try discriminate.
    apply IH. eapply create_variable_le; eauto.
Qed.

(** A statement assigns a [line_end] only through the close handler of its
    own branch, and then its own line. *)
Lemma parse_statement_le l self s n self' :
  (s, n) ∈ l →
  line_ends_from l (model self) →
  _parse_statement self s n = Ok self' →
  line_ends_from l (model self').
Proof.
  intros Hin HP H. rewrite parse_statement_classify in H.
  assert (assigned_by (classify s) l n) as Hn by (right; eauto).
  destruct (classify s); simpl in H;
    try (injection H as <-; exact HP).
  - unfold _parse_sys_dd_start in H. clear Hn. le_handler HP H.
  - unfold _handle_end_sys_dd in H. le_handler HP H.
  - unfold _parse_sys_proc_start in H. clear Hn. le_handler HP H.
  - unfold _handle_end_sys_proc in H. le_handler HP H.
  - unfold _parse_vrbl_declaration in H. clear Hn.
    destruct (strip_modifier _ _) as [md stmt].
    inv_result H; try exact HP.
    + eapply create_variables_le; eauto.
    + eapply create_variable_le; eauto.
  - unfold _parse_table_declaration in H. clear Hn. le_handler HP H.
  - unfold _handle_end_table in H. le_handler HP H.
  - unfold _parse_field_declaration in H. clear Hn. le_handler HP H.
  - unfold _parse_type_declaration in H. clear Hn. le_handler HP H.
  - unfold _handle_end_type in H. le_handler HP H.
  - unfold _parse_procedure_declaration in H. clear Hn.
    destruct (strip_modifier _ _) as [md stmt]. le_handler HP H.
  - unfold _parse_exec_proc_declaration in H. clear Hn.
    destruct (strip_modifier _ _) as [md stmt]. le_handler HP H.
  - unfold _handle_end_proc in H. le_handler HP H.
  - unfold _parse_function_declaration in H. clear Hn.
    destruct (strip_modifier _ _) as [md stmt]. le_handler HP H.
  - unfold _handle_end_function in H. le_handler HP H.
  - unfold _parse_cmode in H. clear Hn. le_handler HP H.
Qed.

Lemma parse_line_ends code m :
  parse code = Ok m → line_ends_from (statements code) m.
Proof.
  intros Hm.
  destruct (parse_invariant_in
              (fun self => line_ends_from (statements code) (model self))
              code m (le_new_model _)
              (fun self s n self' => parse_statement_le _ self s n self') Hm)
    as (self & HP & ->).
  exact HP.
Qed.

(** Without a statement of the branch, the default stays. *)
Lemma assigned_by_none k l n :
  Forall (fun s => classify (fst s) ≠ k) l → assigned_by k l n → n = 0.
Proof.
  intros Hl [-> | (s & Hs & Hk)]; [reflexivity|].
  rewrite Forall_forall in Hl. by destruct (Hl _ Hs).
Qed.

(** ** What the close handlers assign *)

Lemma open_in_current {V : Type} (k : str) (d : gmap str V) :
  k ≠ [] → is_Some (d !! k) → open_in (Some k) d = Some k.
Proof.
  intros Hk Hd. unfold open_in, key_in. simpl.
  destruct k; [done|]. simpl. by rewrite bool_decide_eq_true_2.
Qed.

Lemma end_sys_dd_sets self s n k b :
  current_sys_dd self = Some k → k ≠ [] →
  sys_data_blocks (model self) !! k = Some b →
  ∃ self', _handle_end_sys_dd self s n = Ok self' ∧
           sys_data_blocks (model self') !! k = Some (dd_set_line_end n b).
Proof.
  intros Hc Hk Hb. unfold _handle_end_sys_dd.
  rewrite Hc, open_in_current by eauto.
  unfold update_at, getitem. rewrite Hb. simpl.
  eexists. split; [reflexivity|]. simpl. apply lookup_insert_eq.
Qed.

Lemma end_sys_proc_sets self s n k b :
  current_sys_proc self = Some k → k ≠ [] →
  sys_proc_blocks (model self) !! k = Some b →
  ∃ self', _handle_end_sys_proc self s n = Ok self' ∧
           sys_proc_blocks (model self') !! k = Some (sp_set_line_end n b).
Proof.
  intros Hc Hk Hb. unfold _handle_end_sys_proc.
  rewrite Hc, open_in_current by eauto.
  unfold update_at, getitem. rewrite Hb. simpl.
  eexists. split; [reflexivity|]. simpl. apply lookup_insert_eq.
Qed.

Lemma end_function_sets self s n k f :
  current_function self = Some k → k ≠ [] →
  get_function (model self) k = Some f →
  ∃ self', _handle_end_function self s n = Ok self' ∧
           get_function (model self') k = Some (fn_set_line_end n f).
Proof.
  unfold get_function. intros Hc Hk Hb. unfold _handle_end_function.
  rewrite Hc, open_in_current by eauto.
  unfold update_at, getitem. rewrite Hb. simpl.
  eexists. split; [reflexivity|]. simpl. apply lookup_insert_eq.
Qed.

Lemma end_table_sets self s n k t :
  current_table self = Some k → k ≠ [] →
  get_table (model self) k = Some t →
  ∃ self', _handle_end_table self s n = Ok self' ∧
           get_table (model self') k = Some (t_set_line_end n t).
Proof.
  unfold get_table. intros Hc Hk Hb.
  destruct (tables (model self) !! k) as [r|] eqn:Hr; [|discriminate].
  simpl in Hb. unfold _handle_end_table.
  rewrite Hc, open_in_current by eauto.
  unfold update_obj_at, getitem. rewrite Hr. simpl.
  eexists. split; [reflexivity|]. simpl. rewrite Hr. simpl.
  rewrite list_lookup_alter_eq. by rewrite Hb.
Qed.

Lemma end_type_sets self s n k t :
  current_type self = Some k → k ≠ [] →
  get_type (model self) k = Some t →
  ∃ self', _handle_end_type self s n = Ok self' ∧
           get_type (model self') k = Some (ty_set_line_end n t).
Proof.
  unfold get_type. intros Hc Hk Hb.
  destruct (types (model self) !! k) as [r|] eqn:Hr; [|discriminate].
  simpl in Hb. unfold _handle_end_type.
  rewrite Hc, open_in_current by eauto.
  unfold update_obj_at, getitem. rewrite Hr. simpl.
  eexists. split; [reflexivity|]. simpl. rewrite Hr. simpl.
  rewrite list_lookup_alter_eq. by rewrite Hb.
Qed.

Lemma end_proc_sets self s n k p :
  current_procedure self = Some k → k ≠ [] →
  get_procedure (model self) k = Some p →
  ∃ self', _handle_end_proc self s n = Ok self' ∧
           get_procedure (model self') k = Some (p_set_line_end n p).
Proof.
  unfold get_procedure. intros Hc Hk Hb.
  destruct (procedures (model self) !! k) as [r|] eqn:Hr; [|discriminate].
  simpl in Hb. unfold _handle_end_proc.
  rewrite Hc, open_in_current by eauto.
  unfold update_obj_at, getitem. rewrite Hr. simpl.
  eexists. split; [reflexivity|]. simpl. rewrite Hr. simpl.
  rewrite list_lookup_alter_eq. by rewrite Hb.
Qed.

Lemma no_close_check (code : str) :
  forallb (fun s => negb (mentions_close (fst s))) (statements code) = true →
  Forall (fun s => mentions_close (fst s) = false) (statements code).
Proof.
  intros H. apply List.Forall_forall. intros s Hs.
  rewrite forallb_forall in H. specialize (H s Hs).
  by apply negb_true_iff in H.
Qed.




(** ** Case of the registry keys *)

Section UpperKeys.

Context {V : Type}.
Implicit Types (d : gmap str V).

Lemma uk_empty : upper_keys (∅ : gmap str V).
Proof. intros k [v Hv]. by rewrite lookup_empty in Hv. Qed.

Lemma uk_insert d k v :
  upper_keys d → upper k = k → upper_keys (<[k := v]> d).
Proof.
  intros Hd Hk k'. rewrite lookup_insert. case_decide; [by subst | apply Hd].
Qed.

Lemma uk_updated (g : option str) d d' (f : V → V) :
  upper_keys d →
  (d' = d ∨ ∃ k b, g = Some k ∧ d !! k = Some b ∧ d' = <[k := f b]> d) →
  upper_keys d'.
Proof.
  intros Hd [-> | (k & b & _ & Hb & ->)]; [exact Hd|].
  apply uk_insert; [exact Hd | apply Hd; eauto].
Qed.

End UpperKeys.

Lemma ru_new_model : registries_upper new_model.
Proof. split_and!; apply uk_empty. Qed.

Ltac ru_keys HP :=
  cbn;
  first
    [ exact (proj1 HP)
    | exact (proj1 (proj2 HP))
    | exact (proj1 (proj2 (proj2 HP)))
    | exact (proj1 (proj2 (proj2 (proj2 HP))))
    | exact (proj1 (proj2 (proj2 (proj2 (proj2 HP)))))
    | exact (proj2 (proj2 (proj2 (proj2 (proj2 HP)))))
    | apply uk_insert; [ru_keys HP | apply upper_idem]
    | eapply uk_updated; [ru_keys HP | eassumption] ].

Ltac ru_handler HP H :=
  inv_result H;
  first [ exact HP | unfold registries_upper; cbn; split_and!; ru_keys HP ].

Lemma create_variable_ru self name ts md n self' :
  registries_upper (model self) →
  _create_variable self name ts md n = Ok self' →
  registries_upper (model self').
Proof.
  intros HP H. unfold _create_variable in H. ru_handler HP H.
Qed.

Lemma create_variables_ru names : ∀ self ts md n self',
  registries_upper (model self) →
  create_variables self names ts md n = Ok self' →
  registries_upper (model self').
Proof.
  induction names as [|name names IH]; intros self ts md n self' HP; simpl.
  - by intros [= <-].
  - destruct (_create_variable self name ts md n) as [s1| |] eqn:E; simpl;
      try discriminate.
    apply IH. eapply create_variable_ru; eauto.
Qed.

Lemma parse_statement_ru self s n self' :
  registries_upper (model self) →
  _parse_statement self s n = Ok self' →
  registries_upper (model self').
Proof.
  intros HP H. unfold _parse_statement in H.
  repeat match type of H with
         | context [if ?b then _ else _] => destruct b
         end;
    try (injection H as <-; exact HP).
  - unfold _parse_sys_dd_start in H. ru_handler HP H.
  - unfold _handle_end_sys_dd in H. ru_handler HP H.
  - unfold _parse_sys_proc_start in H. ru_handler HP H.
  - unfold _handle_end_sys_proc in H. ru_handler HP H.
  - unfold _parse_vrbl_declaration in H.
    destruct (strip_modifier _ _) as [md stmt].
    inv_result H; try exact HP.
    + eapply create_variables_ru; eauto.
    + eapply create_variable_ru; eauto.
  - unfold _parse_table_declaration in H. ru_handler HP H.
  - unfold _handle_end_table in H. ru_handler HP H.
  - unfold _parse_field_declaration in H. ru_handler HP H.
  - unfold _parse_type_declaration in H. ru_handler HP H.
  - unfold _handle_end_type in H. ru_handler HP H.
  - unfold _parse_procedure_declaration in H.
    destruct (strip_modifier _ _) as [md stmt]. ru_handler HP H.
  - unfold _parse_exec_proc_declaration in H.
    destruct (strip_modifier _ _) as [md stmt]. ru_handler HP H.
  - unfold _handle_end_proc in H. ru_handler HP H.
  - unfold _parse_function_declaration in H.
    destruct (strip_modifier _ _) as [md stmt]. ru_handler HP H.
  - unfold _handle_end_function in H. ru_handler HP H.
  - unfold _parse_cmode in H. ru_handler HP H.
Qed.

(** C3, what the code does.  The grouped form stores the names as they are
    written: after "VRBL (lat, lon) A 32 S 16 $" the registry of variables
    has the keys "lat" and "lon" and neither "LAT" nor "LON", while the
    single form uppercases.  The other registries are not affected: after
    parsing any document the keys of the tables, types, procedures,
    functions, SYS-DD blocks and SYS-PROC blocks are uppercase. *)
Theorem grouped_vrbl_keeps_case :
  (∃ m, parse (txt "VRBL (lat, lon) A 32 S 16 $") = Ok m ∧
        is_Some (variables m !! txt "lat") ∧
        is_Some (variables m !! txt "lon") ∧
        variables m !! txt "LAT" = None ∧
        variables m !! txt "LON" = None) ∧
  (∃ m, parse (txt "VRBL lat A 32 S 16 $") = Ok m ∧
        is_Some (variables m !! txt "LAT") ∧
        variables m !! txt "lat" = None) ∧
  (∀ code m, parse code = Ok m → registries_upper m).
Proof.
  split_and!.
  - eexists. split; [vm_compute; reflexivity|].
    repeat split; vm_compute; eauto.
  - eexists. split; [vm_compute; reflexivity|].
    repeat split; vm_compute; eauto.
  - intros code m Hm.
    destruct (parse_invariant (fun self => registries_upper (model self))
                ru_new_model (fun _ _ H => H) parse_statement_ru code m Hm)
      as (self & HP & ->).
    exact HP.
Qed.

(** ** The order of the alternatives: what the procedure pattern captures *)

Section Priority.

Implicit Types (r : re) (st : mstate) (k : mstate → option mstate).

Lemma matches_frame r st st' :
  matches r st st' → ∀ n, n ∉ wgroups r → caps st' !! n = caps st !! n.
Proof.
  induction 1 as [st|p c t st Hr Hp|r1 r2 st1 st2 st3 H1 IH1 H2 IH2
                 |r1 r2 st st' _ IH|r1 r2 st st' _ IH|r st st' _ IH|r st
                 |g p st|g p c t st st' Hr Hp _ IH|n r st st' _ IH|st Hx|st Hx];
    simpl; intros m Hm; auto.
  - rewrite IH2, IH1; [reflexivity|..]; intros ?; apply Hm, elem_of_app; auto.
  - apply IH. intros ?; apply Hm, elem_of_app; auto.
  - apply IH. intros ?; apply Hm, elem_of_app; auto.
  - rewrite lookup_insert_ne.
    + apply IH. intros ?. apply Hm, elem_of_cons. auto.
    + intros ->. apply Hm, elem_of_cons. auto.
Qed.

(** A greedy repetition stops where the class stops, when the continuation
    accepts every such position. *)
Lemma star_greedy_max p l : ∀ st k,
  rest st = l →
  (∀ st', nohead p st' → caps st' = caps st → k st' ≠ None) →
  ∃ st', nohead p st' ∧ caps st' = caps st ∧ star_greedy p l st k = k st'.
Proof.
  induction l as [|c t IH]; intros st k Hr Hk; simpl.
  - exists st. split_and!; auto. unfold nohead. by rewrite Hr.
  - destruct (test p c) eqn:Hp.
    + destruct (IH (advance c t st) k eq_refl) as (st' & Hn & Hc & E).
      { intros st' Hn Hc. by apply Hk. }
      exists st'. split_and!; auto. rewrite E.
      destruct (k st') eqn:Ek; [reflexivity|]. by destruct (Hk st' Hn Hc).
    + exists st. split_and!; auto. unfold nohead. by rewrite Hr.
Qed.

(** A lazy repetition takes nothing when the continuation accepts that. *)
Lemma star_lazy_first p l st k :
  k st ≠ None → star_lazy p l st k = k st.
Proof. intros Hk. destruct l; simpl; destruct (k st); congruence. Qed.

Lemma run_ws1_nohead r st k :
  nohead CSpace st → run (Seq ws1 r) st k = None.
Proof.
  unfold nohead. simpl. destruct (rest st) as [|c t]; [reflexivity|].
  simpl. by intros ->.
Qed.

(** After the name and the blanks that follow it: OUTPUT and EXIT cannot
    begin, since they need a blank first. *)
Lemma proc_output_exit st :
  nohead CSpace st →
  run (Seq (Opt re_proc_output) (Opt re_proc_exit)) st Some = Some st.
Proof.
  intros Hn.
  change (match run (Seq ws1 (seqs [ilit "OUTPUT"; ws1;
                                    Grp 3 (Star false CAny)])) st
                  (fun st1 => run (Opt re_proc_exit) st1 Some) with
          | Some out => Some out
          | None =>
              match run (Seq ws1 (seqs [ilit "EXIT"; ws1;
                                        Grp 4 (Star true CAny)])) st Some with
              | Some out => Some out
              | None => Some st
              end
          end = Some st).
  by rewrite !run_ws1_nohead.
Qed.

Lemma nohead_set_cap p n st : nohead p st → nohead p (set_cap n st st).
Proof. done. Qed.

(** The INPUT part, when it matches, captures the empty string. *)
Lemma proc_tail st out :
  nohead CSpace st →
  run (Seq (Opt re_proc_input)
           (Seq (Opt re_proc_output) (Opt re_proc_exit))) st Some = Some out →
  caps out = caps st ∨ caps out = <[2 := []]> (caps st).
Proof.
  intros Hn.
  set (k1 := fun st1 =>
               run (Seq (Opt re_proc_output) (Opt re_proc_exit)) st1 Some).
  change (match run re_proc_input st k1 with
          | Some o => Some o
          | None => k1 st
          end = Some out → caps out = caps st ∨ caps out = <[2 := []]> (caps st)).
  destruct (run re_proc_input st k1) as [o|] eqn:E.
  - intros [= <-]. right.
    change (run (ilit "INPUT") st
              (fun s1 => run ws1 s1
                 (fun s2 => run (Grp 2 (Star false CAny)) s2 k1)) = Some o)
      in E.
    apply run_sound in E as (s1 & M1 & E).
    pose proof (matches_frame _ _ _ M1) as F1.
    assert (caps s1 = caps st) as C1.
    { apply map_eq. intros n. apply F1. vm_compute. by intros H%elem_of_nil. }
    simpl in E. destruct (rest s1) as [|c t] eqn:Hr; [discriminate|].
    destruct (is_space_c c) eqn:Hc; [|discriminate].
    set (kk := fun s2 => star_lazy CAny (rest s2) s2
                           (fun s4 => k1 (set_cap 2 s2 s4))) in E.
    assert (∀ s', nohead CSpace s' → kk s' = Some (set_cap 2 s' s')) as Hkk.
    { intros s' Hs'. unfold kk. rewrite star_lazy_first.
      - unfold k1. by rewrite proc_output_exit.
      - unfold k1. by rewrite proc_output_exit. }
    destruct (star_greedy_max CSpace t (advance c t s1) kk eq_refl)
      as (s' & Hs' & Cs' & E').
    { intros s' Hs' _. by rewrite Hkk. }
    rewrite E', Hkk in E by exact Hs'. injection E as <-.
    simpl. rewrite Nat.sub_diag. simpl. rewrite Cs'. simpl. by rewrite C1.
  - unfold k1. rewrite proc_output_exit by exact Hn. intros [= <-]. by left.
Qed.

Lemma proc_tail_some st :
  nohead CSpace st →
  run (Seq (Opt re_proc_input)
           (Seq (Opt re_proc_output) (Opt re_proc_exit))) st Some ≠ None.
Proof.
  intros Hn.
  set (k1 := fun st1 =>
               run (Seq (Opt re_proc_output) (Opt re_proc_exit)) st1 Some).
  change (match run re_proc_input st k1 with
          | Some o => Some o
          | None => k1 st
          end ≠ None).
  destruct (run re_proc_input st k1); [done|].
  unfold k1. by rewrite proc_output_exit.
Qed.

(** The groups of a match of the procedure pattern: OUTPUT and EXIT never
    take part, and INPUT captures nothing. *)
Lemma re_procedure_groups stmt mt :
  re_match re_procedure stmt = Some mt →
  (group mt 2 = None ∨ group mt 2 = Some []) ∧
  group mt 3 = None ∧ group mt 4 = None.
Proof.
  unfold re_match, match_at.
  destruct (run re_procedure (start_state stmt) Some) as [out|] eqn:E;
    [|discriminate].
  intros [= <-]. unfold group. simpl.
  change (run (Seq (seqs [ilit "PROCEDURE"; ws1; Grp 1 ident])
                   (Seq ws0 (Seq (Opt re_proc_input)
                       (Seq (Opt re_proc_output) (Opt re_proc_exit)))))
              (start_state stmt) Some = Some out) in E.
  change (run (Seq ?a ?b) ?st ?k) with (run a st (fun s => run b s k)) in E.
  apply run_sound in E as (s1 & M1 & E).
  assert (∀ n, n ≠ 1 → caps s1 !! n = None) as C1.
  { intros n Hn. rewrite (matches_frame _ _ _ M1); [apply lookup_empty|].
    change (n ∉ [1]). intros [->|H%elem_of_nil]%elem_of_cons; done. }
  change (star_greedy CSpace (rest s1) s1
            (fun s => run (Seq (Opt re_proc_input)
                      (Seq (Opt re_proc_output) (Opt re_proc_exit))) s Some)
          = Some out) in E.
  destruct (star_greedy_max CSpace (rest s1) s1
              (fun s => run (Seq (Opt re_proc_input)
                        (Seq (Opt re_proc_output) (Opt re_proc_exit))) s Some)
              eq_refl) as (s2 & Hn & C2 & E2).
  { intros s' Hs' _. by apply proc_tail_some. }
  rewrite E2 in E. apply proc_tail in E; [|exact Hn].
  rewrite C2 in E. destruct E as [-> | ->].
  - rewrite !C1 by done. auto.
  - rewrite lookup_insert_eq, !lookup_insert_ne, !C1 by done. auto.
Qed.

End Priority.

(** ** Parameters of a procedure *)

Ltac np_objs HP :=
  cbn;
  first
    [ exact HP
    | match goal with
      | Ho : _ ∨ _ |- Forall _ _ =>
          destruct Ho as [-> | (? & ? & _ & _ & ->)];
          [ exact HP
          | apply Forall_alter; [exact HP | intros ? _ Hp; exact Hp] ]
      end
    | apply Forall_app; split; [exact HP|];
      constructor; [|constructor]; intros Hexec; cbn in Hexec |- *;
      first
        [ discriminate Hexec
        | match goal with
          | E : re_match re_procedure _ = Some _ |- _ =>
              destruct (re_procedure_groups _ _ E) as ([-> | ->] & -> & ->);
              split_and!; reflexivity
          end ] ].

Ltac np_handler HP H := inv_result H; np_objs HP.

Lemma create_variable_np self name ts md n self' :
  Forall no_parameters (proc_objs (model self)) →
  _create_variable self name ts md n = Ok self' →
  Forall no_parameters (proc_objs (model self')).
Proof.
  intros HP H. unfold _create_variable in H. np_handler HP H.
Qed.

Lemma create_variables_np names : ∀ self ts md n self',
  Forall no_parameters (proc_objs (model self)) →
  create_variables self names ts md n = Ok self' →
  Forall no_parameters (proc_objs (model self')).
Proof.
  induction names as [|name names IH]; intros self ts md n self' HP; simpl.
  - by intros [= <-].
  - destruct (_create_variable self name ts md n) as [s1| |] eqn:E; simpl;
      try discriminate.
    apply IH. eapply create_variable_np; eauto.
Qed.

Lemma parse_statement_np self s n self' :
  Forall no_parameters (proc_objs (model self)) →
  _parse_statement self s n = Ok self' →
  Forall no_parameters (proc_objs (model self')).
Proof.
  intros HP H. unfold _parse_statement in H.
  repeat match type of H with
         | context [if ?b then _ else _] => destruct b
         end;
    try (injection H as <-; exact HP).
  - unfold _parse_sys_dd_start in H. np_handler HP H.
  - unfold _handle_end_sys_dd in H. np_handler HP H.
  - unfold _parse_sys_proc_start in H. np_handler HP H.
  - unfold _handle_end_sys_proc in H. np_handler HP H.
  - unfold _parse_vrbl_declaration in H.
    destruct (strip_modifier _ _) as [md stmt].
    inv_result H; try exact HP.
    + eapply create_variables_np; eauto.
    + eapply create_variable_np; eauto.
  - unfold _parse_table_declaration in H. np_handler HP H.
  - unfold _handle_end_table in H. np_handler HP H.
  - unfold _parse_field_declaration in H. np_handler HP H.
  - unfold _parse_type_declaration in H. np_handler HP H.
  - unfold _handle_end_type in H. np_handler HP H.
  - unfold _parse_procedure_declaration in H.
    destruct (strip_modifier _ _) as [md stmt]. np_handler HP H.
  - unfold _parse_exec_proc_declaration in H.
    destruct (strip_modifier _ _) as [md stmt]. np_handler HP H.
  - unfold _handle_end_proc in H. np_handler HP H.
  - unfold _parse_function_declaration in H.
    destruct (strip_modifier _ _) as [md stmt]. np_handler HP H.
  - unfold _handle_end_function in H. np_handler HP H.
  - unfold _parse_cmode in H. np_handler HP H.
Qed.

(** C1, what the code does.  On scenario 5 the lazy group after INPUT
    matches the empty string and the optional OUTPUT and EXIT parts match
    nothing: the procedure UPDATE is recorded with no parameters at all.
    This is so on every statement: in a match of the procedure pattern the
    groups of OUTPUT and EXIT never take part and the group of INPUT is
    empty, so after parsing any document no PROCEDURE has a parameter. *)
Theorem procedure_parameters_lost :
  (∃ mt, re_match re_procedure (txt "PROCEDURE UPDATE INPUT A, B OUTPUT C")
           = Some mt ∧
         group mt 1 = Some (txt "UPDATE") ∧ group mt 2 = Some [] ∧
         group mt 3 = None ∧ group mt 4 = None) ∧
  (∃ m p, parse scenario_5 = Ok m ∧
          get_procedure m (txt "UPDATE") = Some p ∧
          p_is_exec p = false ∧ p_line_start p = 0 ∧ p_line_end p = 1 ∧
          p_input_params p = [] ∧ p_output_params p = [] ∧
          p_exit_params p = []) ∧
  (∀ stmt mt, re_match re_procedure stmt = Some mt →
     (group mt 2 = None ∨ group mt 2 = Some []) ∧
     group mt 3 = None ∧ group mt 4 = None) ∧
  (∀ code m, parse code = Ok m → Forall no_parameters (proc_objs m)).
Proof.
  split_and!.
  - eexists. split; [vm_compute; reflexivity|]. repeat split.
  - eexists _, _. split; [vm_compute; reflexivity|].
    split; [vm_compute; reflexivity|]. repeat split.
  - apply re_procedure_groups.
  - intros code m Hm.
    destruct (parse_invariant
                (fun self => Forall no_parameters (proc_objs (model self)))
                (Forall_nil_2 _) (fun _ _ H => H) parse_statement_np code m Hm)
      as (self & HP & ->).
    exact HP.
Qed.

(** ** The word under the cursor *)

Section HoverWord.

Implicit Types (r : re) (st : mstate).

(** The text of [c q*]: a character of [p] and then characters of [q]. *)
Lemma matches_plus_text p g q st st' :
  matches (Seq (Chr p) (Star g q)) st st' →
  ∃ c w, take (pos st' - pos st) (rest st) = c :: w ∧
         test p c = true ∧ forallb (test q) w = true.
Proof.
  intros H.
  inversion H as [| |? ? ? st2 ? H1 H2| | | | | | | | |]; subst.
  inversion H1 as [|? c t ? Hr Hp| | | | | | | | | |]; subst.
  destruct (matches_star_text _ _ _ _ H2) as (w & E & P & F).
  simpl in E, P. exists c, w. rewrite Hr, E, P.
  replace (S (pos st + length w) - pos st) with (S (length w)) by lia.
  simpl take. by rewrite take_app_length.
Qed.

(** Every match that [finditer] yields is a match at some position, with no
    group set before. *)
Lemma finditer_from_matches r l : ∀ i pv skip,
  Forall (fun mt => ∃ st, caps st = ∅ ∧ match_at r st = Some mt)
         (finditer_from r l i pv skip).
Proof.
  induction l as [|c t IH]; intros i pv skip; simpl.
  - destruct skip; [|constructor].
    destruct (match_at r _) eqn:E; [|constructor].
    constructor; [|constructor]. eexists. split; [|exact E]. reflexivity.
  - destruct skip; [|apply IH].
    destruct (match_at r _) eqn:E; [|apply IH].
    constructor; [|apply IH]. eexists. split; [|exact E]. reflexivity.
Qed.

Lemma alnum_upper_not_underscore c :
  test CAlnum c = true → upper_c c ≠ "_"%char.
Proof.
  destruct c as [[] [] [] [] [] [] [] []]; vm_compute; congruence.
Qed.

(** The word of a match of the hover pattern has letters and digits only. *)
Lemma hover_match_word st mt :
  caps st = ∅ → match_at re_hover_word st = Some mt →
  ∃ w, group mt 1 = Some w ∧ forallb (test CAlnum) w = true.
Proof.
  intros Hc H. destruct (match_at_sound _ _ _ H) as (out & Hm & _ & _ & Hg).
  unfold group. rewrite Hg. clear H Hg.
  change re_hover_word
    with (Seq WordB (Seq (Grp 1 alnum_word) WordB)) in Hm.
  inversion Hm as [| |? ? ? s1 ? H1 H2| | | | | | | | |]; subst.
  inversion H1; subst.
  inversion H2 as [| |? ? ? s2 ? H3 H4| | | | | | | | |]; subst.
  inversion H4; subst.
  inversion H3 as [| | | | | | | | |? ? ? s3 H5| |]; subst.
  destruct (matches_plus_text _ _ _ _ _ H5) as (c & w & E & Hp & Hw).
  exists (c :: w). simpl. rewrite lookup_insert_eq, E. split; [reflexivity|].
  simpl. rewrite Hw, andb_true_r. simpl in Hp.
  unfold is_alpha_c in *. by rewrite Hp.
Qed.

Lemma hover_word_no_underscore self line column w :
  hover_word self line column = Ok (Some w) → "_"%char ∉ w.
Proof.
  unfold hover_word. destruct (line_at _ _) as [l|]; [|discriminate].
  destruct (match_at_column _ _ _) as [mt|] eqn:E; [|discriminate].
  unfold match_at_column in E. apply find_some in E as [Hin _].
  pose proof (finditer_from_matches re_hover_word l 0 None 0) as HF.
  rewrite List.Forall_forall in HF.
  destruct (HF mt Hin) as (st & Hc & Hm).
  destruct (hover_match_word st mt Hc Hm) as (g & -> & Hg).
  simpl. intros [= <-]. unfold upper.
  intros (c & Hu & Hc')%list_elem_of_fmap.
  rewrite forallb_forall in Hg.
  apply (alnum_upper_not_underscore c); [|done].
  apply Hg. by apply list_elem_of_In.
Qed.

End HoverWord.

(** C7, what the code does.  On the line "VRBL STATUS_OK B $", column 7,
    [_get_word_at_position] answers STATUS_OK, but the pattern of
    [get_hover_info] has no underscore in its class: it finds no word inside
    STATUS_OK, so hover answers nothing for a variable that is declared.
    In general the word that hover resolves never contains an underscore. *)
Theorem hover_misses_underscore :
  _get_word_at_position (txt "VRBL STATUS_OK B $") 7
    = Ok (Some (txt "STATUS_OK")) ∧
  (∃ self, parse_self new_parser (txt "VRBL STATUS_OK B $") = Ok self ∧
           is_Some (get_variable (model self) (txt "STATUS_OK")) ∧
           hover_word self 0 7 = Ok None ∧
           get_hover_info self 0 7 = Ok None) ∧
  (∀ self line column w,
     hover_word self line column = Ok (Some w) → "_"%char ∉ w).
Proof.
  split_and!.
  - vm_compute. reflexivity.
  - eexists. split; [vm_compute; reflexivity|].
    repeat split; vm_compute; eauto.
  - apply hover_word_no_underscore.
Qed.

(** ** The word that ends a line *)

Section WordAtEnd.

Context (q : cls).
Hypothesis Hq : ∀ c, test q c = true → is_word_c c = true.

Implicit Types (st : mstate).

Lemma letter_word c : test CLetter c = true → is_word_c c = true.
Proof. simpl. unfold is_word_c. by intros ->. Qed.

Lemma star_greedy_all p l : ∀ st k out,
  forallb (test p) l = true → k (eat l st) = Some out →
  star_greedy p l st k = Some out.
Proof.
  induction l as [|c t IH]; intros st k out; simpl; [auto|].
  intros [Hc Ht]%andb_prop Hk. rewrite Hc.
  by rewrite (IH _ _ _ Ht Hk).
Qed.

Lemma eat_pos l : ∀ st, pos (eat l st) = pos st + length l.
Proof.
  induction l as [|c t IH]; intros st; simpl; [lia|].
  rewrite IH. simpl. lia.
Qed.

Lemma eat_caps l : ∀ st, caps (eat l st) = caps st.
Proof. induction l as [|c t IH]; intros st; simpl; [done|]. by rewrite IH. Qed.

Lemma eat_rest c t : ∀ st, rest (eat (c :: t) st) = [].
Proof.
  revert c. induction t as [|a t IH]; intros c st; [reflexivity|].
  change (eat (c :: a :: t) st) with (eat (a :: t) (advance c (a :: t) st)).
  apply IH.
Qed.

Lemma eat_prev c t : ∀ st, ∃ a, prev (eat (c :: t) st) = Some a ∧ a ∈ c :: t.
Proof.
  revert c. induction t as [|a t IH]; intros c st.
  - exists c. split; [reflexivity | apply elem_of_cons; auto].
  - change (eat (c :: a :: t) st) with (eat (a :: t) (advance c (a :: t) st)).
    destruct (IH a (advance c (a :: t) st)) as (x & E & Hx).
    exists x. split; [exact E | apply elem_of_cons; auto].
Qed.

(** The pattern matches a word that stands at a boundary and runs to the
    end of the text. *)
Lemma match_word_at i pv c t :
  test CLetter c = true → forallb (test q) t = true →
  match pv with Some a => is_word_c a = false | None => True end →
  match_at (word_re q) (MState i pv (c :: t) ∅)
  = Some (PyMatch i (i + S (length t)) {[1 := c :: t]}).
Proof.
  intros Hc Ht Hpv. unfold match_at, word_re. simpl seqs.
  set (st := MState i pv (c :: t) ∅).
  assert (word_before st = false) as Hb.
  { unfold word_before. simpl. destruct pv; [exact Hpv | reflexivity]. }
  assert (word_after st = true) as Ha.
  { unfold word_after. simpl. by apply letter_word. }
  change (run _ st Some) with
    (if xorb (word_before st) (word_after st)
     then (if test CLetter c
           then star_greedy q t (advance c t st)
                  (fun st1 => run WordB (set_cap 1 st st1) Some)
           else None)
     else None).
  rewrite Hb, Ha, Hc. simpl xorb. cbv iota.
  rewrite (star_greedy_all q t (advance c t st) _
             (set_cap 1 st (eat t (advance c t st))) Ht).
  - simpl. rewrite eat_pos, eat_caps. simpl.
    replace (S (i + length t) - i) with (S (length t)) by lia.
    rewrite take_ge by (simpl; lia).
    replace (S (i + length t)) with (i + S (length t)) by lia. reflexivity.
  - simpl run.
    change (eat t (advance c t st)) with (eat (c :: t) st).
    assert (xorb (word_before (set_cap 1 st (eat (c :: t) st)))
                 (word_after (set_cap 1 st (eat (c :: t) st))) = true) as Hx.
    { pose proof (eat_rest c t st) as Hr.
      destruct (eat_prev c t st) as (a & Hp & Hin).
      unfold word_before, word_after, set_cap. cbn [prev rest].
      rewrite Hr, Hp.
      apply elem_of_cons in Hin as [-> | Hin].
      - by rewrite letter_word.
      - rewrite Hq; [reflexivity|].
        rewrite forallb_forall in Ht. apply Ht. by apply list_elem_of_In. }
    by rewrite Hx.
Qed.

Lemma no_match_at_end i pv : match_at (word_re q) (MState i pv [] ∅) = None.
Proof. unfold match_at, word_re. simpl. by destruct (xorb _ _). Qed.

Lemma finditer_skip_all t : ∀ i pv,
  finditer_from (word_re q) t i pv (length t) = [].
Proof.
  induction t as [|c t IH]; intros i pv; simpl.
  - by rewrite no_match_at_end.
  - apply IH.
Qed.

(** What a match of the pattern has read. *)
Lemma word_match_text st mt :
  match_at (word_re q) st = Some mt →
  ∃ c t, rest st = (c :: t) ++ drop (S (length t)) (rest st) ∧
         test CLetter c = true ∧ forallb (test q) t = true ∧
         m_start mt = pos st ∧ m_end mt = pos st + S (length t) ∧
         group mt 1 = Some (c :: t) ∧ word_before st = false.
Proof.
  intros H. destruct (match_at_sound _ _ _ H) as (out & Hm & Hs & He & Hg).
  unfold group. rewrite Hg, Hs, He. clear H Hg Hs He.
  change (word_re q)
    with (Seq WordB (Seq (Grp 1 (Seq (Chr CLetter) (Star true q))) WordB))
    in Hm.
  inversion Hm as [| |? ? ? s1 ? H1 H2| | | | | | | | |]; subst.
  inversion H1 as [| | | | | | | | | |? Hx|]; subst.
  inversion H2 as [| |? ? ? s2 ? H3 H4| | | | | | | | |]; subst.
  inversion H4; subst.
  inversion H3 as [| | | | | | | | |? ? ? s3 H5| |]; subst.
  destruct (matches_plus_text _ _ _ _ _ H5) as (c & w & E & Hp & Hw).
  destruct (matches_consumes _ _ _ H5) as (w0 & E0 & P0).
  rewrite P0 in E.
  replace (pos s1 + length w0 - pos s1) with (length w0) in E by lia.
  rewrite E0, take_app_length in E. subst w0.
  exists c, w.
  assert (take (pos s3 - pos s1) (rest s1) = c :: w) as Eg.
  { rewrite P0, E0.
    replace (pos s1 + length (c :: w) - pos s1) with (length (c :: w)) by lia.
    apply take_app_length. }
  split_and!; auto.
  - rewrite E0 at 2. change (S (length w)) with (length (c :: w)).
    by rewrite drop_app_length.
  - simpl. by rewrite lookup_insert_eq, Eg.
  - assert (word_after s1 = true) as Ha.
    { unfold word_after. rewrite E0. simpl. by apply letter_word. }
    rewrite Ha in Hx. by destruct (word_before s1).
Qed.

(** The text of a match is made of word characters. *)
Lemma word_match_chars st mt :
  match_at (word_re q) st = Some mt →
  ∃ c t, rest st = (c :: t) ++ drop (S (length t)) (rest st) ∧
         m_end mt = pos st + S (length t) ∧
         forallb is_word_c (c :: t) = true.
Proof.
  intros H. destruct (word_match_text _ _ H) as (c & t & E & Hc & Ht & _ & He & _).
  exists c, t. split_and!; auto.
  simpl. rewrite (letter_word _ Hc). simpl.
  apply forallb_forall. intros x Hx. apply Hq.
  rewrite forallb_forall in Ht. by apply Ht.
Qed.

Lemma clear_before_cons pv a pre :
  clear_before pv (a :: pre) → clear_before (Some a) pre.
Proof.
  unfold clear_before. rewrite last_cons.
  by destruct (last pre).
Qed.

Lemma clear_before_word pv a pre :
  clear_before pv (a :: pre) → is_word_c a = true →
  ∃ x, last pre = Some x ∧ is_word_c x = false.
Proof.
  unfold clear_before. rewrite last_cons.
  destruct (last pre) as [x|]; [eauto|]. congruence.
Qed.

Lemma last_elem_of {A} (l : list A) x : last l = Some x → x ∈ l.
Proof.
  induction l as [|a l IH]; [discriminate|].
  rewrite last_cons. destruct (last l) as [y|].
  - intros [= ->]. apply elem_of_cons. auto.
  - intros [= ->]. apply elem_of_cons. auto.
Qed.

(** [finditer] on a line that ends with a word: the last match is the word,
    and no match before it reaches the end of the line. *)
Lemma finditer_from_last_word c t pre : ∀ i pv skip,
  test CLetter c = true → forallb (test q) t = true →
  skip ≤ length pre → forallb is_word_c (take skip pre) = true →
  clear_before pv pre →
  ∃ ms, finditer_from (word_re q) (pre ++ c :: t) i pv skip
        = ms ++ [PyMatch (i + length pre) (i + length pre + S (length t))
                         {[1 := c :: t]}] ∧
        Forall (fun m => m_end m < i + length pre + S (length t)) ms.
Proof.
  intros i pv skip Hc Ht. revert i pv skip.
  induction pre as [|a pre IH]; intros i pv skip Hs Hw Hb.
  - assert (skip = 0) as -> by (simpl in Hs; lia).
    exists []. split; [|constructor].
    simpl app. simpl finditer_from.
    rewrite match_word_at by (auto; exact Hb).
    simpl m_end.
    replace (i + S (length t) - i - 1) with (length t) by lia.
    rewrite finditer_skip_all. simpl.
    by rewrite Nat.add_0_r.
  - assert (∀ k, k ≤ length pre → forallb is_word_c (take k pre) = true →
              ∃ ms, finditer_from (word_re q) (pre ++ c :: t) (S i) (Some a) k
                    = ms ++ [PyMatch (i + length (a :: pre))
                                     (i + length (a :: pre) + S (length t))
                                     {[1 := c :: t]}] ∧
                    Forall (fun m => m_end m
                                     < i + length (a :: pre) + S (length t)) ms)
      as Hnext.
    { intros k Hk Hkw.
      destruct (IH (S i) (Some a) k Hk Hkw (clear_before_cons _ _ _ Hb))
        as (ms & E & F).
      exists ms. simpl length.
      replace (i + S (length pre)) with (S i + length pre) by lia.
      auto. }
    destruct skip as [|k].
    + change (finditer_from (word_re q) ((a :: pre) ++ c :: t) i pv 0)
        with (match match_at (word_re q) (MState i pv (a :: pre ++ c :: t) ∅) with
              | Some m => m :: finditer_from (word_re q) (pre ++ c :: t) (S i)
                                 (Some a) (m_end m - i - 1)
              | None => finditer_from (word_re q) (pre ++ c :: t) (S i)
                          (Some a) 0
              end).
      destruct (match_at _ _) as [m|] eqn:E.
      * destruct (word_match_chars _ _ E) as (c0 & t0 & Er & He & Hw0).
        simpl in Er, He. injection Er as <- Er.
        simpl in Hw0. apply andb_prop in Hw0 as [Ha Hw0].
        destruct (clear_before_word _ _ _ Hb Ha) as (x & Hx & Hxw).
        assert (length t0 < length pre) as Hlt.
        { destruct (decide (length t0 < length pre)) as [|Hge]; [assumption|].
          exfalso. apply last_elem_of in Hx.
          assert (x ∈ t0) as Hin.
          { assert (take (length pre) (pre ++ c :: t)
                    = take (length pre) (t0 ++ drop (length t0)
                                           (pre ++ c :: t))) as Et
              by (by rewrite <- Er).
            rewrite take_app_length in Et.
            rewrite take_app_le in Et by lia.
            rewrite Et in Hx.
            apply list_elem_of_In in Hx. apply list_elem_of_In.
            exact (proj1 (list_elem_of_In _ _)
                     (subseteq_take _ _ _ (proj2 (list_elem_of_In _ _) Hx))). }
          rewrite forallb_forall in Hw0.
          apply list_elem_of_In in Hin. rewrite (Hw0 _ Hin) in Hxw.
          discriminate. }
        assert (take (length t0) pre = t0) as Et.
        { assert (take (length t0) (pre ++ c :: t)
                  = take (length t0) (t0 ++ drop (length t0)
                                         (pre ++ c :: t))) as Et
            by (by rewrite <- Er).
          rewrite take_app_length in Et.
          by rewrite take_app_le in Et by lia. }
        rewrite He. replace (i + S (length t0) - i - 1) with (length t0) by lia.
        destruct (Hnext (length t0)) as (ms & E2 & F); [lia|by rewrite Et|].
        exists (m :: ms). rewrite E2. split; [reflexivity|].
        constructor; [|exact F]. rewrite He. simpl. lia.
      * destruct (Hnext 0) as (ms & E2 & F); [lia|reflexivity|].
        exists ms. auto.
    + change (finditer_from (word_re q) ((a :: pre) ++ c :: t) i pv (S k))
        with (finditer_from (word_re q) (pre ++ c :: t) (S i) (Some a) k).
      simpl in Hs, Hw. apply andb_prop in Hw as [_ Hw].
      apply Hnext; [lia | exact Hw].
Qed.

Lemma prev_at_cons pv c l k :
  prev_at pv (c :: l) (S k) = prev_at (Some c) l k.
Proof. unfold prev_at. simpl take. rewrite last_cons. by destruct (last _). Qed.

(** Every match that [finditer] yields is the match at some offset of the
    line. *)
Lemma finditer_from_states r l : ∀ i pv skip,
  Forall (fun mt => ∃ k, k ≤ length l ∧
            match_at r (MState (i + k) (prev_at pv l k) (drop k l) ∅) = Some mt)
         (finditer_from r l i pv skip).
Proof.
  assert (∀ c t i pv skip,
            Forall (fun mt => ∃ k, k ≤ length t ∧
                      match_at r (MState (S i + k) (prev_at (Some c) t k)
                                         (drop k t) ∅) = Some mt)
                   (finditer_from r t (S i) (Some c) skip) →
            Forall (fun mt => ∃ k, k ≤ length (c :: t) ∧
                      match_at r (MState (i + k) (prev_at pv (c :: t) k)
                                         (drop k (c :: t)) ∅) = Some mt)
                   (finditer_from r t (S i) (Some c) skip)) as Hshift.
  { intros c t i pv skip HF. eapply Forall_impl; [exact HF|].
    intros mt (k & Hk & E). exists (S k). split; [simpl; lia|].
    rewrite prev_at_cons. simpl drop.
    by replace (i + S k) with (S i + k) by lia. }
  assert (∀ l i pv mt, match_at r (MState i pv l ∅) = Some mt →
            ∃ k, k ≤ length l ∧
              match_at r (MState (i + k) (prev_at pv l k) (drop k l) ∅)
              = Some mt) as Hhere.
  { intros l0 i pv mt E. exists 0. split; [lia|].
    rewrite Nat.add_0_r. unfold prev_at. simpl. by rewrite drop_0. }
  induction l as [|c t IH]; intros i pv skip; simpl.
  - destruct skip; [|constructor].
    destruct (match_at r _) eqn:E; [|constructor].
    constructor; [|constructor]. by apply (Hhere []).
  - destruct skip; [|apply Hshift, IH].
    destruct (match_at r _) eqn:E; [|apply Hshift, IH].
    constructor; [by apply (Hhere (c :: t))|apply Hshift, IH].
Qed.

Lemma find_app_last {A} (f : A → bool) (l : list A) (x : A) :
  Forall (fun y => f y = false) l → f x = true →
  List.find f (l ++ [x]) = Some x.
Proof.
  induction 1 as [|y l Hy _ IH]; intros Hx; simpl.
  - by rewrite Hx.
  - rewrite Hy. by apply IH.
Qed.

(** At the column equal to the length of the line, the match that spans
    the column is the word that ends the line. *)
Lemma match_at_column_end_word line w :
  ends_with_word q line w →
  ∃ mt, match_at_column (word_re q) line (Z.of_nat (length line)) = Some mt ∧
        group mt 1 = Some w.
Proof.
  intros (pre & -> & Hb & Hw).
  destruct w as [|c t]; [discriminate|].
  simpl in Hw. apply andb_prop in Hw as [Hc Ht].
  destruct (finditer_from_last_word c t pre 0 None 0 Hc Ht) as (ms & E & F).
  - lia.
  - reflexivity.
  - unfold clear_before. unfold boundary_after in Hb.
    destruct (last pre); [by apply negb_true_iff in Hb | exact I].
  - exists (PyMatch (0 + length pre) (0 + length pre + S (length t))
                    {[1 := c :: t]}).
    split; [|apply lookup_singleton_eq]. unfold match_at_column, finditer.
    rewrite E. apply find_app_last.
    + eapply Forall_impl; [exact F|]. intros m Hm. unfold spans.
      apply andb_false_intro2. apply Z.leb_gt.
      rewrite length_app. simpl length. simpl in Hm. lia.
    + unfold spans. simpl. rewrite length_app. simpl length.
      apply andb_true_intro. split; apply Z.leb_le; lia.
Qed.

(** And a match that spans that column is a word that ends the line. *)
Lemma match_at_column_end_inv line mt :
  match_at_column (word_re q) line (Z.of_nat (length line)) = Some mt →
  ∃ w, group mt 1 = Some w ∧ ends_with_word q line w.
Proof.
  unfold match_at_column. intros [Hin Hs]%find_some.
  pose proof (finditer_from_states (word_re q) line 0 None 0) as HF.
  rewrite List.Forall_forall in HF.
  destruct (HF mt Hin) as (k & Hk & E).
  pose proof (finditer_from_end (word_re q) line 0 None 0) as HE.
  rewrite List.Forall_forall in HE. specialize (HE mt Hin). simpl in HE.
  destruct (word_match_text _ _ E) as (c & t & Er & Hc & Ht & _ & He & Hg & Hb).
  simpl in Er, He, Hb.
  unfold spans in Hs. apply andb_prop in Hs as [_ Hs]. apply Z.leb_le in Hs.
  assert (length (drop k line) = S (length t)) as Hlen
    by (rewrite length_drop; lia).
  assert (drop k line = c :: t) as Ed.
  { rewrite Er. rewrite drop_ge by lia. by rewrite app_nil_r. }
  exists (c :: t). split; [exact Hg|].
  exists (take k line). split_and!.
  - by rewrite <- Ed, take_drop.
  - unfold boundary_after. unfold word_before, prev_at in Hb. simpl in Hb.
    destruct (last (take k line)); [by rewrite Hb | reflexivity].
  - change (test CLetter c && forallb (test q) t = true). by rewrite Hc, Ht.
Qed.

End WordAtEnd.

Lemma ident_word_c c : test CIdent c = true → is_word_c c = true.
Proof.
  destruct c as [[] [] [] [] [] [] [] []]; vm_compute; congruence.
Qed.

Lemma alnum_word_c c : test CAlnum c = true → is_word_c c = true.
Proof.
  destruct c as [[] [] [] [] [] [] [] []]; vm_compute; congruence.
Qed.

(** The word under a cursor at the end of the line, for the server. *)
Lemma get_word_at_end line :
  (∀ w, ends_with_word CIdent line w →
        _get_word_at_position line (Z.of_nat (length line))
        = Ok (Some (upper w))) ∧
  (_get_word_at_position line (Z.of_nat (length line)) = Ok None ∨
   ∃ w, ends_with_word CIdent line w ∧
        _get_word_at_position line (Z.of_nat (length line))
        = Ok (Some (upper w))).
Proof.
  unfold _get_word_at_position. change re_word with (word_re CIdent). split.
  - intros w Hw.
    destruct (match_at_column_end_word CIdent ident_word_c line w Hw)
      as (mt & -> & Hg).
    by rewrite Hg.
  - destruct (match_at_column _ _ _) as [mt|] eqn:E; [|by left].
    destruct (match_at_column_end_inv CIdent line mt E) as (w & Hg & Hw).
    right. exists w. split; [exact Hw|]. by rewrite Hg.
Qed.

(** And for the hover of the parser. *)
Lemma hover_word_at_end self n line :
  line_at (lines self) n = Some line →
  (∀ w, ends_with_word CAlnum line w →
        hover_word self n (Z.of_nat (length line)) = Ok (Some (upper w))) ∧
  (hover_word self n (Z.of_nat (length line)) = Ok None ∨
   ∃ w, ends_with_word CAlnum line w ∧
        hover_word self n (Z.of_nat (length line)) = Ok (Some (upper w))).
Proof.
  intros Hl. unfold hover_word. rewrite Hl.
  change re_hover_word with (word_re CAlnum). split.
  - intros w Hw.
    destruct (match_at_column_end_word CAlnum alnum_word_c line w Hw)
      as (mt & -> & Hg).
    by rewrite Hg.
  - destruct (match_at_column _ _ _) as [mt|] eqn:E; [|by left].
    destruct (match_at_column_end_inv CAlnum line mt E) as (w & Hg & Hw).
    right. exists w. split; [exact Hw|]. by rewrite Hg.
Qed.

(** Where C5 fails: the span test is inclusive at both ends, so a query at
    the column equal to the length of the line resolves to the identifier
    that ends the line. *)
Lemma word_at_end_of_line_resolves :
  _get_word_at_position (txt "VRBL X") (Z.of_nat (length (txt "VRBL X")))
    = Ok (Some (txt "X")).
Proof. vm_compute. reflexivity. Qed.

(** C5, as amended.  For every line, a query whose column exceeds the
    length of the line resolves to no identifier, for
    [_get_word_at_position] and for the hover of the parser alike.  At the
    column equal to the length, the query returns the word that ends the
    line, in uppercase, and nothing when no word ends the line.  The word is
    a letter followed by letters, digits and underscores for
    [_get_word_at_position], a letter followed by letters and digits for the
    hover, and stands at the start of the line or after a character that is
    not a word character. *)
Theorem word_at_or_past_end_of_line (line : str) :
  (∀ character, (Z.of_nat (length line) < character)%Z →
     _get_word_at_position line character = Ok None ∧
     ∀ self n, line_at (lines self) n = Some line →
               hover_word self n character = Ok None ∧
               get_hover_info self n character = Ok None) ∧
  (∀ w, ends_with_word CIdent line w →
     _get_word_at_position line (Z.of_nat (length line))
     = Ok (Some (upper w))) ∧
  ((∀ w, ¬ ends_with_word CIdent line w) →
     _get_word_at_position line (Z.of_nat (length line)) = Ok None) ∧
  (∀ self n, line_at (lines self) n = Some line →
     (∀ w, ends_with_word CAlnum line w →
        hover_word self n (Z.of_nat (length line)) = Ok (Some (upper w))) ∧
     ((∀ w, ¬ ends_with_word CAlnum line w) →
        hover_word self n (Z.of_nat (length line)) = Ok None ∧
        get_hover_info self n (Z.of_nat (length line)) = Ok None)).
Proof.
  split_and!.
  - intros character Hc. split.
    + unfold _get_word_at_position. by rewrite match_at_column_past_end.
    + intros self n Hl.
      assert (hover_word self n character = Ok None) as Hw.
      { unfold hover_word. rewrite Hl. by rewrite match_at_column_past_end. }
      split; [exact Hw|]. unfold get_hover_info. by rewrite Hw.
  - apply get_word_at_end.
  - intros Hno. destruct (proj2 (get_word_at_end line)) as [E|(w & Hw & _)];
      [exact E | by destruct (Hno w)].
  - intros self n Hl. split; [apply (hover_word_at_end self n line Hl)|].
    intros Hno.
    assert (hover_word self n (Z.of_nat (length line)) = Ok None) as Hw.
    { destruct (proj2 (hover_word_at_end self n line Hl)) as [E|(w & Hw & _)];
        [exact E | by destruct (Hno w)]. }
    split; [exact Hw|]. unfold get_hover_info. by rewrite Hw.
Qed.

(** The line "SET STATUS_OK" ends with the word STATUS_OK of the server;
    column 13 is its length. *)
Lemma word_at_or_past_end_of_line_witness :
  _get_word_at_position (txt "SET STATUS_OK") 13
  = Ok (Some (txt "STATUS_OK")).
Proof.
  apply (proj1 (proj2 (word_at_or_past_end_of_line (txt "SET STATUS_OK")))
           (txt "STATUS_OK")).
  exists (txt "SET "). split_and!; reflexivity.
Defined.

(** On the same line no word of the hover ends the line, the underscore
    being a word character outside its class: hover answers nothing. *)
Example hover_at_end_of_line :
  (∀ w, ¬ ends_with_word CAlnum (txt "SET STATUS_OK") w) ∧
  hover_word (set_lines [txt "SET STATUS_OK"] new_parser) 0 13 = Ok None ∧
  hover_word (set_lines [txt "SET STATUS"] new_parser) 0 10
  = Ok (Some (txt "STATUS")).
Proof.
  split_and!.
  - intros w Hw.
    pose proof (proj1 (hover_word_at_end
                         (set_lines [txt "SET STATUS_OK"] new_parser) 0
                         (txt "SET STATUS_OK") eq_refl) w Hw) as E.
    vm_compute in E. discriminate.
  - vm_compute. reflexivity.
  - vm_compute. reflexivity.
Qed.

(** ** Comments: what the scanner leaves *)

Lemma eqc_neq a b : a ≠ b → eqc a b = false.
Proof. unfold eqc. by apply Ascii.eqb_neq. Qed.

Lemma eqc_eq a b : eqc a b = true → a = b.
Proof. unfold eqc. by apply Ascii.eqb_eq. Qed.

Lemma eqc_refl a : eqc a a = true.
Proof. unfold eqc. apply Ascii.eqb_refl. Qed.

Lemma eqc_sym a b : eqc a b = eqc b a.
Proof. unfold eqc. apply Ascii.eqb_sym. Qed.

Lemma startswith_nil s : startswith s [] = true.
Proof. by destruct s. Qed.

Lemma contains_pair_cons c s :
  contains (c :: s) (txt "''")
  = (eqc "'"%char c && match s with c2 :: _ => eqc "'"%char c2 | [] => false end)
    || contains s (txt "''").
Proof.
  destruct s as [|c2 t]; cbn [contains startswith txt list_ascii_of_string].
  - reflexivity.
  - by rewrite startswith_nil, andb_true_r.
Qed.

Lemma contains_cons_plain c s :
  c ≠ "'"%char → contains (c :: s) (txt "''") = contains s (txt "''").
Proof.
  intros Hc. rewrite contains_pair_cons, (eqc_neq "'"%char c) by congruence.
  reflexivity.
Qed.

Lemma contains_cons_single c2 s :
  c2 ≠ "'"%char →
  contains ("'"%char :: c2 :: s) (txt "''") = contains s (txt "''").
Proof.
  intros Hc. rewrite contains_pair_cons, (eqc_neq "'"%char c2) by congruence.
  rewrite andb_false_r. simpl orb. by apply contains_cons_plain.
Qed.

Lemma remove_comments_from_step b c c2 t2 :
  remove_comments_from b (c :: c2 :: t2)
  = if eqc c "'"%char && eqc c2 "'"%char
    then remove_comments_from (negb b) t2
    else if b then remove_comments_from b (c2 :: t2)
         else c :: remove_comments_from b (c2 :: t2).
Proof. reflexivity. Qed.

Lemma remove_comments_from_no_pair n : ∀ l b,
  length l ≤ n → contains (remove_comments_from b l) (txt "''") = false.
Proof.
  induction n as [|n IH]; intros l b Hl.
  - destruct l; [by destruct b | simpl in Hl; lia].
  - destruct l as [|c t]; [by destruct b|]. simpl in Hl.
    destruct (decide (c = "'"%char)) as [->|Hc].
    + destruct t as [|c2 t2]; [by destruct b|].
      rewrite remove_comments_from_step, eqc_refl. simpl andb.
      destruct (decide (c2 = "'"%char)) as [->|Hc2].
      * rewrite eqc_refl. apply IH. simpl in Hl. lia.
      * rewrite (eqc_neq c2 "'"%char) by done.
        rewrite remove_comments_from_cons by done.
        destruct b; simpl app.
        -- apply IH. simpl in Hl. lia.
        -- rewrite contains_cons_single by done. apply IH. simpl in Hl; lia.
    + rewrite remove_comments_from_cons by done.
      destruct b; simpl app.
      * apply IH. lia.
      * rewrite contains_cons_plain by done. apply IH. lia.
Qed.

Lemma remove_comments_fixed l :
  contains l (txt "''") = false → _remove_comments l = l.
Proof.
  unfold _remove_comments.
  induction l as [|c t IH]; intros H; [reflexivity|].
  destruct t as [|c2 t2]; [reflexivity|].
  rewrite contains_pair_cons in H.
  apply orb_false_elim in H as [H1 H2].
  rewrite remove_comments_from_step.
  rewrite (eqc_sym c), (eqc_sym c2), H1.
  f_equal. by apply IH.
Qed.

Lemma sublist_remove_comments_from n : ∀ l b,
  length l ≤ n → sublist (remove_comments_from b l) l.
Proof.
  induction n as [|n IH]; intros l b Hl.
  - destruct l; [by destruct b | simpl in Hl; lia].
  - destruct l as [|c t]; [by destruct b|]. simpl in Hl.
    destruct t as [|c2 t2].
    + simpl. destruct b; [apply sublist_nil_l | reflexivity].
    + rewrite remove_comments_from_step.
      destruct (_ && _).
      * do 2 apply sublist_cons. apply IH. simpl in Hl. lia.
      * destruct b.
        -- apply sublist_cons. apply IH. lia.
        -- apply sublist_skip. apply IH. lia.
Qed.

(** X1.  What [_remove_comments] returns holds no comment delimiter, is what
    is left of the line when characters are taken out, and is returned as it
    is when scanned again; a line is returned unchanged exactly when it holds
    no delimiter. *)
Theorem remove_comments_idempotent :
  (∀ line, contains (_remove_comments line) (txt "''") = false) ∧
  (∀ line, sublist (_remove_comments line) line) ∧
  (∀ line, _remove_comments (_remove_comments line) = _remove_comments line) ∧
  (∀ line, contains line (txt "''") = false ↔ _remove_comments line = line).
Proof.
  assert (∀ line, contains (_remove_comments line) (txt "''") = false) as H1.
  { intros line. by apply (remove_comments_from_no_pair (length line)). }
  split_and!.
  - exact H1.
  - intros line. by apply (sublist_remove_comments_from (length line)).
  - intros line. apply remove_comments_fixed, H1.
  - intros line. split; [apply remove_comments_fixed|].
    intros <-. apply H1.
Qed.

(** ** Variables: insertion and lookup *)

Lemma scoped_name_ne (scope name : str) : scope ++ txt "." ++ name ≠ name.
Proof.
  intros E. apply (f_equal length) in E.
  rewrite !length_app in E. simpl in E. lia.
Qed.

Lemma get_variable_unfold m name :
  get_variable m name
  = match variables m !! (current_scope m ++ txt "." ++ name) with
    | Some v => Some v
    | None => variables m !! name
    end.
Proof. reflexivity. Qed.

Lemma add_variable_variables m var :
  variables (add_variable m var)
  = <[(if bool_decide (current_scope m ≠ txt "GLOBAL")
       then current_scope m ++ txt "." ++ v_name var
       else v_name var) := var]> (<[v_name var := var]> (variables m)).
Proof. reflexivity. Qed.

Lemma add_variable_scope m var :
  current_scope (add_variable m var) = current_scope m.
Proof. reflexivity. Qed.

(** X2.  A variable that was added is found under its name: always inside a
    block, and at top level when no key "GLOBAL.<name>" is in the registry
    (the lookup tries the scoped key first, also at top level).  Adding
    leaves the scope alone and removes no key. *)
Theorem add_variable_then_get (m : CMS2SemanticModel) (var : VariableDefinition) :
  current_scope m ≠ txt "GLOBAL" ∨
  variables m !! (txt "GLOBAL." ++ v_name var) = None →
  get_variable (add_variable m var) (v_name var) = Some var ∧
  variables (add_variable m var) !! v_name var = Some var ∧
  current_scope (add_variable m var) = current_scope m ∧
  dom (variables m) ⊆ dom (variables (add_variable m var)).
Proof.
  intros H.
  rewrite get_variable_unfold, add_variable_scope, add_variable_variables.
  split_and!.
  - case_bool_decide as Hs.
    + by rewrite lookup_insert_eq.
    + destruct H as [H|H]; [done|].
      rewrite Hs.
      rewrite !lookup_insert_ne by apply not_eq_sym, scoped_name_ne.
      change (txt "GLOBAL" ++ txt "." ++ v_name var)
        with (txt "GLOBAL." ++ v_name var).
      rewrite H. by rewrite lookup_insert_eq.
  - case_bool_decide.
    + rewrite lookup_insert_ne by apply scoped_name_ne.
      by rewrite lookup_insert_eq.
    + by rewrite lookup_insert_eq.
  - reflexivity.
  - etrans; [|apply dom_insert_subseteq]. apply dom_insert_subseteq.
Qed.

Lemma add_variable_then_get_witness :
  get_variable (add_variable new_model example_variable)
               (v_name example_variable) = Some example_variable ∧
  variables (add_variable new_model example_variable)
    !! v_name example_variable = Some example_variable ∧
  current_scope (add_variable new_model example_variable)
    = current_scope new_model ∧
  dom (variables new_model)
    ⊆ dom (variables (add_variable new_model example_variable)).
Proof.
  apply (add_variable_then_get new_model example_variable).
  right. reflexivity.
Defined.

(** ** CMODE *)

Lemma contains_single_elem c s : contains s [c] = true ↔ c ∈ s.
Proof.
  induction s as [|a s IH]; simpl.
  - split; [discriminate | by intros ?%elem_of_nil].
  - rewrite startswith_nil, andb_true_r, orb_true_iff, IH, elem_of_cons.
    split; (intros [H|H]; [left|by right]).
    + by apply eqc_eq in H.
    + subst. apply eqc_refl.
Qed.

Lemma elem_of_rev {A} (x : A) l : x ∈ rev l ↔ x ∈ l.
Proof. rewrite !list_elem_of_In. symmetry. apply in_rev. Qed.

Lemma lstrip_suffix s : ∃ w, s = w ++ lstrip s.
Proof.
  induction s as [|c s [w IH]]; simpl; [by exists []|].
  destruct (is_space_c c); [|by exists []].
  exists (c :: w). simpl. by rewrite <- IH.
Qed.

Lemma elem_of_lstrip c s : c ∈ lstrip s → c ∈ s.
Proof.
  intros H. destruct (lstrip_suffix s) as [w E]. rewrite E.
  apply elem_of_app. by right.
Qed.

Lemma elem_of_strip c s : c ∈ strip s → c ∈ s.
Proof.
  unfold strip, rstrip. intros H.
  by apply elem_of_rev, elem_of_lstrip, elem_of_rev, elem_of_lstrip in H.
Qed.

Lemma startswith_elem s p c :
  startswith s p = true → c ∈ p → c ∈ s.
Proof.
  revert s. induction p as [|a p IH]; intros s H Hc; simpl in *.
  - by apply elem_of_nil in Hc.
  - destruct s as [|b s]; [discriminate|].
    apply andb_prop in H as [H1 H2]. apply eqc_eq in H1. subst b.
    apply elem_of_cons in Hc as [->|Hc]; [left|right; eauto].
Qed.

(** A statement that the classifier takes for a CMODE statement holds the
    letter O: that of the keyword. *)
Lemma cmode_has_O statement :
  startswith (strip (upper statement)) (txt "CMODE") = true →
  contains (upper statement) (txt "O") = true.
Proof.
  intros H. apply contains_single_elem, elem_of_strip.
  eapply startswith_elem; [exact H|]. vm_compute.
  do 2 right. by left.
Qed.

Ltac cm_handler H := inv_result H; reflexivity.

Lemma create_variable_cm self name ts md n self' :
  _create_variable self name ts md n = Ok self' →
  constant_mode (model self') = constant_mode (model self).
Proof. intros H. unfold _create_variable in H. cm_handler H. Qed.

Lemma create_variables_cm names : ∀ self ts md n self',
  create_variables self names ts md n = Ok self' →
  constant_mode (model self') = constant_mode (model self).
Proof.
  induction names as [|name names IH]; intros self ts md n self'; simpl.
  - by intros [= <-].
  - destruct (_create_variable self name ts md n) as [s1| |] eqn:E; simpl;
      try discriminate.
    intros H. rewrite (IH _ _ _ _ _ H). eapply create_variable_cm; eauto.
Qed.

Lemma parse_statement_cm self s n self' :
  _parse_statement self s n = Ok self' →
  constant_mode (model self') = constant_mode (model self) ∨
  constant_mode (model self') = txt "O".
Proof.
  intros H. unfold _parse_statement in H.
  repeat match type of H with
         | context [if ?b then _ else _] => destruct b eqn:?
         end;
    try (injection H as <-; by left).
  1-15: left.
  - unfold _parse_sys_dd_start in H. cm_handler H.
  - unfold _handle_end_sys_dd in H. cm_handler H.
  - unfold _parse_sys_proc_start in H. cm_handler H.
  - unfold _handle_end_sys_proc in H. cm_handler H.
  - unfold _parse_vrbl_declaration in H.
    destruct (strip_modifier _ _) as [md stmt].
    inv_result H; try reflexivity.
    + eapply create_variables_cm; eauto.
    + eapply create_variable_cm; eauto.
  - unfold _parse_table_declaration in H. cm_handler H.
  - unfold _handle_end_table in H. cm_handler H.
  - unfold _parse_field_declaration in H. cm_handler H.
  - unfold _parse_type_declaration in H. cm_handler H.
  - unfold _handle_end_type in H. cm_handler H.
  - unfold _parse_procedure_declaration in H.
    destruct (strip_modifier _ _) as [md stmt]. cm_handler H.
  - unfold _parse_exec_proc_declaration in H.
    destruct (strip_modifier _ _) as [md stmt]. cm_handler H.
  - unfold _handle_end_proc in H. cm_handler H.
  - unfold _parse_function_declaration in H.
    destruct (strip_modifier _ _) as [md stmt]. cm_handler H.
  - unfold _handle_end_function in H. cm_handler H.
  - right. unfold _parse_cmode in H.
    rewrite cmode_has_O in H by assumption. by injection H as <-.
Qed.

(** X3.  A statement that [_parse_statement] takes for a CMODE statement
    holds the letter O of the keyword, which is what [_parse_cmode] tests
    for: it selects the octal mode, whatever follows the keyword.  So a
    statement leaves the constant mode as it was or makes it "O", and the
    mode of a parsed document is "D", the initial one, or "O". *)
Theorem cmode_selects_octal :
  (∀ self s n self',
     _parse_statement self s n = Ok self' →
     constant_mode (model self') = constant_mode (model self) ∨
     constant_mode (model self') = txt "O") ∧
  (∀ code m, parse code = Ok m →
     constant_mode m = txt "D" ∨ constant_mode m = txt "O") ∧
  (∃ m, parse (txt "CMODE D $") = Ok m ∧ constant_mode m = txt "O").
Proof.
  split_and!.
  - intros self s n self' E. by apply (parse_statement_cm self s n).
  - intros code m Hm.
    destruct (parse_invariant
                (fun self => constant_mode (model self) = txt "D" ∨
                             constant_mode (model self) = txt "O")
                (or_introl eq_refl) (fun _ _ H => H)) with (code := code) (m := m)
      as (self & HP & ->); [|exact Hm|exact HP].
    intros self s n self' HP H.
    destruct (parse_statement_cm _ _ _ _ H) as [-> | ->]; auto.
  - eexists. split; vm_compute; reflexivity.
Qed.

(** ** Hover: the words that resolve *)

Lemma alnum_upper_c c :
  test CAlnum c = true →
  is_upper_c (upper_c c) = true ∨ is_digit_c (upper_c c) = true.
Proof.
  destruct c as [[] [] [] [] [] [] [] []]; vm_compute; intros; auto;
    discriminate.
Qed.

Lemma hover_word_chars self line column w :
  hover_word self line column = Ok (Some w) →
  Forall (fun c => is_upper_c c = true ∨ is_digit_c c = true) w.
Proof.
  unfold hover_word. destruct (line_at _ _) as [l|]; [|discriminate].
  destruct (match_at_column _ _ _) as [mt|] eqn:E; [|discriminate].
  unfold match_at_column in E. apply find_some in E as [Hin _].
  pose proof (finditer_from_matches re_hover_word l 0 None 0) as HF.
  rewrite List.Forall_forall in HF.
  destruct (HF mt Hin) as (st & Hc & Hm).
  destruct (hover_match_word st mt Hc Hm) as (g & -> & Hg).
  simpl. intros [= <-]. unfold upper.
  apply Forall_fmap, Forall_forall. intros c Hc'.
  apply alnum_upper_c. rewrite forallb_forall in Hg.
  apply Hg. by apply list_elem_of_In.
Qed.

(** X4.  When hover answers with a keyword, the keyword is a reserved word
    made of capital letters and digits: the pattern of the word under the
    cursor stops at a hyphen, so that the reserved words written with one
    (SYS-DD, END-PROC, ...) are never described. *)
Theorem hover_keyword_has_no_hyphen
    (self : CMS2SemanticParser) (line column : Z) (w : str) :
  get_hover_info self line column = Ok (Some (HoverKeyword w)) →
  word_in w RESERVED_WORDS = true ∧
  Forall (fun c => is_upper_c c = true ∨ is_digit_c c = true) w ∧
  "-"%char ∉ w.
Proof.
  unfold get_hover_info.
  destruct (hover_word self line column) as [[word|]| |] eqn:E;
    cbn [rbind]; try discriminate.
  pose proof (hover_word_chars _ _ _ _ E) as Hw.
  destruct (get_variable _ _); [discriminate|].
  destruct (get_table _ _); [discriminate|].
  destruct (get_procedure _ _); [discriminate|].
  destruct (get_function _ _); [discriminate|].
  destruct (get_type _ _); [discriminate|].
  destruct (word_in word RESERVED_WORDS) eqn:Hr.
  - intros [= ->]. split_and!; auto.
    intros Hin. rewrite Forall_forall in Hw.
    destruct (Hw _ Hin); discriminate.
  - destruct (word_in word PREDEFINED_FUNCTIONS); discriminate.
Qed.

Lemma hover_keyword_has_no_hyphen_witness :
  word_in (txt "IF") RESERVED_WORDS = true ∧
  Forall (fun c => is_upper_c c = true ∨ is_digit_c c = true) (txt "IF") ∧
  "-"%char ∉ txt "IF".
Proof.
  apply (hover_keyword_has_no_hyphen (set_lines [txt "IF X"] new_parser) 0 1).
  vm_compute. reflexivity.
Defined.

(** ** The main loop, statement by statement *)

(** X5.  [parse] assembles the statements of the document and hands them,
    in order and each with the number of the line on which it ends, to
    [_parse_statement]: the model it returns is that of the parser after
    the last of them. *)
Theorem parse_runs_the_statements (cms2_code : str) :
  parse cms2_code = rmap model (run_statements new_parser (statements cms2_code)).
Proof.
  rewrite parse_from_lines. apply parse_lines_run.
Qed.

(** ** What a statement looks like *)

Lemma lstrip_head s :
  match lstrip s with c :: _ => is_space_c c = false | [] => True end.
Proof.
  induction s as [|c s IH]; simpl; [done|].
  destruct (is_space_c c) eqn:E; [exact IH | exact E].
Qed.

Lemma lstrip_fixed s :
  match s with c :: _ => is_space_c c = false | [] => True end →
  lstrip s = s.
Proof. destruct s as [|c s]; simpl; [done|]. by intros ->. Qed.

Lemma rstrip_prefix s : ∃ w, s = rstrip s ++ w.
Proof.
  unfold rstrip. destruct (lstrip_suffix (rev s)) as [w E].
  exists (rev w). rewrite <- rev_app_distr, <- E. by rewrite rev_involutive.
Qed.

Lemma rstrip_fixed s : lstrip (rev s) = rev s → rstrip s = s.
Proof. unfold rstrip. intros ->. apply rev_involutive. Qed.

Lemma strip_idem s : strip (strip s) = strip s.
Proof.
  unfold strip at 1.
  assert (lstrip (strip s) = strip s) as ->.
  { apply lstrip_fixed. unfold strip.
    destruct (rstrip_prefix (lstrip s)) as [w E].
    pose proof (lstrip_head s) as Hh. rewrite E in Hh.
    by destruct (rstrip (lstrip s)). }
  apply rstrip_fixed. unfold strip, rstrip. rewrite rev_involutive.
  apply lstrip_fixed, lstrip_head.
Qed.

Lemma elem_of_find_c_take c s p : find_c c s = Some p → c ∉ take p s.
Proof.
  revert p. induction s as [|a s IH]; intros p; simpl; [discriminate|].
  destruct (eqc a c) eqn:E.
  - intros [= <-]. simpl. by intros ?%elem_of_nil.
  - destruct (find_c c s) as [q|]; [|discriminate].
    intros [= <-]. simpl. intros [->|H]%elem_of_cons.
    + by rewrite eqc_refl in E.
    + by apply (IH q).
Qed.

Lemma loop_statements_ok fuel : ∀ b,
  Forall statement_ok (fst (loop_statements fuel b)).
Proof.
  induction fuel as [|fuel IH]; intros b; simpl.
  - destruct (find_c _ b); constructor.
  - destruct (find_c _ b) as [p|] eqn:E; [|constructor]. simpl.
    destruct (nonempty _) eqn:Hn; [|apply IH].
    constructor; [|apply IH]. split_and!.
    + intros E'. by rewrite E' in Hn.
    + intros H%elem_of_strip. by apply (elem_of_find_c_take _ _ _ E).
    + apply strip_idem.
Qed.

Lemma statements_from_ok l : ∀ b i,
  Forall (fun s => statement_ok (fst s) ∧ (i ≤ snd s < i + length l))
         (statements_from b i l).
Proof.
  induction l as [|line l IH]; intros b i; simpl; [constructor|].
  assert (Forall (fun s => statement_ok (fst s) ∧ (i ≤ snd s < i + S (length l)))
                 (statements_from b (S i) l)) as Hrest.
  { intros. eapply Forall_impl; [apply IH|]. simpl. intros s [? ?].
    split; [done | lia]. }
  destruct (nonempty _); [|apply Hrest].
  apply Forall_app. split.
  - apply Forall_fmap. eapply Forall_impl; [apply loop_statements_ok|].
    simpl. intros s Hs. split; [done | lia].
  - eapply Forall_impl; [apply IH|]. simpl. intros s [? ?].
    split; [done | lia].
Qed.

Lemma statements_from_sorted l : ∀ b i,
  StronglySorted le (map snd (statements_from b i l)).
Proof.
  induction l as [|line l IH]; intros b i; simpl; [constructor|].
  destruct (nonempty _); [|apply IH].
  rewrite map_app, map_map. simpl.
  induction (fst (loop_statements _ _)) as [|s ss IHs]; simpl; [apply IH|].
  constructor; [exact IHs|].
  apply Forall_app. split.
  - apply Forall_forall. intros x Hx. apply list_elem_of_In, in_map_iff in Hx.
    destruct Hx as (? & <- & _). lia.
  - apply Forall_fmap. eapply Forall_impl; [apply (statements_from_ok l)|].
    simpl. intros s' [_ ?]. lia.
Qed.

(** X6.  Every statement that [parse] hands to [_parse_statement] is not
    empty, holds no '$' and has no blank at either end; its line number is
    that of a line of the document, and the line numbers never go down. *)
Theorem statements_are_well_formed (cms2_code : str) :
  Forall (fun s => fst s ≠ [] ∧ ("$"%char ∉ fst s) ∧ strip (fst s) = fst s ∧
                   snd s < length (split_c "010"%char cms2_code))
         (statements cms2_code) ∧
  StronglySorted le (map snd (statements cms2_code)).
Proof.
  split.
  - eapply Forall_impl; [apply statements_from_ok|].
    simpl. intros s [(? & ? & ?) ?]. split_and!; auto. lia.
  - apply statements_from_sorted.
Qed.

(** ** Line numbers stay inside the document *)

Section LinesBelow.

Implicit Types (m : CMS2SemanticModel).

Lemma lines_below_mono n n' m : n ≤ n' → lines_below n m → lines_below n' m.
Proof.
  intros Hn (Hv & Hd & Hp & Hf & Ht & Hy & Hq).
  assert (∀ s e, span_below n s e → span_below n' s e) as Hs.
  { unfold span_below. intros; lia. }
  split_and!.
  - intros k v Hk. specialize (Hv k v Hk). lia.
  - intros k b Hk. eauto.
  - intros k b Hk. eauto.
  - intros k b Hk. eauto.
  - eapply Forall_impl; [exact Ht|]. simpl. eauto.
  - eapply Forall_impl; [exact Hy|]. simpl. eauto.
  - eapply Forall_impl; [exact Hq|]. simpl. eauto.
Qed.

Lemma lb_new_model n : lines_below n new_model.
Proof.
  split_and!; try (intros k b; simpl; by rewrite lookup_empty);
    simpl; constructor.
Qed.

Lemma lb_step n m m' :
  lines_below n m →
  (∀ k v, variables m' !! k = Some v →
          variables m !! k = Some v ∨ v_line_number v < n) →
  (∀ k b, sys_data_blocks m' !! k = Some b →
          sys_data_blocks m !! k = Some b ∨
          span_below n (dd_line_start b) (dd_line_end b)) →
  (∀ k b, sys_proc_blocks m' !! k = Some b →
          sys_proc_blocks m !! k = Some b ∨
          span_below n (sp_line_start b) (sp_line_end b)) →
  (∀ k f, functions m' !! k = Some f →
          functions m !! k = Some f ∨
          span_below n (fn_line_start f) (fn_line_end f)) →
  (Forall (fun t => span_below n (t_line_start t) (t_line_end t)) (table_objs m) →
   Forall (fun t => span_below n (t_line_start t) (t_line_end t)) (table_objs m')) →
  (Forall (fun t => span_below n (ty_line_start t) (ty_line_end t)) (type_objs m) →
   Forall (fun t => span_below n (ty_line_start t) (ty_line_end t)) (type_objs m')) →
  (Forall (fun p => span_below n (p_line_start p) (p_line_end p)) (proc_objs m) →
   Forall (fun p => span_below n (p_line_start p) (p_line_end p)) (proc_objs m')) →
  lines_below n m'.
Proof.
  intros (Hv & Hd & Hp & Hf & Ht & Hy & Hq) Hv' Hd' Hp' Hf' Ht' Hy' Hq'.
  split_and!; auto.
  - intros k b Hk. destruct (Hv' k b Hk); eauto.
  - intros k b Hk. destruct (Hd' k b Hk); eauto.
  - intros k b Hk. destruct (Hp' k b Hk); eauto.
  - intros k b Hk. destruct (Hf' k b Hk); eauto.
Qed.

End LinesBelow.

Ltac lb_span :=
  unfold span_below in *; cbn in *; lia.

Ltac lb_insert Hk :=
  rewrite lookup_insert in Hk; case_decide;
  [injection Hk as <-; right; cbn; lia|].

Ltac lb_vars :=
  let k := fresh "k" in
  let v := fresh "v" in
  let Hk := fresh "Hk" in
  cbn; intros k v Hk;
  first
    [ left; exact Hk
    | try match type of Hk with
          | context [bool_decide ?P] => destruct (bool_decide P)
          end;
      lb_insert Hk; lb_insert Hk; left; exact Hk ].

Ltac lb_blocks HP :=
  let k := fresh "k" in
  let b := fresh "b" in
  let Hk := fresh "Hk" in
  cbn; intros k b Hk;
  first
    [ left; exact Hk
    | match goal with
      | Hd : _ ∨ _ |- _ =>
          let b0 := fresh "b0" in
          let Hb0 := fresh "Hb0" in
          destruct (updated_lookup _ _ _ _ _ _ Hd Hk) as [|(b0 & Hb0 & ->)];
          [ left; assumption
          | right;
            first [ pose proof (proj1 (proj2 HP) _ _ Hb0); lb_span
                  | pose proof (proj1 (proj2 (proj2 HP)) _ _ Hb0); lb_span
                  | pose proof (proj1 (proj2 (proj2 (proj2 HP))) _ _ Hb0);
                    lb_span ] ]
      end
    | rewrite lookup_insert in Hk; case_decide;
      [ injection Hk as <-; right; lb_span | left; exact Hk ] ].

Ltac lb_objs :=
  let HF := fresh "HF" in
  cbn; intros HF;
  first
    [ exact HF
    | apply Forall_app; split;
      [exact HF | constructor; [lb_span | constructor]]
    | match goal with
      | Ho : _ ∨ _ |- _ =>
          destruct Ho as [-> | (? & ? & _ & _ & ->)];
          [ exact HF
          | apply Forall_alter; [exact HF | intros ? _ ?; lb_span] ]
      end ].

Ltac lb_handler HP H :=
  inv_result H;
  first [ exact HP
        | cbn; apply (lb_step _ _ _ HP);
          [lb_vars | lb_blocks HP | lb_blocks HP | lb_blocks HP
          | lb_objs | lb_objs | lb_objs] ].

Lemma create_variable_lb self name ts md n self' :
  lines_below (S n) (model self) →
  _create_variable self name ts md n = Ok self' →
  lines_below (S n) (model self').
Proof.
  intros HP H. unfold _create_variable in H. lb_handler HP H.
Qed.

Lemma create_variables_lb names : ∀ self ts md n self',
  lines_below (S n) (model self) →
  create_variables self names ts md n = Ok self' →
  lines_below (S n) (model self').
Proof.
  induction names as [|name names IH]; intros self ts md n self' HP; simpl.
  - by intros [= <-].
  - destruct (_create_variable self name ts md n) as [s1| |] eqn:E; simpl;
      try discriminate.
    apply IH. eapply create_variable_lb; eauto.
Qed.

Lemma parse_statement_lb self s n self' :
  lines_below (S n) (model self) →
  _parse_statement self s n = Ok self' →
  lines_below (S n) (model self').
Proof.
  intros HP H. unfold _parse_statement in H.
  repeat match type of H with
         | context [if ?b then _ else _] => destruct b
         end;
    try (injection H as <-; exact HP).
  - unfold _parse_sys_dd_start in H. lb_handler HP H.
  - unfold _handle_end_sys_dd in H. lb_handler HP H.
  - unfold _parse_sys_proc_start in H. lb_handler HP H.
  - unfold _handle_end_sys_proc in H. lb_handler HP H.
  - unfold _parse_vrbl_declaration in H.
    destruct (strip_modifier _ _) as [md stmt].
    inv_result H; try exact HP.
    + eapply create_variables_lb; eauto.
    + eapply create_variable_lb; eauto.
  - unfold _parse_table_declaration in H. lb_handler HP H.
  - unfold _handle_end_table in H. lb_handler HP H.
  - unfold _parse_field_declaration in H. lb_handler HP H.
  - unfold _parse_type_declaration in H. lb_handler HP H.
  - unfold _handle_end_type in H. lb_handler HP H.
  - unfold _parse_procedure_declaration in H.
    destruct (strip_modifier _ _) as [md stmt]. lb_handler HP H.
  - unfold _parse_exec_proc_declaration in H.
    destruct (strip_modifier _ _) as [md stmt]. lb_handler HP H.
  - unfold _handle_end_proc in H. lb_handler HP H.
  - unfold _parse_function_declaration in H.
    destruct (strip_modifier _ _) as [md stmt]. lb_handler HP H.
  - unfold _handle_end_function in H. lb_handler HP H.
  - unfold _parse_cmode in H. lb_handler HP H.
Qed.

Lemma statement_loop_invariant_at (P : CMS2SemanticParser → Prop) i :
  (∀ self s self', P self → _parse_statement self s i = Ok self' → P self') →
  ∀ fuel self b x,
    P self → statement_loop fuel self b i = Ok x → P (fst x).
Proof.
  intros Hstep. induction fuel as [|fuel IH]; intros self b x HP; simpl.
  - destruct (find_c _ b); [discriminate|]. by intros [= <-].
  - destruct (find_c _ b) as [p|]; [|by intros [= <-]].
    destruct (nonempty _); simpl.
    + destruct (_parse_statement self _ i) as [self'| |] eqn:E; simpl;
        try discriminate.
      apply IH. eapply Hstep; eauto.
    + by apply IH.
Qed.

Lemma parse_lines_below l : ∀ self b i x,
  lines_below i (model self) → parse_lines self b i l = Ok x →
  lines_below (i + length l) (model (fst x)).
Proof.
  induction l as [|line l IH]; intros self b i x HP; simpl.
  - intros [= <-]. by rewrite Nat.add_0_r.
  - destruct (parse_line self b i line) as [[self' b']| |] eqn:E; simpl;
      try discriminate.
    intros H. replace (i + S (length l)) with (S i + length l) by lia.
    eapply IH; [|exact H].
    unfold parse_line in E.
    assert (lines_below (S i) (model (set_current_line_num i self))) as HP'.
    { apply (lines_below_mono i); [lia | exact HP]. }
    destruct (nonempty _).
    + apply (statement_loop_invariant_at
               (fun s => lines_below (S i) (model s)) i
               (fun s0 st s1 => parse_statement_lb s0 st i s1) _ _ _ _ HP' E).
    + injection E as <- <-. exact HP'.
Qed.

Lemma get_variable_Some m name v :
  get_variable m name = Some v → ∃ k, variables m !! k = Some v.
Proof.
  rewrite get_variable_unfold.
  destruct (variables m !! _) eqn:E; [intros [= <-]|]; eauto.
Qed.

(** X7.  Every line number recorded in the model of a parsed document is
    that of a line of the document, and an entity that was closed ends no
    earlier than it starts; so the line that go-to-definition answers with
    is a line of the document. *)
Theorem line_numbers_inside_document (cms2_code : str)
    (m : CMS2SemanticModel) :
  parse cms2_code = Ok m →
    lines_below (length (split_c "010"%char cms2_code)) m ∧
    ∀ name n, _find_definition m name = Some n →
              n < length (split_c "010"%char cms2_code).
Proof.
  intros Hm.
  assert (lines_below (length (split_c "010"%char cms2_code)) m) as HL.
  { rewrite parse_from_lines in Hm.
    destruct (parse_lines new_parser _ _ _) as [x| |] eqn:E; simpl in Hm;
      try discriminate.
    injection Hm as <-.
    apply (parse_lines_below _ new_parser _ 0 _ (lb_new_model 0) E). }
  split; [exact HL|].
  destruct HL as (Hv & _ & _ & Hf & Ht & Hy & Hq).
  rewrite Forall_lookup in Ht. rewrite Forall_lookup in Hy.
  rewrite Forall_lookup in Hq.
  intros name n. unfold _find_definition.
  destruct (get_variable m _) as [v|] eqn:Ev.
  { intros [= <-]. destruct (get_variable_Some _ _ _ Ev) as [k Hk]. eauto. }
  destruct (get_table m _) as [t|] eqn:Et.
  { intros [= <-]. unfold get_table in Et.
    destruct (tables m !! _) as [r|]; [|discriminate]. simpl in Et.
    by destruct (Ht _ _ Et). }
  destruct (get_procedure m _) as [p|] eqn:Ep.
  { intros [= <-]. unfold get_procedure in Ep.
    destruct (procedures m !! _) as [r|]; [|discriminate]. simpl in Ep.
    by destruct (Hq _ _ Ep). }
  destruct (get_function m _) as [f|] eqn:Ef.
  { intros [= <-]. by destruct (Hf _ _ Ef). }
  destruct (get_type m _) as [t|] eqn:Ey; [|discriminate].
  intros [= <-]. unfold get_type in Ey.
  destruct (types m !! _) as [r|]; [|discriminate]. simpl in Ey.
  by destruct (Hy _ _ Ey).
Qed.

(** Scenario 3 has four lines. *)
Lemma line_numbers_inside_document_witness :
  lines_below 4 (model_of scenario_3) ∧
  ∀ name n, _find_definition (model_of scenario_3) name = Some n → n < 4.
Proof.
  apply (line_numbers_inside_document scenario_3).
  vm_compute. reflexivity.
Defined.
